(** * Source-trace transformer of the Effect unplugin

    A shallow embedding of [packages/tools/unplugin/src/sourceTrace.ts] and
    [packages/tools/unplugin/src/annotateEffects.ts]: the Babel syntax tree
    the two transformers walk, the visitors they install, and the passes of
    [transform] and [annotateEffects].  Parsing and code generation are
    external (Babel); they are section variables of the two entry points. *)

From Stdlib Require Import String Ascii List Bool Arith Lia.
From Stdlib Require Import DecimalString DecimalNat.
Import ListNotations.
Open Scope string_scope.

Set Implicit Arguments.

(* ------------------------------------------------------------------ *)
(** ** Syntax tree *)

(** [loc.start] of a Babel node; [loc.end] is never read by the code. *)
Record Position := { line : nat; column : nat }.
Record SourceLocation := { start : Position }.

Inductive Comment :=
| CommentBlock (value : string)
| CommentLine (value : string).

(** [ImportSpecifier.imported] is an [Identifier] or a [StringLiteral]. *)
Inductive ModuleExportName :=
| ImportedIdentifier (name : string)
| ImportedStringLiteral (value : string).

Inductive ImportSpecifierNode :=
| ImportDefaultSpecifier (local : string)
| ImportNamespaceSpecifier (local : string)
| ImportSpecifier (imported : ModuleExportName) (local : string).

(** The node types the two transformers inspect or build, with the fields
    they read; children are listed in Babel's visitor-key order.  Every
    other node type is an [OtherNode] with its type name and children. *)
#[warnings="-register-all"]
Inductive Node :=
| Identifier (name : string)
| StringLiteral (value : string)
| MemberExpression (object property : Node)
| CallExpression (loc : option SourceLocation) (leadingComments : list Comment)
                 (callee : Node) (arguments : list Node)
| FunctionExpression (generator : bool) (params : list Node) (body : Node)
| ArrowFunctionExpression (params : list Node) (body : Node)
| YieldExpression (loc : option SourceLocation) (delegate : bool)
                  (argument : option Node)
| ObjectExpression (properties : list Node)
| ObjectProperty (key value : Node)
| SpreadElement (argument : Node)
| VariableDeclaration (kind : string) (declarations : list Node)
| VariableDeclarator (id : Node) (init : option Node)
| ReturnStatement (argument : option Node)
| BlockStatement (body : list Node)
| ExpressionStatement (expression : Node)
| ExportDefaultDeclaration (declaration : Node)
| ExportNamedDeclaration (declaration : option Node)
| ImportDeclaration (specifiers : list ImportSpecifierNode) (source : string)
| OtherNode (type : string) (children : list Node).

(** [ast.program.body] of a [t.File]. *)
Record File := { program_body : list Node }.

Definition optList (o : option Node) : list Node :=
  match o with Some x => [x] | None => [] end.

(** The child nodes a traversal descends into, in order.  The specifiers and
    the source of an import are identifiers and string literals only. *)
Definition children (n : Node) : list Node :=
  match n with
  | Identifier _ | StringLiteral _ | ImportDeclaration _ _ => []
  | MemberExpression o p => [o; p]
  | CallExpression _ _ c a => c :: a
  | FunctionExpression _ ps b => ps ++ [b]
  | ArrowFunctionExpression ps b => ps ++ [b]
  | YieldExpression _ _ a => optList a
  | ObjectExpression ps => ps
  | ObjectProperty k v => [k; v]
  | SpreadElement a => [a]
  | VariableDeclaration _ ds => ds
  | VariableDeclarator i e => i :: optList e
  | ReturnStatement a => optList a
  | BlockStatement b => b
  | ExpressionStatement e => [e]
  | ExportDefaultDeclaration d => [d]
  | ExportNamedDeclaration d => optList d
  | OtherNode _ cs => cs
  end.

(* ------------------------------------------------------------------ *)
(** ** Traversal combinators

    Babel's [traverse] visits a node (its [enter] visitor) and then its
    children.  The three combinators below are the "then its children"
    step for a visitor that rebuilds nodes, one that also raises a
    write-only flag ([hasTransformed = true]), and one that threads state. *)

Definition mapChildren (f : Node -> Node) (n : Node) : Node :=
  match n with
  | Identifier _ | StringLiteral _ | ImportDeclaration _ _ => n
  | MemberExpression o p => MemberExpression (f o) (f p)
  | CallExpression l cs c a => CallExpression l cs (f c) (map f a)
  | FunctionExpression g ps b => FunctionExpression g (map f ps) (f b)
  | ArrowFunctionExpression ps b => ArrowFunctionExpression (map f ps) (f b)
  | YieldExpression l d a => YieldExpression l d (option_map f a)
  | ObjectExpression ps => ObjectExpression (map f ps)
  | ObjectProperty k v => ObjectProperty (f k) (f v)
  | SpreadElement a => SpreadElement (f a)
  | VariableDeclaration k ds => VariableDeclaration k (map f ds)
  | VariableDeclarator i e => VariableDeclarator (f i) (option_map f e)
  | ReturnStatement a => ReturnStatement (option_map f a)
  | BlockStatement b => BlockStatement (map f b)
  | ExpressionStatement e => ExpressionStatement (f e)
  | ExportDefaultDeclaration d => ExportDefaultDeclaration (f d)
  | ExportNamedDeclaration d => ExportNamedDeclaration (option_map f d)
  | OtherNode t cs => OtherNode t (map f cs)
  end.

(** A visitor result: the node now in place and whether the visitor raised
    the flag. *)
Definition flagged := (Node * bool)%type.

Definition mapFlag (f : Node -> flagged) : list Node -> list Node * bool :=
  fix go (l : list Node) : list Node * bool :=
    match l with
    | [] => ([], false)
    | x :: r =>
        let '(x', b1) := f x in
        let '(r', b2) := go r in
        (x' :: r', b1 || b2)
    end.

Definition optFlag (f : Node -> flagged) (o : option Node) : option Node * bool :=
  match o with
  | Some x => let '(x', b) := f x in (Some x', b)
  | None => (None, false)
  end.

Definition traverseChildren (f : Node -> flagged) (n : Node) : flagged :=
  match n with
  | Identifier _ | StringLiteral _ | ImportDeclaration _ _ => (n, false)
  | MemberExpression o p =>
      let '(o', b1) := f o in
      let '(p', b2) := f p in
      (MemberExpression o' p', b1 || b2)
  | CallExpression l cs c a =>
      let '(c', b1) := f c in
      let '(a', b2) := mapFlag f a in
      (CallExpression l cs c' a', b1 || b2)
  | FunctionExpression g ps b =>
      let '(ps', b1) := mapFlag f ps in
      let '(b', b2) := f b in
      (FunctionExpression g ps' b', b1 || b2)
  | ArrowFunctionExpression ps b =>
      let '(ps', b1) := mapFlag f ps in
      let '(b', b2) := f b in
      (ArrowFunctionExpression ps' b', b1 || b2)
  | YieldExpression l d a =>
      let '(a', b) := optFlag f a in (YieldExpression l d a', b)
  | ObjectExpression ps =>
      let '(ps', b) := mapFlag f ps in (ObjectExpression ps', b)
  | ObjectProperty k v =>
      let '(k', b1) := f k in
      let '(v', b2) := f v in
      (ObjectProperty k' v', b1 || b2)
  | SpreadElement a =>
      let '(a', b) := f a in (SpreadElement a', b)
  | VariableDeclaration k ds =>
      let '(ds', b) := mapFlag f ds in (VariableDeclaration k ds', b)
  | VariableDeclarator i e =>
      let '(i', b1) := f i in
      let '(e', b2) := optFlag f e in
      (VariableDeclarator i' e', b1 || b2)
  | ReturnStatement a =>
      let '(a', b) := optFlag f a in (ReturnStatement a', b)
  | BlockStatement bd =>
      let '(bd', b) := mapFlag f bd in (BlockStatement bd', b)
  | ExpressionStatement e =>
      let '(e', b) := f e in (ExpressionStatement e', b)
  | ExportDefaultDeclaration d =>
      let '(d', b) := f d in (ExportDefaultDeclaration d', b)
  | ExportNamedDeclaration d =>
      let '(d', b) := optFlag f d in (ExportNamedDeclaration d', b)
  | OtherNode t cs =>
      let '(cs', b) := mapFlag f cs in (OtherNode t cs', b)
  end.

Section Fold.
Variable S : Type.
Variable f : Node -> S -> S.

Definition foldList : list Node -> S -> S :=
    fix go (l : list Node) (s : S) : S :=
      match l with
      | [] => s
      | x :: r => go r (f x s)
      end.

Definition foldOpt (o : option Node) (s : S) : S :=
    match o with Some x => f x s | None => s end.

Definition foldChildren (n : Node) (s : S) : S :=
    match n with
    | Identifier _ | StringLiteral _ | ImportDeclaration _ _ => s
    | MemberExpression o p => f p (f o s)
    | CallExpression _ _ c a => foldList a (f c s)
    | FunctionExpression _ ps b => f b (foldList ps s)
    | ArrowFunctionExpression ps b => f b (foldList ps s)
    | YieldExpression _ _ a => foldOpt a s
    | ObjectExpression ps => foldList ps s
    | ObjectProperty k v => f v (f k s)
    | SpreadElement a => f a s
    | VariableDeclaration _ ds => foldList ds s
    | VariableDeclarator i e => foldOpt e (f i s)
    | ReturnStatement a => foldOpt a s
    | BlockStatement b => foldList b s
    | ExpressionStatement e => f e s
    | ExportDefaultDeclaration d => f d s
    | ExportNamedDeclaration d => foldOpt d s
    | OtherNode _ cs => foldList cs s
    end.
End Fold.

(** Node-counting helpers used to state what a pass did to a tree. *)
Definition sumChildren (f : Node -> nat) (n : Node) : nat :=
  foldChildren (fun c acc => acc + f c) n 0.

Definition maxChildren (f : Node -> nat) (n : Node) : nat :=
  foldChildren (fun c acc => Nat.max acc (f c)) n 0.

Fixpoint countNodes (P : Node -> bool) (n : Node) {struct n} : nat :=
  (if P n then 1 else 0) + sumChildren (countNodes P) n.

Fixpoint height (n : Node) {struct n} : nat :=
  S (maxChildren height n).

Definition countList (P : Node -> bool) (l : list Node) : nat :=
  list_sum (map (countNodes P) l).

(* ------------------------------------------------------------------ *)
(** ** Induction over the tree, by the children of a node *)

Section NodeInduction.
Variable P : Node -> Prop.
Hypothesis step : forall n, Forall P (children n) -> P n.

Definition allList (IH : forall n, P n) : forall l, Forall P l :=
    fix go (l : list Node) : Forall P l :=
      match l with
      | [] => Forall_nil P
      | x :: r => Forall_cons x (IH x) (go r)
      end.

Definition allOpt (IH : forall n, P n) (o : option Node) : Forall P (optList o) :=
    match o with
    | Some x => Forall_cons x (IH x) (Forall_nil P)
    | None => Forall_nil P
    end.

Definition allSnoc (IH : forall n, P n) (b : Node) : forall l, Forall P (l ++ [b]) :=
    fix go (l : list Node) : Forall P (l ++ [b]) :=
      match l with
      | [] => Forall_cons b (IH b) (Forall_nil P)
      | x :: r => Forall_cons x (IH x) (go r)
      end.

Fixpoint node_children_ind (n : Node) : P n :=
    step n
      (match n return Forall P (children n) with
       | Identifier _ | StringLiteral _ | ImportDeclaration _ _ => Forall_nil P
       | MemberExpression o p =>
           Forall_cons o (node_children_ind o)
             (Forall_cons p (node_children_ind p) (Forall_nil P))
       | CallExpression _ _ c a =>
           Forall_cons c (node_children_ind c) (allList node_children_ind a)
       | FunctionExpression _ ps b => allSnoc node_children_ind b ps
       | ArrowFunctionExpression ps b => allSnoc node_children_ind b ps
       | YieldExpression _ _ a => allOpt node_children_ind a
       | ObjectExpression ps => allList node_children_ind ps
       | ObjectProperty k v =>
           Forall_cons k (node_children_ind k)
             (Forall_cons v (node_children_ind v) (Forall_nil P))
       | SpreadElement a => Forall_cons a (node_children_ind a) (Forall_nil P)
       | VariableDeclaration _ ds => allList node_children_ind ds
       | VariableDeclarator i e =>
           Forall_cons i (node_children_ind i) (allOpt node_children_ind e)
       | ReturnStatement a => allOpt node_children_ind a
       | BlockStatement b => allList node_children_ind b
       | ExpressionStatement e =>
           Forall_cons e (node_children_ind e) (Forall_nil P)
       | ExportDefaultDeclaration d =>
           Forall_cons d (node_children_ind d) (Forall_nil P)
       | ExportNamedDeclaration d => allOpt node_children_ind d
       | OtherNode _ cs => allList node_children_ind cs
       end).
End NodeInduction.


(* ------------------------------------------------------------------ *)
(** ** JavaScript helpers *)

(** Template-literal rendering of a number. *)
Definition string_of_nat (n : nat) : string :=
  NilEmpty.string_of_uint (Nat.to_uint n).

(** Truthiness of a string: only the empty string is falsy. *)
Definition truthy (s : string) : bool := negb (s =? "").

Definition truthyOpt (o : option string) : bool :=
  match o with Some s => truthy s | None => false end.

(** [s.includes(needle)]. *)
Definition includes (needle s : string) : bool :=
  match index 0 needle s with Some _ => true | None => false end.

(** [s.split("/")], with [cur] the part read so far. *)
Fixpoint splitSlash (s cur : string) : list string :=
  match s with
  | EmptyString => [cur]
  | String c r =>
      if Ascii.eqb c "/"%char then cur :: splitSlash r ""
      else splitSlash r (cur ++ String c "")
  end.

(** [Set.prototype.has] on a set of strings. *)
Definition setHas (x : string) (s : list string) : bool :=
  existsb (String.eqb x) s.

(** A JavaScript [Map] with string keys keeps insertion order. *)
Section JsMap.
Variable V : Type.

Definition mapHas (k : string) (m : list (string * V)) : bool :=
  existsb (fun p => fst p =? k) m.

Fixpoint mapGet (k : string) (m : list (string * V)) : option V :=
  match m with
  | [] => None
  | (k', v) :: r => if k' =? k then Some v else mapGet k r
  end.

Fixpoint mapSet (k : string) (v : V) (m : list (string * V)) : list (string * V) :=
  match m with
  | [] => [(k, v)]
  | (k', v') :: r => if k' =? k then (k', v) :: r else (k', v') :: mapSet k v r
  end.

Definition mapValues (m : list (string * V)) : list V := map snd m.
End JsMap.

(* ------------------------------------------------------------------ *)
(** ** types.ts *)

Module Combinator.
Inductive t :=
| gen | fork | forkDaemon | forkScoped | all
| forEach | filter | reduce | iterate | loop.

Definition name (c : t) : string :=
  match c with
  | gen => "gen" | fork => "fork" | forkDaemon => "forkDaemon"
  | forkScoped => "forkScoped" | all => "all" | forEach => "forEach"
  | filter => "filter" | reduce => "reduce" | iterate => "iterate"
  | loop => "loop"
  end.
End Combinator.

Definition InstrumentableEffect := Combinator.t.

Inductive SpanNameFormat := FormatFunction | FormatLocation | FormatFull.

Record CombinatorFilter := {
  files : option (list string);
  excludeFiles : option (list string);
  functions : option (list string);
  excludeFunctions : option (list string)
}.

Inductive InstrumentationStrategy :=
| DepthInstrumentationStrategy
    (maxDepth : option nat)
    (perCombinator : option (list (InstrumentableEffect * nat)))
| OverrideInstrumentationStrategy
    (rules : list (InstrumentableEffect * CombinatorFilter)).

Record SpanInstrumentationOptions := {
  enabled : option bool;
  include : option (list InstrumentableEffect);
  exclude : option (list InstrumentableEffect);
  nameFormat : option SpanNameFormat;
  strategy : option InstrumentationStrategy
}.

(** The file filters [include] and [exclude] of the plugin options are read
    by the host adapter only, not by [transform]. *)
Record SourceTraceOptions := {
  opt_extractFunctionName : option bool;
  opt_sourceTrace : option bool;
  opt_spans : option SpanInstrumentationOptions
}.

(** [options = {}]. *)
Definition defaultOptions : SourceTraceOptions :=
  {| opt_extractFunctionName := None; opt_sourceTrace := None; opt_spans := None |}.

(* ------------------------------------------------------------------ *)
(** ** sourceTrace.ts *)

Record StackFrameInfo := {
  name : string;
  location : string;
  varName : string
}.

Definition ALL_INSTRUMENTABLE : list InstrumentableEffect :=
  [Combinator.gen; Combinator.fork; Combinator.forkDaemon; Combinator.forkScoped;
   Combinator.all; Combinator.forEach; Combinator.filter; Combinator.reduce;
   Combinator.iterate; Combinator.loop].

Definition resolveInstrumentable (options : SpanInstrumentationOptions) : list string :=
  let include := match include options with Some l => l | None => ALL_INSTRUMENTABLE end in
  let exclude := map Combinator.name
                     (match exclude options with Some l => l | None => [] end) in
  List.filter (fun name => negb (setHas name exclude)) (map Combinator.name include).

Definition isEffectGenCall (node : Node)
  (effectImportName genImportName : option string) : bool :=
  match node with
  | CallExpression _ _ callee _ =>
      match callee with
      | MemberExpression (Identifier object) (Identifier property) =>
          match effectImportName with
          | Some e => (object =? e) && (property =? "gen")
          | None => false
          end
      | Identifier nm =>
          match genImportName with
          | Some g => nm =? g
          | None => false
          end
      | _ => false
      end
  | _ => false
  end.

(** The three shapes [extractFunctionName] tests, in the order it tests
    them. *)
Definition bareCallName (node : Node) : option string :=
  match node with
  | CallExpression _ _ (Identifier nm) _ => Some nm
  | _ => None
  end.

Definition methodCallName (node : Node) : option string :=
  match node with
  | CallExpression _ _ (MemberExpression _ (Identifier pname)) _ => Some pname
  | _ => None
  end.

Definition qualifiedCallName (node : Node) : option string :=
  match node with
  | CallExpression _ _ (MemberExpression (Identifier oname) (Identifier pname)) _ =>
      Some (oname ++ "." ++ pname)
  | _ => None
  end.

Definition extractFunctionName (node : Node) : string :=
  (* foo() *)
  match bareCallName node with
  | Some nm => nm
  | None =>
      (* obj.method() *)
      match methodCallName node with
      | Some nm => nm
      | None =>
          (* Effect.succeed(...) *)
          match qualifiedCallName node with
          | Some nm => nm
          | None => "unknown"
          end
      end
  end.

Definition createStackFrameDeclaration (info : StackFrameInfo) : Node :=
  VariableDeclaration "const"
    [VariableDeclarator (Identifier (varName info))
       (Some (ObjectExpression
          [ObjectProperty (Identifier "name") (StringLiteral (name info));
           ObjectProperty (Identifier "stack")
             (ArrowFunctionExpression [] (StringLiteral (location info)));
           ObjectProperty (Identifier "parent") (Identifier "undefined")]))].

Definition wrapWithUpdateService (argument : Node) (frameVarName : string)
  (effectImportName referencesImportName : string) : Node :=
  CallExpression None []
    (MemberExpression (Identifier effectImportName) (Identifier "updateService"))
    [argument;
     MemberExpression (Identifier referencesImportName) (Identifier "CurrentStackFrame");
     ArrowFunctionExpression [Identifier "parent"]
       (ObjectExpression
          [SpreadElement (Identifier frameVarName);
           ObjectProperty (Identifier "parent") (Identifier "parent")])].

(** [path.parent] is [None] for a statement of the program body. *)
Definition getAssignedVariableName (parent : option Node) : option string :=
  match parent with
  | Some (VariableDeclarator (Identifier nm) _) => Some nm
  | _ => None
  end.

Definition createSpanName (variableName : option string) (fileName : string)
  (line : nat) : string :=
  match variableName with
  | Some v =>
      if truthy v
      then v ++ " (" ++ fileName ++ ":" ++ string_of_nat line ++ ")"
      else fileName ++ ":" ++ string_of_nat line
  | None => fileName ++ ":" ++ string_of_nat line
  end.

Definition wrapWithSpan (expr : Node) (spanName effectImportName : string) : Node :=
  CallExpression None []
    (MemberExpression (Identifier effectImportName) (Identifier "withSpan"))
    [expr; StringLiteral spanName].

(** The leading comments of a node; of the nodes here only calls carry
    them. *)
Definition leadingCommentsOf (node : Node) : list Comment :=
  match node with
  | CallExpression _ comments _ _ => comments
  | _ => []
  end.

(** [t.removeComments(node)]. *)
Definition removeComments (node : Node) : Node :=
  match node with
  | CallExpression loc _ callee arguments => CallExpression loc [] callee arguments
  | _ => node
  end.

(** [t.inheritsComments(child, parent)]: the comments of [child], then those
    of [parent].  Babel drops a comment object that occurs twice; the
    comments of two nodes are different objects.  Trailing and inner
    comments, which the tree here does not carry, move the same way. *)
Definition inheritsComments (child parent : Node) : Node :=
  match child with
  | CallExpression loc comments callee arguments =>
      CallExpression loc (comments ++ leadingCommentsOf parent) callee arguments
  | _ => child
  end.

Definition importedName (m : ModuleExportName) : string :=
  match m with
  | ImportedIdentifier nm => nm
  | ImportedStringLiteral v => v
  end.

Record EffectImport := { effectName : string; genName : option string }.

(** The inner loop of [findOrGetEffectImport] over the specifiers of one
    import of ["effect"]; the pair is [(effectName, genName)]. *)
Definition scanSpecifier (acc : option string * option string)
  (specifier : ImportSpecifierNode) : option string * option string :=
  match specifier with
  | ImportNamespaceSpecifier local => (Some local, snd acc)
  | ImportSpecifier imported local =>
      if importedName imported =? "Effect" then (Some local, snd acc)
      else if importedName imported =? "gen" then (fst acc, Some local)
      else acc
  | ImportDefaultSpecifier _ => acc
  end.

Definition scanImport (acc : option string * option string) (node : Node)
  : option string * option string :=
  match node with
  | ImportDeclaration specifiers source =>
      if source =? "effect" then fold_left scanSpecifier specifiers acc else acc
  | _ => acc
  end.

Definition findOrGetEffectImport (ast : File) : EffectImport :=
  let '(effectName, genName) := fold_left scanImport (program_body ast) (None, None) in
  {| effectName := match effectName with Some e => e | None => "Effect" end;
     genName := genName |}.

Fixpoint findReferences (specifiers : list ImportSpecifierNode) : option string :=
  match specifiers with
  | [] => None
  | ImportSpecifier imported local :: r =>
      if importedName imported =? "References" then Some local else findReferences r
  | _ :: r => findReferences r
  end.

Definition referencesSpecifier : ImportSpecifierNode :=
  ImportSpecifier (ImportedIdentifier "References") "References".

(** The loop of [ensureReferencesImport]: [None] when the body has no import
    of ["effect"]. *)
Fixpoint ensureReferencesIn (body : list Node) : option (list Node * string) :=
  match body with
  | [] => None
  | ImportDeclaration specifiers source :: rest =>
      if source =? "effect" then
        match findReferences specifiers with
        | Some local => Some (body, local)
        | None =>
            Some (ImportDeclaration (specifiers ++ [referencesSpecifier]) source :: rest,
                  "References")
        end
      else
        match ensureReferencesIn rest with
        | Some (rest', nm) => Some (ImportDeclaration specifiers source :: rest', nm)
        | None => None
        end
  | node :: rest =>
      match ensureReferencesIn rest with
      | Some (rest', nm) => Some (node :: rest', nm)
      | None => None
      end
  end.

Definition ensureReferencesImport (ast : File) : File * string :=
  match ensureReferencesIn (program_body ast) with
  | Some (body, nm) => ({| program_body := body |}, nm)
  | None =>
      ({| program_body := ImportDeclaration [referencesSpecifier] "effect"
                            :: program_body ast |},
       "References")
  end.

Definition getFileName (filePath : string) : string :=
  last (splitSlash filePath "") filePath.

Definition locationKey (id : string) (loc : SourceLocation) : string :=
  id ++ ":" ++ string_of_nat (line (start loc)) ++ ":"
     ++ string_of_nat (column (start loc)).

Record CollectState := {
  framesByLocation : list (string * StackFrameInfo);
  frameCounter : nat
}.

Definition isGeneratorFunction (arg : option Node) : bool :=
  match arg with
  | Some (FunctionExpression generator _ _) => generator
  | _ => false
  end.

(** [path.node.arguments[0]] of a call. *)
Definition generatorArg (node : Node) : option Node :=
  match node with
  | CallExpression _ _ _ arguments => hd_error arguments
  | _ => None
  end.

Section Passes.
Variable id : string.
Variable effectName : string.
Variable genName : option string.

(** *** Span instrumentation pass *)
Section SpanPass.
Variable fileName : string.
Variable instrumentable : list string.

(** The [CallExpression] visitor up to its last [return]: the span name when
    the call is to be wrapped. *)
Definition spanVisitor (parent : option Node) (node : Node) : option string :=
  match node with
  | CallExpression loc _ callee _ =>
      match callee with
      | MemberExpression (Identifier object) (Identifier methodName) =>
          if negb (object =? effectName) then None
          else if negb (setHas methodName instrumentable) then None
          else
            match loc with
            | None => None
            | Some loc =>
                let variableName := getAssignedVariableName parent in
                Some (createSpanName variableName fileName (line (start loc)))
            end
      | _ => None
      end
  | _ => None
  end.

(** [path.replaceWith(wrapped)] gives the wrapper the comments of the call
    it replaces and removes them from that call, which is the wrapper's
    first argument.  It then requeues the wrapper: its callee [withSpan] is
    no instrumentable name, and the original call below it is in
    [wrappedNodes], so the traversal goes on into the original call's
    children. *)
Fixpoint spanTraverse (parent : option Node) (node : Node) {struct node} : flagged :=
  let '(node', b) := traverseChildren (spanTraverse (Some node)) node in
  match spanVisitor parent node with
  | Some spanName =>
      (inheritsComments (wrapWithSpan (removeComments node') spanName effectName) node,
       true)
  | None => (node', b)
  end.
End SpanPass.

(** *** Source trace pass, first traversal *)
Section Collect.
Variable extractFnName : bool.

Definition yieldVisitor (node : Node) (st : CollectState) : CollectState :=
  match node with
  | YieldExpression loc delegate argument =>
      if negb delegate then st
      else
        match argument with
        | None => st
        | Some argument =>
            match loc with
            | None => st
            | Some loc =>
                let location := locationKey id loc in
                if negb (mapHas location (framesByLocation st)) then
                  let name := if extractFnName then extractFunctionName argument
                              else "effect" in
                  let varName := "_sf" ++ string_of_nat (frameCounter st) in
                  let info := {| name := name; location := location;
                                 varName := varName |} in
                  {| framesByLocation := mapSet location info (framesByLocation st);
                     frameCounter := S (frameCounter st) |}
                else st
            end
        end
  | _ => st
  end.

(** The visitors of [path.traverse] inside a generator call. *)
Fixpoint collectInner (node : Node) (st : CollectState) {struct node} : CollectState :=
  match node with
  | CallExpression _ _ _ _ =>
      if isEffectGenCall node (Some effectName) genName then st (* nestedPath.skip() *)
      else foldChildren collectInner node st
  | YieldExpression _ _ _ => foldChildren collectInner node (yieldVisitor node st)
  | _ => foldChildren collectInner node st
  end.

(** The guards of the outer [CallExpression] visitor. *)
Definition isGeneratorCall (node : Node) : bool :=
  isEffectGenCall node (Some effectName) genName
  && isGeneratorFunction (generatorArg node).

Fixpoint collectOuter (node : Node) (st : CollectState) {struct node} : CollectState :=
  let st1 := if isGeneratorCall node then foldChildren collectInner node st else st in
  foldChildren collectOuter node st1.
End Collect.

(** *** Source trace pass, second traversal *)
Section Rewrite.
Variable frames : list (string * StackFrameInfo).
Variable referencesName : string.

(** The [YieldExpression] visitor up to its last [return]. *)
Definition yieldFrame (node : Node) : option StackFrameInfo :=
  match node with
  | YieldExpression loc delegate argument =>
      if negb delegate then None
      else
        match argument with
        | None => None
        | Some _ =>
            match loc with
            | None => None
            | Some loc => mapGet (locationKey id loc) frames
            end
        end
  | _ => None
  end.

(** After [yieldPath.node.argument = wrapped] the traversal descends into
    the wrapper; of its parts only the original argument holds calls or
    yields. *)
Fixpoint rewriteInner (node : Node) {struct node} : flagged :=
  match node with
  | CallExpression _ _ _ _ =>
      if isEffectGenCall node (Some effectName) genName then (node, false)
      else traverseChildren rewriteInner node
  | YieldExpression loc delegate argument =>
      match yieldFrame node, argument with
      | Some frame, Some arg =>
          let '(arg', _) := rewriteInner arg in
          (YieldExpression loc delegate
             (Some (wrapWithUpdateService arg' (varName frame) effectName referencesName)),
           true)
      | _, _ => traverseChildren rewriteInner node
      end
  | _ => traverseChildren rewriteInner node
  end.

(** The outer traversal visits a call, runs the inner traversal on it, and
    then descends into the tree as the inner traversal left it.  [fuel]
    bounds the depth of that descent. *)
Fixpoint rewriteOuter (fuel : nat) (node : Node) {struct fuel} : flagged :=
  match fuel with
  | 0 => (node, false)
  | S fuel' =>
      let '(node1, b1) :=
        if isGeneratorCall node then traverseChildren rewriteInner node
        else (node, false) in
      let '(node2, b2) := traverseChildren (rewriteOuter fuel') node1 in
      (node2, b1 || b2)
  end.
End Rewrite.
End Passes.

(** Depth bound handed to the second traversal: the rewriting puts one
    wrapper above a yield's argument, so the rewritten tree is at most
    twice as deep as the tree plus the depth of a wrapper's own parts. *)
Definition traverseFuel (body : list Node) : nat :=
  2 * list_max (map height body) + 4.

(** The loop that finds where the hoisted declarations go. *)
Fixpoint insertIndexFrom (body : list Node) (i : nat) : nat :=
  match body with
  | [] => i
  | ImportDeclaration _ _ :: rest => insertIndexFrom rest (S i)
  | _ :: _ => i
  end.

(** [body.splice(insertIndex, 0, ...items)]. *)
Definition splice (body : list Node) (insertIndex : nat) (items : list Node) : list Node :=
  firstn insertIndex body ++ items ++ skipn insertIndex body.

Definition emptyCollectState : CollectState :=
  {| framesByLocation := []; frameCounter := 0 |}.

Definition spanPass (ast : File) (effectName fileName : string)
  (spanOptions : SpanInstrumentationOptions) : File * bool :=
  let instrumentable := resolveInstrumentable spanOptions in
  let '(body, hasTransformed) :=
    mapFlag (spanTraverse effectName fileName instrumentable None) (program_body ast) in
  ({| program_body := body |}, hasTransformed).

Definition collectFrames (ast : File) (id effectName : string) (genName : option string)
  (extractFnName : bool) : CollectState :=
  foldList (collectOuter id effectName genName extractFnName)
           (program_body ast) emptyCollectState.

Definition sourceTracePass (ast : File) (id effectName : string) (genName : option string)
  (extractFnName : bool) : File * bool :=
  let framesByLocation :=
    framesByLocation (collectFrames ast id effectName genName extractFnName) in
  if Nat.ltb 0 (List.length framesByLocation) then
    let '(ast1, referencesName) := ensureReferencesImport ast in
    let '(body, hasTransformed) :=
      mapFlag (rewriteOuter id effectName genName framesByLocation referencesName
                 (traverseFuel (program_body ast1)))
              (program_body ast1) in
    let frameDeclarations :=
      map createStackFrameDeclaration (mapValues framesByLocation) in
    let insertIndex := insertIndexFrom body 0 in
    ({| program_body := splice body insertIndex frameDeclarations |}, hasTransformed)
  else (ast, false).

Definition enableSourceTrace (options : SourceTraceOptions) : bool :=
  match opt_sourceTrace options with Some false => false | _ => true end.

Definition extractFnName (options : SourceTraceOptions) : bool :=
  match opt_extractFunctionName options with Some false => false | _ => true end.

Definition enableSpans (options : SourceTraceOptions) : bool :=
  match opt_spans options with
  | Some spanOptions =>
      match enabled spanOptions with Some true => true | _ => false end
  | None => false
  end.

(** The two passes of [transform] on a parsed file whose import scan gave
    [effectName] and [genName]: the tree as the passes leave it, and
    [hasTransformed]. *)
Definition runPasses (ast : File) (id : string) (options : SourceTraceOptions)
  (effectName : string) (genName : option string) : File * bool :=
  let fileName := getFileName id in
  let '(ast1, b1) :=
    match opt_spans options with
    | Some spanOptions =>
        if enableSpans options && truthy effectName
        then spanPass ast effectName fileName spanOptions
        else (ast, false)
    | None => (ast, false)
    end in
  let '(ast2, b2) :=
    if enableSourceTrace options
    then sourceTracePass ast1 id effectName genName (extractFnName options)
    else (ast1, false) in
  (ast2, b1 || b2).

Record GeneratorOptions := {
  sourceMaps : bool;
  sourceFileName : string;
  comments : option bool
}.

Module GeneratorResult.
Record t (SourceMap : Type) := { code : string; map : SourceMap }.
End GeneratorResult.

Module TransformResult.
Record t (SourceMap : Type) := {
  code : string;
  map : option SourceMap;
  transformed : bool
}.
End TransformResult.

(** [AnnotateResult] has the fields of [TransformResult]. *)
Definition AnnotateResult := TransformResult.t.

Definition unchanged (SourceMap : Type) (code : string) : TransformResult.t SourceMap :=
  {| TransformResult.code := code;
     TransformResult.map := None;
     TransformResult.transformed := false |}.

Section Transform.
Variable SourceMap : Type.
(** [parse(code, { sourceFilename: id, ... })]; [None] when it throws. *)
Variable parse : string -> string -> option File.
Variable generate : File -> GeneratorOptions -> string -> GeneratorResult.t SourceMap.

Definition transform (code id : string) (options : SourceTraceOptions)
  : TransformResult.t SourceMap :=
  match parse code id with
  | None => unchanged SourceMap code
  | Some ast =>
      let imports := findOrGetEffectImport ast in
      (* No Effect import found *)
      if negb (truthy (effectName imports)) && negb (truthyOpt (genName imports))
      then unchanged SourceMap code
      else
        let '(ast', hasTransformed) :=
          runPasses ast id options (effectName imports) (genName imports) in
        if negb hasTransformed then unchanged SourceMap code
        else
          let result :=
            generate ast' {| sourceMaps := true; sourceFileName := id;
                             comments := None |} code in
          {| TransformResult.code := GeneratorResult.code result;
             TransformResult.map := Some (GeneratorResult.map result);
             TransformResult.transformed := true |}
  end.
End Transform.

(* ------------------------------------------------------------------ *)
(** ** annotateEffects.ts *)

Definition EFFECT_MODULES : list string :=
  ["Effect"; "Option"; "Either"; "Data"; "Schema"; "Array"; "Chunk"; "HashMap";
   "HashSet"; "List"; "Queue"; "Stream"; "Layer"; "Scope"; "Ref";
   "SynchronizedRef"; "SubscriptionRef"; "Duration"; "Schedule"; "Cause";
   "Exit"; "Match"; "Boolean"; "Number"; "String"; "Struct"; "Tuple";
   "Function"; "Predicate"; "Order"; "Equivalence"; "Context"; "Brand"; "Types"].

Definition isPureComment (comment : Comment) : bool :=
  match comment with
  | CommentBlock value => includes "@__PURE__" value || includes "#__PURE__" value
  | CommentLine _ => false
  end.

Definition hasPureAnnotation (node : Node) : bool :=
  match node with
  | CallExpression _ comments _ _ => existsb isPureComment comments
  | _ => false
  end.

Definition isEffectModuleCall (node : Node) : bool :=
  match node with
  | CallExpression _ _ (MemberExpression (Identifier object) _) _ =>
      setHas object EFFECT_MODULES
  | _ => false
  end.

(** The walk up [path.parentPath]; [ancestors] lists the nodes above the
    call, nearest first, up to the program, which ends the walk like a
    block does. *)
Fixpoint isInAnnotatableContext (ancestors : list Node) : bool :=
  match ancestors with
  | [] => false
  | node :: up =>
      match node with
      | VariableDeclarator _ _ => true
      | ExportDefaultDeclaration _ | ExportNamedDeclaration _ => true
      | ReturnStatement _ => true
      | ArrowFunctionExpression _ _ => true
      | BlockStatement _ => false
      | _ => isInAnnotatableContext up
      end
  end.

(** [t.addComment(node, "leading", "#__PURE__", false)]. *)
Definition addPureComment (node : Node) : Node :=
  match node with
  | CallExpression loc comments callee arguments =>
      CallExpression loc (CommentBlock "#__PURE__" :: comments) callee arguments
  | _ => node
  end.

(** The guards of the [CallExpression] visitor. *)
Definition annotateVisitor (ancestors : list Node) (node : Node) : bool :=
  match node with
  | CallExpression _ _ _ _ =>
      if hasPureAnnotation node then false
      else if negb (isEffectModuleCall node) then false
      else isInAnnotatableContext ancestors
  | _ => false
  end.

Fixpoint annotateTraverse (ancestors : list Node) (node : Node) {struct node} : flagged :=
  let '(node', b) := traverseChildren (annotateTraverse (node :: ancestors)) node in
  if annotateVisitor ancestors node then (addPureComment node', true)
  else (node', b).

Definition annotatePass (ast : File) : File * bool :=
  let '(body, hasTransformed) := mapFlag (annotateTraverse []) (program_body ast) in
  ({| program_body := body |}, hasTransformed).

Section Annotate.
Variable SourceMap : Type.
Variable parse : string -> string -> option File.
Variable generate : File -> GeneratorOptions -> string -> GeneratorResult.t SourceMap.

Definition annotateEffects (code id : string) : AnnotateResult SourceMap :=
  match parse code id with
  | None => unchanged SourceMap code
  | Some ast =>
      let '(ast', hasTransformed) := annotatePass ast in
      if negb hasTransformed then unchanged SourceMap code
      else
        let result :=
          generate ast' {| sourceMaps := true; sourceFileName := id;
                           comments := Some true |} code in
        {| TransformResult.code := GeneratorResult.code result;
           TransformResult.map := Some (GeneratorResult.map result);
           TransformResult.transformed := true |}
  end.
End Annotate.

(* ------------------------------------------------------------------ *)
(** ** What the traversals visit

    The definitions of this part are not in the source: they name what the
    passes of the source trace do, so that properties of the passes can be
    stated. *)

(** Children's contributions, in visiting order. *)
Definition flatChildren (A : Type) (f : Node -> list A) (n : Node) : list A :=
  foldChildren (fun c acc => (acc ++ f c)%list) n [].

(** A delegation site: a [yield*] with an argument and a location; its
    location key and its argument. *)
Definition delegation (id : string) (node : Node) : option (string * Node) :=
  match node with
  | YieldExpression (Some loc) true (Some argument) => Some (locationKey id loc, argument)
  | _ => None
  end.

Definition delegations (id : string) (sites : list Node) : list (string * Node) :=
  flat_map (fun y => match delegation id y with Some d => [d] | None => [] end) sites.

Section Sites.
Variable id : string.
Variable effectName : string.
Variable genName : option string.

(** The yield expressions the visitors of one [path.traverse] are called
    on, in order. *)
Fixpoint innerSites (node : Node) {struct node} : list Node :=
  match node with
  | CallExpression _ _ _ _ =>
      if isEffectGenCall node (Some effectName) genName then []
      else flatChildren innerSites node
  | YieldExpression _ _ _ => node :: flatChildren innerSites node
  | _ => flatChildren innerSites node
  end.

(** The yield expressions a whole traversal reaches, in order: those of the
    generator call visited first, then those of the calls below it. *)
Fixpoint outerSites (node : Node) {struct node} : list Node :=
  (if isGeneratorCall effectName genName node then flatChildren innerSites node else [])
  ++ flatChildren outerSites node.

Definition programSites (ast : File) : list Node :=
  flat_map outerSites (program_body ast).

(** The location keys of the delegation sites of a file, in visiting
    order. *)
Definition siteKeys (ast : File) : list string :=
  map fst (delegations id (programSites ast)).

(** The frame recorded at the [i]-th new location. *)
Definition frameOf (extractFnName : bool) (i : nat) (d : string * Node)
  : string * StackFrameInfo :=
  (fst d,
   {| name := if extractFnName then extractFunctionName (snd d) else "effect";
      location := fst d;
      varName := "_sf" ++ string_of_nat i |}).

Fixpoint numberFrames (extractFnName : bool) (i : nat) (ds : list (string * Node))
  : list (string * StackFrameInfo) :=
  match ds with
  | [] => []
  | d :: r => frameOf extractFnName i d :: numberFrames extractFnName (S i) r
  end.

(** The delegations whose key was not seen before, in order. *)
Fixpoint firstVisits (seen : list string) (ds : list (string * Node))
  : list (string * Node) :=
  match ds with
  | [] => []
  | d :: r =>
      if setHas (fst d) seen then firstVisits seen r
      else d :: firstVisits (seen ++ [fst d]) r
  end.

Section Rewritten.
Variable frames : list (string * StackFrameInfo).
Variable referencesName : string.

(** The tree the second traversal leaves below a node, by one descent:
    [active] tells whether the node lies in the body of a generator call
    whose inner traversal reaches it. *)
Fixpoint rewriteFrom (active : bool) (node : Node) {struct node} : Node :=
  match node with
  | CallExpression _ _ _ _ =>
      if isEffectGenCall node (Some effectName) genName
      then mapChildren (rewriteFrom (isGeneratorCall effectName genName node)) node
      else mapChildren (rewriteFrom active) node
  | YieldExpression loc delegate argument =>
      match (if active then yieldFrame id frames node else None), argument with
      | Some frame, Some arg =>
          YieldExpression loc delegate
            (Some (wrapWithUpdateService (rewriteFrom active arg) (varName frame)
                     effectName referencesName))
      | _, _ => mapChildren (rewriteFrom active) node
      end
  | _ => mapChildren (rewriteFrom active) node
  end.

(** Whether some site of the list has a recorded frame. *)
Definition anyFrame (sites : list Node) : bool :=
  existsb (fun y => match yieldFrame id frames y with Some _ => true | None => false end)
          sites.

(** The sites of the list that are rewritten, each counted with the weight
    [w] of its frame. *)
Definition siteSum (w : StackFrameInfo -> nat) (sites : list Node) : nat :=
  list_sum
    (map (fun y => match yieldFrame id frames y with
                   | Some frame => w frame
                   | None => 0
                   end) sites).

(** How many sites of the list are rewritten with the frame variable [v]. *)
Definition frameUses (v : string) (sites : list Node) : nat :=
  siteSum (fun frame => if varName frame =? v then 1 else 0) sites.

(** How many sites of the list are rewritten at all. *)
Definition rewrittenSites (sites : list Node) : nat :=
  siteSum (fun _ => 1) sites.
End Rewritten.
End Sites.

(** A node with its children blanked: its type and its own fields. *)
Definition head (node : Node) : Node :=
  mapChildren (fun _ => Identifier "") node.

Definition identName (node : Node) : option string :=
  match node with
  | Identifier nm => Some nm
  | _ => None
  end.

(** [o] and [p] of a callee [o.p] made of two identifiers. *)
Definition qualifiedName (node : Node) : option (string * string) :=
  match node with
  | MemberExpression o p =>
      match identName o, identName p with
      | Some o, Some p => Some (o, p)
      | _, _ => None
      end
  | _ => None
  end.

(** A reference to the hoisted frame [v]: the spread [...v] that
    [wrapWithUpdateService] builds. *)
Definition isFrameSpread (v : string) (node : Node) : bool :=
  match node with
  | SpreadElement (Identifier x) => x =? v
  | _ => false
  end.

Definition isYieldExpression (node : Node) : bool :=
  match node with
  | YieldExpression _ _ _ => true
  | _ => false
  end.

(** A call [<effectName>.updateService(...)]. *)
Definition isUpdateServiceCall (effectName : string) (node : Node) : bool :=
  match node with
  | CallExpression _ _ (MemberExpression (Identifier o) (Identifier p)) _ =>
      (o =? effectName) && (p =? "updateService")
  | _ => false
  end.

(** A call [<effectName>.withSpan(...)]. *)
Definition isWithSpanCall (effectName : string) (node : Node) : bool :=
  match node with
  | CallExpression _ _ (MemberExpression (Identifier o) (Identifier p)) _ =>
      (o =? effectName) && (p =? "withSpan")
  | _ => false
  end.

(* ------------------------------------------------------------------ *)
(** ** Sample programs, as the parser builds them *)

Module Samples.

Definition at_ (l c : nat) : option SourceLocation :=
  Some {| start := {| line := l; column := c |} |}.

Definition effectDot (member : string) : Node :=
  MemberExpression (Identifier "Effect") (Identifier member).

Definition importEffect : Node :=
  ImportDeclaration [ImportSpecifier (ImportedIdentifier "Effect") "Effect"] "effect".

Definition const (x : string) (init : Node) : Node :=
  VariableDeclaration "const" [VariableDeclarator (Identifier x) (Some init)].

Definition generatorFn (body : list Node) : Node :=
  FunctionExpression true [] (BlockStatement body).

(** A numeric literal; the passes never read its value. *)
Definition num (n : nat) : Node := OtherNode "NumericLiteral" [].

(**
<<
const program = Effect.gen(function* () {
  yield* foo()
})
>>
    with no import at all. *)
Definition noImportText : string :=
  "const program = Effect.gen(function* () {
  yield* foo()
})".

Definition noImport : File :=
  {| program_body :=
       [const "program"
          (CallExpression (at_ 1 16) [] (effectDot "gen")
             [generatorFn
                [ExpressionStatement
                   (YieldExpression (at_ 2 2) true
                      (Some (CallExpression (at_ 2 9) [] (Identifier "foo") [])))]])] |}.

(**
<<

import { Effect } from "effect"

const outer = Effect.gen(function* () {
  const inner = Effect.gen(function* () {
    yield* Effect.succeed("inner")
  })
  yield* inner
})
>>
*)
Definition nestedGen : File :=
  {| program_body :=
       [importEffect;
        const "outer"
          (CallExpression (at_ 4 14) [] (effectDot "gen")
             [generatorFn
                [const "inner"
                   (CallExpression (at_ 5 16) [] (effectDot "gen")
                      [generatorFn
                         [ExpressionStatement
                            (YieldExpression (at_ 6 4) true
                               (Some (CallExpression (at_ 6 11) [] (effectDot "succeed")
                                        [StringLiteral "inner"])))]]);
                 ExpressionStatement
                   (YieldExpression (at_ 8 2) true (Some (Identifier "inner")))]])] |}.

(**
<<

import { Effect } from "effect"

const program = Effect.gen(function* () {
  const nested = Effect.all([
    Effect.forEach([1, 2], (n) => Effect.succeed(n))
  ])
})
>>
*)
Definition forEachCall : Node :=
  CallExpression (at_ 6 4) [] (effectDot "forEach")
    [OtherNode "ArrayExpression" [num 1; num 2];
     ArrowFunctionExpression [Identifier "n"]
       (CallExpression (at_ 6 34) [] (effectDot "succeed") [Identifier "n"])].

Definition depthProgram : File :=
  {| program_body :=
       [importEffect;
        const "program"
          (CallExpression (at_ 4 16) [] (effectDot "gen")
             [generatorFn
                [const "nested"
                   (CallExpression (at_ 5 17) [] (effectDot "all")
                      [OtherNode "ArrayExpression" [forEachCall]])]])] |}.

(**
<<

import { Effect } from "effect"

const all = /* both */ Effect.all([])
>>
*)
Definition commentedCall : File :=
  {| program_body :=
       [importEffect;
        const "all"
          (CallExpression (at_ 4 23) [CommentBlock " both "] (effectDot "all")
             [OtherNode "ArrayExpression" []])] |}.

Definition depthOptions : SourceTraceOptions :=
  {| opt_extractFunctionName := None;
     opt_sourceTrace := Some false;
     opt_spans :=
       Some {| enabled := Some true; include := None; exclude := None;
               nameFormat := None;
               strategy := Some (DepthInstrumentationStrategy (Some 1) None) |} |}.

(**
<<

import { Effect } from "effect"

const getUser = Effect.gen(function* () {
  yield* Effect.succeed(42)
})
>>
*)
Definition getUser : File :=
  {| program_body :=
       [importEffect;
        const "getUser"
          (CallExpression (at_ 4 16) [] (effectDot "gen")
             [generatorFn
                [ExpressionStatement
                   (YieldExpression (at_ 5 2) true
                      (Some (CallExpression (at_ 5 9) [] (effectDot "succeed")
                               [num 42])))]])] |}.

Definition spansOnly : SourceTraceOptions :=
  {| opt_extractFunctionName := None;
     opt_sourceTrace := Some false;
     opt_spans :=
       Some {| enabled := Some true; include := None; exclude := None;
               nameFormat := None; strategy := None |} |}.

(** Stand-ins for the external parser and generator on one input. *)
Definition parseAs (ast : File) : string -> string -> option File :=
  fun _ _ => Some ast.

Definition parseFails : string -> string -> option File :=
  fun _ _ => None.

Definition generated : File -> GeneratorOptions -> string -> GeneratorResult.t unit :=
  fun _ _ _ => {| GeneratorResult.code := "<generated>"; GeneratorResult.map := tt |}.

(** [{ sourceTrace: false }]. *)
Definition traceOff : SourceTraceOptions :=
  {| opt_extractFunctionName := None; opt_sourceTrace := Some false; opt_spans := None |}.

(** [spans.nameFormat] set to each of its three values. *)
Definition spansWithFormat (format : SpanNameFormat) : SourceTraceOptions :=
  {| opt_extractFunctionName := None;
     opt_sourceTrace := Some false;
     opt_spans :=
       Some {| enabled := Some true; include := None; exclude := None;
               nameFormat := Some format; strategy := None |} |}.

(** The call [Effect.gen(...)] of [getUser], and the function it is given. *)
Definition getUserFn : Node :=
  generatorFn
    [ExpressionStatement
       (YieldExpression (at_ 5 2) true
          (Some (CallExpression (at_ 5 9) [] (effectDot "succeed") [num 42])))].

Definition getUserCall : Node :=
  CallExpression (at_ 4 16) [] (effectDot "gen") [getUserFn].

End Samples.

(** Sample for the pure-call annotator: no import, [Option] is a local
    object.
<<
const Option = { some: (x) => x }
const value = Option.some(42)
E.succeed(1)
>>
*)
Module AnnotateSamples.

Definition localOption : File :=
  {| program_body :=
       [Samples.const "Option"
          (ObjectExpression
             [ObjectProperty (Identifier "some")
                (ArrowFunctionExpression [Identifier "x"] (Identifier "x"))]);
        Samples.const "value"
          (CallExpression (Samples.at_ 2 14) []
             (MemberExpression (Identifier "Option") (Identifier "some"))
             [Samples.num 42]);
        Samples.const "other"
          (CallExpression (Samples.at_ 3 14) []
             (MemberExpression (Identifier "E") (Identifier "succeed"))
             [Samples.num 1])] |}.

Definition localOptionAnnotated : File :=
  {| program_body :=
       [Samples.const "Option"
          (ObjectExpression
             [ObjectProperty (Identifier "some")
                (ArrowFunctionExpression [Identifier "x"] (Identifier "x"))]);
        Samples.const "value"
          (CallExpression (Samples.at_ 2 14) [CommentBlock "#__PURE__"]
             (MemberExpression (Identifier "Option") (Identifier "some"))
             [Samples.num 42]);
        Samples.const "other"
          (CallExpression (Samples.at_ 3 14) []
             (MemberExpression (Identifier "E") (Identifier "succeed"))
             [Samples.num 1])] |}.

End AnnotateSamples.

(* ------------------------------------------------------------------ *)
(** ** index.ts *)

(** A [RegExp] is used through [test] only; without the flags [g] and [y],
    [test] keeps no state between calls and is a function of the text. *)
Inductive Pattern :=
| PatternString (s : string)
| PatternRegExp (test : string -> bool).

(** [FilterPattern = string | RegExp | ReadonlyArray<string | RegExp>]. *)
Inductive FilterPattern :=
| OnePattern (p : Pattern)
| PatternArray (l : list Pattern).

(** [s.endsWith(suffix)]. *)
Definition endsWith (suffix s : string) : bool :=
  Nat.leb (String.length suffix) (String.length s)
  && (substring (String.length s - String.length suffix) (String.length suffix) s
      =? suffix).

(** [/\.[jt]sx?$/]. *)
Definition scriptExtension (id : string) : bool :=
  endsWith ".js" id || endsWith ".ts" id || endsWith ".jsx" id || endsWith ".tsx" id.

Definition defaultInclude : list Pattern := [PatternRegExp scriptExtension].

(** [/node_modules/]. *)
Definition defaultExclude : list Pattern := [PatternRegExp (includes "node_modules")].

Definition toArray (value : option FilterPattern) : list Pattern :=
  match value with
  | None => []
  | Some (PatternArray l) => l
  | Some (OnePattern p) => [p]
  end.

(** [typeof pattern === "string" ? id.includes(pattern) : pattern.test(id)]. *)
Definition patternMatches (id : string) (pattern : Pattern) : bool :=
  match pattern with
  | PatternString s => includes s id
  | PatternRegExp test => test id
  end.

(** One of the two loops of the filter: [Some result] when a pattern of the
    list matches and the loop returns [result]. *)
Fixpoint firstMatch (id : string) (patterns : list Pattern) (result : bool)
  : option bool :=
  match patterns with
  | [] => None
  | pattern :: rest =>
      if patternMatches id pattern then Some result else firstMatch id rest result
  end.

Definition createFilter (include exclude : option FilterPattern) (id : string) : bool :=
  let includePatterns :=
    toArray (match include with Some i => Some i | None => Some (PatternArray defaultInclude) end) in
  let excludePatterns :=
    toArray (match exclude with Some x => Some x | None => Some (PatternArray defaultExclude) end) in
  match firstMatch id excludePatterns false with
  | Some result => result
  | None =>
      match firstMatch id includePatterns true with
      | Some result => result
      | None => false
      end
  end.

(* ------------------------------------------------------------------ *)
(** ** Stating further properties

    Like the sites above, the definitions of this part are not in the
    source. *)

Definition isImportDeclaration (node : Node) : bool :=
  match node with
  | ImportDeclaration _ _ => true
  | _ => false
  end.

Fixpoint containsChar (c : ascii) (s : string) : bool :=
  match s with
  | EmptyString => false
  | String c' r => Ascii.eqb c' c || containsChar c r
  end.

(** The last element of a list, or [acc] for the empty list. *)
Definition lastOr (A : Type) (acc : option A) (l : list A) : option A :=
  match rev l with
  | x :: _ => Some x
  | [] => acc
  end.

(** The local names one specifier binds to the namespace, and to [gen]. *)
Definition effectAliasOf (specifier : ImportSpecifierNode) : list string :=
  match specifier with
  | ImportNamespaceSpecifier local => [local]
  | ImportSpecifier imported local =>
      if importedName imported =? "Effect" then [local] else []
  | ImportDefaultSpecifier _ => []
  end.

Definition genAliasOf (specifier : ImportSpecifierNode) : list string :=
  match specifier with
  | ImportSpecifier imported local =>
      if importedName imported =? "Effect" then []
      else if importedName imported =? "gen" then [local] else []
  | _ => []
  end.

(** The specifiers of the imports from ["effect"], in order. *)
Definition effectSpecifiers (body : list Node) : list ImportSpecifierNode :=
  flat_map (fun node =>
              match node with
              | ImportDeclaration specifiers source =>
                  if source =? "effect" then specifiers else []
              | _ => []
              end) body.

(** The specifiers of the first import from ["effect"]. *)
Fixpoint firstEffectImport (body : list Node) : option (list ImportSpecifierNode) :=
  match body with
  | [] => None
  | ImportDeclaration specifiers source :: rest =>
      if source =? "effect" then Some specifiers else firstEffectImport rest
  | _ :: rest => firstEffectImport rest
  end.

(** The local name under which the first import from ["effect"] binds
    [References]. *)
Definition referencesBinding (body : list Node) : option string :=
  match firstEffectImport body with
  | Some specifiers => findReferences specifiers
  | None => None
  end.

(** A call the span pass wraps. *)
Definition isSpanTarget (effectName : string) (instrumentable : list string)
  (node : Node) : bool :=
  match spanVisitor effectName "" instrumentable None node with
  | Some _ => true
  | None => false
  end.

Definition isStringLiteral (node : Node) : bool :=
  match node with
  | StringLiteral _ => true
  | _ => false
  end.

(** A call of the shape the span pass leaves: no location, the callee
    [<effectName>.withSpan] and two arguments, the second a string. *)
Definition isSpanWrapper (effectName : string) (node : Node) : bool :=
  match node with
  | CallExpression None _ _ [_; spanName] =>
      isWithSpanCall effectName node && isStringLiteral spanName
  | _ => false
  end.

(** A node with the leading comments [comments]. *)
Definition withLeadingComments (comments : list Comment) (node : Node) : Node :=
  match node with
  | CallExpression loc _ callee arguments => CallExpression loc comments callee arguments
  | _ => node
  end.

(** A tree with every such call replaced by its first argument, which gets
    the leading comments of the call it replaces. *)
Fixpoint stripSpans (effectName : string) (node : Node) {struct node} : Node :=
  if isSpanWrapper effectName node then
    match node with
    | CallExpression _ comments _ (expr :: _) =>
        withLeadingComments comments (stripSpans effectName expr)
    | _ => node
    end
  else mapChildren (stripSpans effectName) node.

Definition isObjectExpression (node : Node) : bool :=
  match node with
  | ObjectExpression _ => true
  | _ => false
  end.

(** A declarator [v = { ... }]. *)
Definition isFrameDeclarator (v : string) (node : Node) : bool :=
  match node with
  | VariableDeclarator id (Some init) =>
      match identName id with
      | Some nm => (nm =? v) && isObjectExpression init
      | None => false
      end
  | _ => false
  end.

(** A statement [const v = { ... }], as [createStackFrameDeclaration] builds
    for the frame variable [v]. *)
Definition declaresFrame (v : string) (node : Node) : bool :=
  match node with
  | VariableDeclaration kind [declarator] =>
      (kind =? "const") && isFrameDeclarator v declarator
  | _ => false
  end.

(** A call of the shape [wrapWithUpdateService] builds: no location, no
    comment, the callee [<effectName>.updateService] and three arguments. *)
Definition isFrameWrapper (effectName : string) (node : Node) : bool :=
  match node with
  | CallExpression None [] _ [_; _; _] => isUpdateServiceCall effectName node
  | _ => false
  end.

(** A tree with every such call replaced by its first argument. *)
Fixpoint stripFrames (effectName : string) (node : Node) {struct node} : Node :=
  if isFrameWrapper effectName node then
    match node with
    | CallExpression _ _ _ (argument :: _) => stripFrames effectName argument
    | _ => node
    end
  else mapChildren (stripFrames effectName) node.

(** What decides the walk of [isInAnnotatableContext] at one ancestor:
    [Some true] for a discardable position, [Some false] for a block. *)
Definition contextStop (node : Node) : option bool :=
  match node with
  | VariableDeclarator _ _ => Some true
  | ExportDefaultDeclaration _ | ExportNamedDeclaration _ => Some true
  | ReturnStatement _ => Some true
  | ArrowFunctionExpression _ _ => Some true
  | BlockStatement _ => Some false
  | _ => None
  end.

(** The comment [addPureComment] adds. *)
Definition isAddedComment (comment : Comment) : bool :=
  match comment with
  | CommentBlock value => value =? "#__PURE__"
  | CommentLine _ => false
  end.

(** A tree without the leading comments [/*#__PURE__*/] of its calls. *)
Fixpoint stripPureComments (node : Node) {struct node} : Node :=
  match node with
  | CallExpression loc comments callee arguments =>
      CallExpression loc (filter (fun c => negb (isAddedComment c)) comments)
                     (stripPureComments callee) (map stripPureComments arguments)
  | _ => mapChildren stripPureComments node
  end.

(* ================================================================== *)
(** * Properties *)

(** ** Equations of the traversal combinators *)

Lemma mapFlag_fst (f : Node -> flagged) l :
  fst (mapFlag f l) = map (fun x => fst (f x)) l.
Proof.
  induction l as [|x r IH]; simpl; auto.
  destruct (f x) as [x' b1]; destruct (mapFlag f r) as [r' b2]; simpl in *.
  now rewrite IH.
Qed.

Lemma mapFlag_snd (f : Node -> flagged) l :
  snd (mapFlag f l) = existsb (fun x => snd (f x)) l.
Proof.
  induction l as [|x r IH]; simpl; auto.
  destruct (f x) as [x' b1]; destruct (mapFlag f r) as [r' b2]; simpl in *.
  now rewrite IH.
Qed.

Lemma optFlag_fst (f : Node -> flagged) o :
  fst (optFlag f o) = option_map (fun x => fst (f x)) o.
Proof. destruct o as [x|]; simpl; auto. now destruct (f x). Qed.

Lemma optFlag_snd (f : Node -> flagged) o :
  snd (optFlag f o) = existsb (fun x => snd (f x)) (optList o).
Proof.
  destruct o as [x|]; simpl; auto. destruct (f x); simpl. now rewrite orb_false_r.
Qed.

Lemma traverseChildren_fst (f : Node -> flagged) n :
  fst (traverseChildren f n) = mapChildren (fun x => fst (f x)) n.
Proof.
  destruct n; simpl; auto;
    repeat match goal with
      | |- context [mapFlag f ?l] =>
          let H := fresh "E" in
          pose proof (mapFlag_fst f l) as H; destruct (mapFlag f l); simpl in H; subst
      | |- context [optFlag f ?o] =>
          let H := fresh "E" in
          pose proof (optFlag_fst f o) as H; destruct (optFlag f o); simpl in H; subst
      | |- context [f ?x] =>
          let H := fresh "E" in destruct (f x) eqn:H; simpl
      end; simpl; auto.
Qed.

Lemma traverseChildren_snd (f : Node -> flagged) n :
  snd (traverseChildren f n) = existsb (fun x => snd (f x)) (children n).
Proof.
  destruct n; simpl; auto;
    repeat match goal with
      | |- context [mapFlag f ?l] =>
          let H := fresh "E" in
          pose proof (mapFlag_snd f l) as H; destruct (mapFlag f l); simpl in H; subst
      | |- context [optFlag f ?o] =>
          let H := fresh "E" in
          pose proof (optFlag_snd f o) as H; destruct (optFlag f o); simpl in H; subst
      end; simpl; auto;
    try (rewrite existsb_app; simpl);
    repeat match goal with
      | |- context [f ?x] => destruct (f x); simpl
      end; rewrite ?orb_false_r; auto.
Qed.

Lemma children_mapChildren f n : children (mapChildren f n) = map f (children n).
Proof.
  destruct n; simpl; auto;
    try (rewrite map_app; simpl; auto);
    match goal with |- context [option_map f ?o] => destruct o; auto end.
Qed.

Lemma mapChildren_ext f g n :
  Forall (fun c => f c = g c) (children n) -> mapChildren f n = mapChildren g n.
Proof.
  assert (L : forall l, Forall (fun c => f c = g c) l -> map f l = map g l).
  { induction 1; simpl; congruence. }
  assert (O : forall o, Forall (fun c => f c = g c) (optList o) ->
                        option_map f o = option_map g o).
  { intros [x|] H; simpl; auto. inversion H; congruence. }
  destruct n; simpl; intros H; auto;
    try (apply Forall_app in H; destruct H as [H1 H2]);
    repeat match goal with
      | H : Forall _ (_ :: _) |- _ => inversion H; subst; clear H
      end;
    f_equal; auto.
Qed.

Lemma foldList_fold_left S (f : Node -> S -> S) l s :
  foldList f l s = fold_left (fun s c => f c s) l s.
Proof. revert s; induction l; simpl; auto. Qed.

Lemma foldChildren_fold_left S (f : Node -> S -> S) n s :
  foldChildren f n s = fold_left (fun s c => f c s) (children n) s.
Proof.
  destruct n; simpl; auto; rewrite ?foldList_fold_left, ?fold_left_app; simpl; auto;
    match goal with |- context [foldOpt f ?o] => destruct o; auto end.
Qed.

Lemma sumChildren_list_sum f n : sumChildren f n = list_sum (map f (children n)).
Proof.
  unfold sumChildren. rewrite foldChildren_fold_left.
  generalize (children n); intros l.
  assert (G : forall a, fold_left (fun s c => s + f c) l a = a + list_sum (map f l)).
  { induction l as [|x r IH]; intros a; simpl; [lia | rewrite IH; lia]. }
  now rewrite G.
Qed.

Lemma countNodes_eq P n :
  countNodes P n = (if P n then 1 else 0) + countList P (children n).
Proof.
  unfold countList. rewrite <- sumChildren_list_sum. destruct n; reflexivity.
Qed.

(** ** JavaScript [Map] *)

Lemma mapSet_fresh V k (v : V) m : mapHas k m = false -> mapSet k v m = (m ++ [(k, v)])%list.
Proof.
  induction m as [|[k' v'] r IH]; simpl; auto.
  destruct (k' =? k); simpl; [discriminate |].
  intros H. now rewrite IH.
Qed.

(** ** The first traversal as a fold over the sites it visits *)

Lemma flatChildren_flat_map A (f : Node -> list A) n :
  flatChildren f n = flat_map f (children n).
Proof.
  unfold flatChildren. rewrite foldChildren_fold_left.
  assert (G : forall l a, fold_left (fun s c => (s ++ f c)%list) l a
                          = (a ++ flat_map f l)%list).
  { induction l as [|x r IH]; intros a; simpl.
    - now rewrite app_nil_r.
    - now rewrite IH, app_assoc. }
  now rewrite G.
Qed.

Lemma fold_left_flat_map S (F : Node -> S -> S) (G : Node -> list Node)
  (step : S -> Node -> S) l :
  Forall (fun c => forall s, F c s = fold_left step (G c) s) l ->
  forall s, fold_left (fun s c => F c s) l s = fold_left step (flat_map G l) s.
Proof.
  induction 1 as [|c r Hc Hr IH]; intros s; simpl; auto.
  now rewrite fold_left_app, <- Hc, IH.
Qed.

Section CollectFacts.
Variable id : string.
Variable effectName : string.
Variable genName : option string.
Variable extractFnName : bool.

Let visit (st : CollectState) (y : Node) : CollectState :=
  yieldVisitor id extractFnName y st.

Lemma collectInner_eq n st :
  collectInner id effectName genName extractFnName n st =
  match n with
  | CallExpression _ _ _ _ =>
      if isEffectGenCall n (Some effectName) genName then st
      else foldChildren (collectInner id effectName genName extractFnName) n st
  | YieldExpression _ _ _ =>
      foldChildren (collectInner id effectName genName extractFnName) n
        (yieldVisitor id extractFnName n st)
  | _ => foldChildren (collectInner id effectName genName extractFnName) n st
  end.
Proof. destruct n; reflexivity. Qed.

Lemma innerSites_eq n :
  innerSites effectName genName n =
  match n with
  | CallExpression _ _ _ _ =>
      if isEffectGenCall n (Some effectName) genName then []
      else flat_map (innerSites effectName genName) (children n)
  | YieldExpression _ _ _ => n :: flat_map (innerSites effectName genName) (children n)
  | _ => flat_map (innerSites effectName genName) (children n)
  end.
Proof. rewrite <- flatChildren_flat_map. destruct n; reflexivity. Qed.

Lemma outerSites_eq n :
  outerSites effectName genName n =
  ((if isGeneratorCall effectName genName n
    then flat_map (innerSites effectName genName) (children n) else [])
   ++ flat_map (outerSites effectName genName) (children n))%list.
Proof.
  rewrite <- !flatChildren_flat_map. destruct n; reflexivity.
Qed.

Lemma collectOuter_eq n st :
  collectOuter id effectName genName extractFnName n st =
  foldChildren (collectOuter id effectName genName extractFnName) n
    (if isGeneratorCall effectName genName n
     then foldChildren (collectInner id effectName genName extractFnName) n st
     else st).
Proof. destruct n; reflexivity. Qed.

Lemma collectInner_sites n :
  forall st,
    collectInner id effectName genName extractFnName n st
    = fold_left visit (innerSites effectName genName n) st.
Proof.
  induction n as [n IH] using node_children_ind. intros st.
  rewrite collectInner_eq, innerSites_eq.
  pose proof (fold_left_flat_map _ (innerSites effectName genName) visit IH) as HF.
  destruct n; cbv beta iota; rewrite ?foldChildren_fold_left, ?HF; auto.
  destruct (isEffectGenCall _ _ _); auto.
Qed.

Lemma collectOuter_sites n :
  forall st,
    collectOuter id effectName genName extractFnName n st
    = fold_left visit (outerSites effectName genName n) st.
Proof.
  induction n as [n IH] using node_children_ind. intros st.
  rewrite collectOuter_eq, outerSites_eq, fold_left_app.
  rewrite foldChildren_fold_left.
  rewrite (fold_left_flat_map _ (outerSites effectName genName) visit IH).
  f_equal.
  destruct (isGeneratorCall effectName genName n); auto.
  rewrite foldChildren_fold_left.
  apply fold_left_flat_map.
  apply Forall_forall. intros c _ s. apply collectInner_sites.
Qed.

Lemma collectFrames_sites ast :
  collectFrames ast id effectName genName extractFnName
  = fold_left visit (programSites effectName genName ast) emptyCollectState.
Proof.
  unfold collectFrames, programSites. rewrite foldList_fold_left.
  apply fold_left_flat_map.
  apply Forall_forall. intros c _ s. apply collectOuter_sites.
Qed.
End CollectFacts.

(** ** The frames a list of sites records *)

Lemma mapHas_setHas V k (m : list (string * V)) : mapHas k m = setHas k (map fst m).
Proof.
  unfold mapHas, setHas. induction m as [|[k' v] r IH]; simpl; auto.
  now rewrite IH, String.eqb_sym.
Qed.

Lemma setHas_In x s : setHas x s = true <-> In x s.
Proof.
  unfold setHas. rewrite existsb_exists. split.
  - intros [y [Hin E]]. apply String.eqb_eq in E. now subst.
  - intros Hin. exists x. split; auto. apply String.eqb_refl.
Qed.

Lemma setHas_not_In x s : setHas x s = false <-> ~ In x s.
Proof.
  rewrite <- setHas_In. destruct (setHas x s); split; congruence.
Qed.

Lemma NoDup_snoc (A : Type) (l : list A) x : NoDup l -> ~ In x l -> NoDup (l ++ [x]).
Proof.
  induction 1 as [|y r Hy Hr IH]; intros Hx; simpl.
  - constructor; [intros [] | constructor].
  - constructor.
    + intros Hin. apply in_app_or in Hin. destruct Hin as [Hin|[E|[]]]; auto.
      subst. apply Hx. now left.
    + apply IH. intros Hin. apply Hx. now right.
Qed.

Lemma string_of_nat_inj a b : string_of_nat a = string_of_nat b -> a = b.
Proof.
  unfold string_of_nat. intros H.
  apply Unsigned.to_uint_inj.
  assert (E : Some (Nat.to_uint a) = Some (Nat.to_uint b)).
  { rewrite <- !NilEmpty.usu. now rewrite H. }
  now inversion E.
Qed.

Lemma frame_var_inj a b :
  "_sf" ++ string_of_nat a = "_sf" ++ string_of_nat b -> a = b.
Proof. simpl. intros H. apply string_of_nat_inj. now inversion H. Qed.

Section FrameFacts.
Variable id : string.
Variable extractFnName : bool.

Lemma yieldVisitor_delegation y st :
  yieldVisitor id extractFnName y st =
  match delegation id y with
  | None => st
  | Some d =>
      if mapHas (fst d) (framesByLocation st) then st
      else {| framesByLocation :=
                (framesByLocation st ++ [frameOf extractFnName (frameCounter st) d])%list;
              frameCounter := S (frameCounter st) |}
  end.
Proof.
  destruct y as [| | | | | |loc delegate argument| | | | | | | | | | | |]; try reflexivity.
  simpl. destruct delegate; simpl; [|now destruct loc].
  destruct argument as [a|]; [|now destruct loc].
  destruct loc as [l|]; simpl; auto.
  destruct (mapHas (locationKey id l) (framesByLocation st)) eqn:E; simpl; auto.
  unfold frameOf; simpl. now rewrite mapSet_fresh.
Qed.

Lemma collect_fold sites :
  forall st,
    fold_left (fun st y => yieldVisitor id extractFnName y st) sites st =
    let new := firstVisits (map fst (framesByLocation st)) (delegations id sites) in
    {| framesByLocation :=
         (framesByLocation st ++ numberFrames extractFnName (frameCounter st) new)%list;
       frameCounter := frameCounter st + List.length new |}.
Proof.
  induction sites as [|y r IH]; intros st; simpl.
  - destruct st; simpl. now rewrite app_nil_r, Nat.add_0_r.
  - rewrite IH. rewrite yieldVisitor_delegation.
    destruct (delegation id y) as [d|]; simpl; auto.
    rewrite mapHas_setHas.
    destruct (setHas (fst d) (map fst (framesByLocation st))) eqn:E; simpl; auto.
    rewrite map_app; simpl. rewrite <- app_assoc; simpl.
    f_equal. lia.
Qed.

Lemma numberFrames_keys i ds :
  map fst (numberFrames extractFnName i ds) = map fst ds.
Proof. revert i; induction ds as [|d r IH]; intros i; simpl; f_equal; auto. Qed.

Lemma numberFrames_length i ds :
  List.length (numberFrames extractFnName i ds) = List.length ds.
Proof. revert i; induction ds as [|d r IH]; intros i; simpl; f_equal; auto. Qed.

Lemma firstVisits_fresh seen ds :
  NoDup (seen ++ map fst ds) -> firstVisits seen ds = ds.
Proof.
  revert seen; induction ds as [|d r IH]; intros seen H; simpl; auto.
  assert (E : setHas (fst d) seen = false).
  { apply setHas_not_In. intros Hin.
    simpl in H. apply NoDup_remove_2 in H. apply H. apply in_or_app. now left. }
  rewrite E. f_equal. apply IH. simpl in H.
  rewrite <- app_assoc. exact H.
Qed.

Lemma firstVisits_NoDup seen ds :
  NoDup seen -> NoDup (seen ++ map fst (firstVisits seen ds)).
Proof.
  revert seen; induction ds as [|d r IH]; intros seen H; simpl.
  - now rewrite app_nil_r.
  - destruct (setHas (fst d) seen) eqn:E; auto.
    simpl. specialize (IH (seen ++ [fst d])%list).
    rewrite <- app_assoc in IH. simpl in IH. apply IH.
    apply setHas_not_In in E. now apply NoDup_snoc.
Qed.
End FrameFacts.

(** ** Heads of nodes: what a rewriting of the children keeps *)

Lemma mapChildren_mapChildren f g n :
  mapChildren g (mapChildren f n) = mapChildren (fun x => g (f x)) n.
Proof.
  destruct n; simpl; auto; rewrite ?map_map; auto;
    match goal with |- context [option_map _ (option_map _ ?o)] => destruct o; auto end.
Qed.

Lemma head_mapChildren f n : head (mapChildren f n) = head n.
Proof. unfold head. now rewrite mapChildren_mapChildren. Qed.

Lemma identName_head n : identName n = identName (head n).
Proof. destruct n; reflexivity. Qed.

Lemma isEffectGenCall_callee l cs c a e g :
  isEffectGenCall (CallExpression l cs c a) e g =
  match qualifiedName c, identName c with
  | Some (o, p), _ =>
      match e with Some e => (o =? e) && (p =? "gen") | None => false end
  | None, Some nm =>
      match g with Some g => nm =? g | None => false end
  | None, None => false
  end.
Proof.
  destruct c as [nm| |o p| | | | | | | | | | | | | | | |]; try reflexivity.
  destruct o; try reflexivity. destruct p; reflexivity.
Qed.

Lemma isUpdateServiceCall_callee l cs c a e :
  isUpdateServiceCall e (CallExpression l cs c a) =
  match qualifiedName c with
  | Some (o, p) => (o =? e) && (p =? "updateService")
  | None => false
  end.
Proof.
  destruct c as [nm| |o p| | | | | | | | | | | | | | | |]; try reflexivity.
  destruct o; try reflexivity. destruct p; reflexivity.
Qed.

(** A rewriting [f] that keeps heads and distributes over member
    expressions keeps the callee tests of the visitors. *)
Section HeadPreserving.
Variable f : Node -> Node.
Hypothesis f_head : forall x, head (f x) = head x.
Hypothesis f_member : forall o p, f (MemberExpression o p) = MemberExpression (f o) (f p).

Lemma identName_kept x : identName (f x) = identName x.
Proof. now rewrite identName_head, f_head, <- identName_head. Qed.

Lemma qualifiedName_kept x : qualifiedName (f x) = qualifiedName x.
Proof.
  destruct x as [| |o p| | | | | | | | | | | | | | | |];
    try (match goal with
         | |- qualifiedName (f ?y) = _ =>
             pose proof (f_head y) as H; destruct (f y); try discriminate H; reflexivity
         end).
  rewrite f_member. simpl. now rewrite !identName_kept.
Qed.

Lemma isGeneratorFunction_kept x :
  isGeneratorFunction (option_map f x) = isGeneratorFunction x.
Proof.
  destruct x as [x|]; auto. simpl.
  pose proof (f_head x) as H.
  destruct x; destruct (f _); try discriminate H; try reflexivity.
  simpl in H. now inversion H.
Qed.

Lemma isEffectGenCall_kept n e g :
  isEffectGenCall (mapChildren f n) e g = isEffectGenCall n e g.
Proof.
  destruct n as [| | |l cs c a| | | | | | | | | | | | | | |]; try reflexivity.
  simpl mapChildren.
  now rewrite !isEffectGenCall_callee, qualifiedName_kept, identName_kept.
Qed.

Lemma isGeneratorCall_kept n e g :
  isGeneratorCall e g (mapChildren f n) = isGeneratorCall e g n.
Proof.
  unfold isGeneratorCall. rewrite isEffectGenCall_kept. f_equal.
  destruct n as [| | |l cs c a| | | | | | | | | | | | | | |]; try reflexivity.
  simpl. destruct a as [|x rest]; auto. apply (isGeneratorFunction_kept (Some x)).
Qed.

Lemma isFrameSpread_kept v n :
  isFrameSpread v (mapChildren f n) = isFrameSpread v n.
Proof.
  destruct n as [| | | | | | | | |a| | | | | | | | |]; try reflexivity.
  simpl. pose proof (identName_kept a) as H.
  destruct a; destruct (f _); simpl in H; try discriminate H; try reflexivity.
  now inversion H.
Qed.

Lemma isUpdateServiceCall_kept e n :
  isUpdateServiceCall e (mapChildren f n) = isUpdateServiceCall e n.
Proof.
  destruct n as [| | |l cs c a| | | | | | | | | | | | | | |]; try reflexivity.
  simpl mapChildren.
  now rewrite !isUpdateServiceCall_callee, qualifiedName_kept.
Qed.
End HeadPreserving.

(** ** The second traversal *)

Lemma traverseChildren_pair (f : Node -> flagged) n :
  traverseChildren f n
  = (mapChildren (fun x => fst (f x)) n, existsb (fun x => snd (f x)) (children n)).
Proof.
  rewrite <- traverseChildren_fst, <- traverseChildren_snd.
  now destruct (traverseChildren f n).
Qed.

Lemma mapFlag_pair (f : Node -> flagged) l :
  mapFlag f l = (map (fun x => fst (f x)) l, existsb (fun x => snd (f x)) l).
Proof.
  rewrite <- mapFlag_fst, <- mapFlag_snd. now destruct (mapFlag f l).
Qed.

Lemma existsb_Forall_ext (A : Type) (f g : A -> bool) l :
  Forall (fun x => f x = g x) l -> existsb f l = existsb g l.
Proof. induction 1; simpl; congruence. Qed.

Lemma map_Forall_ext (A B : Type) (f g : A -> B) l :
  Forall (fun x => f x = g x) l -> map f l = map g l.
Proof. induction 1; simpl; congruence. Qed.

Lemma height_eq n : height n = S (list_max (map height (children n))).
Proof.
  assert (G : forall l a, fold_left (fun s c => Nat.max s (height c)) l a
                          = Nat.max a (list_max (map height l))).
  { induction l as [|x r IH]; intros a; simpl; [lia | rewrite IH; lia]. }
  transitivity (S (maxChildren height n)); [destruct n; reflexivity|].
  unfold maxChildren. rewrite foldChildren_fold_left, G. reflexivity.
Qed.

Lemma height_pos n : 0 < height n.
Proof. rewrite height_eq. lia. Qed.

Lemma list_max_ge l x : In x l -> x <= list_max l.
Proof.
  induction l as [|y r IH]; simpl; [contradiction|].
  intros [->|Hin]; [lia | specialize (IH Hin); lia].
Qed.

Lemma height_child_lt f n k :
  height (mapChildren f n) < S k -> Forall (fun c => height (f c) < k) (children n).
Proof.
  intros H. rewrite height_eq, children_mapChildren, map_map in H.
  apply Forall_forall. intros c Hin.
  assert (height (f c) <= list_max (map (fun x => height (f x)) (children n))); [|lia].
  apply list_max_ge. apply in_map_iff. now exists c.
Qed.

Lemma existsb_map (A B : Type) (f : B -> bool) (g : A -> B) l :
  existsb f (map g l) = existsb (fun x => f (g x)) l.
Proof. induction l as [|x r IH]; simpl; congruence. Qed.

Section RewriteFacts.
Variable id : string.
Variable effectName : string.
Variable genName : option string.
Variable frames : list (string * StackFrameInfo).
Variable referencesName : string.

Let inner := rewriteInner id effectName genName frames referencesName.
Let innerNode (n : Node) : Node := fst (inner n).
Let outer := rewriteOuter id effectName genName frames referencesName.
Let rw := rewriteFrom id effectName genName frames referencesName.
Let isites := innerSites effectName genName.
Let osites := outerSites effectName genName.
Let any := anyFrame id frames.
Let isGen (n : Node) : bool := isEffectGenCall n (Some effectName) genName.
Let wrap (arg : Node) (frame : StackFrameInfo) : Node :=
  wrapWithUpdateService arg (varName frame) effectName referencesName.

(** Three kinds of node: a generator-construction call, a delegation with a
    recorded frame, and everything else. *)
Lemma node_kinds n :
  isGen n = true
  \/ (exists loc d arg frame,
        n = YieldExpression loc d (Some arg) /\ yieldFrame id frames n = Some frame)
  \/ (isGen n = false /\ yieldFrame id frames n = None).
Proof.
  destruct (isGen n) eqn:G; auto. right.
  destruct (yieldFrame id frames n) as [frame|] eqn:F; auto. left.
  destruct n; try discriminate F.
  simpl in F. destruct delegate; try discriminate F.
  destruct argument as [arg|]; try discriminate F.
  exists loc, true, arg, frame. split; auto.
Qed.

Lemma isGeneratorCall_isGen n : isGeneratorCall effectName genName n = true -> isGen n = true.
Proof. unfold isGeneratorCall. intros H. now apply andb_prop in H. Qed.

Lemma isGen_false_generator n : isGen n = false -> isGeneratorCall effectName genName n = false.
Proof. unfold isGeneratorCall, isGen. intros ->. reflexivity. Qed.

(** *** Equations of the inner traversal *)

Lemma rewriteInner_eq n :
  inner n =
  match n with
  | CallExpression _ _ _ _ => if isGen n then (n, false) else traverseChildren inner n
  | YieldExpression loc d argument =>
      match yieldFrame id frames n, argument with
      | Some frame, Some arg =>
          (YieldExpression loc d (Some (wrap (innerNode arg) frame)), true)
      | _, _ => traverseChildren inner n
      end
  | _ => traverseChildren inner n
  end.
Proof.
  destruct n; try reflexivity.
  unfold inner, innerNode, inner. cbn [rewriteInner].
  destruct (yieldFrame id frames (YieldExpression loc delegate argument)); auto.
  destruct argument as [arg|]; auto.
  now destruct (rewriteInner id effectName genName frames referencesName arg).
Qed.

Lemma inner_gen n : isGen n = true -> inner n = (n, false).
Proof.
  intros G. rewrite rewriteInner_eq. destruct n; try discriminate G. now rewrite G.
Qed.

Lemma inner_site loc d arg frame :
  yieldFrame id frames (YieldExpression loc d (Some arg)) = Some frame ->
  inner (YieldExpression loc d (Some arg))
  = (YieldExpression loc d (Some (wrap (innerNode arg) frame)), true).
Proof. intros F. rewrite rewriteInner_eq. now rewrite F. Qed.

Lemma inner_plain n :
  isGen n = false -> yieldFrame id frames n = None -> inner n = traverseChildren inner n.
Proof.
  intros G F. rewrite rewriteInner_eq. destruct n; try reflexivity.
  - now rewrite G.
  - now rewrite F.
Qed.

Lemma innerNode_plain n :
  isGen n = false -> yieldFrame id frames n = None ->
  innerNode n = mapChildren innerNode n.
Proof.
  intros G F. unfold innerNode. now rewrite (inner_plain n G F), traverseChildren_fst.
Qed.

Lemma innerNode_head x : head (innerNode x) = head x.
Proof.
  destruct (node_kinds x) as [G | [(loc & d & arg & frame & -> & F) | [G F]]].
  - unfold innerNode. now rewrite inner_gen.
  - unfold innerNode. now rewrite (inner_site _ _ _ F).
  - rewrite innerNode_plain by assumption. apply head_mapChildren.
Qed.

Lemma innerNode_member o p :
  innerNode (MemberExpression o p) = MemberExpression (innerNode o) (innerNode p).
Proof. now rewrite innerNode_plain. Qed.

(** *** Equations of the one-descent form *)

Lemma rewriteFrom_eq act n :
  rw act n =
  match n with
  | CallExpression _ _ _ _ =>
      if isGen n then mapChildren (rw (isGeneratorCall effectName genName n)) n
      else mapChildren (rw act) n
  | YieldExpression loc d argument =>
      match (if act then yieldFrame id frames n else None), argument with
      | Some frame, Some arg => YieldExpression loc d (Some (wrap (rw act arg) frame))
      | _, _ => mapChildren (rw act) n
      end
  | _ => mapChildren (rw act) n
  end.
Proof. destruct n; reflexivity. Qed.

Lemma rw_gen act n :
  isGen n = true -> rw act n = mapChildren (rw (isGeneratorCall effectName genName n)) n.
Proof.
  intros G. rewrite rewriteFrom_eq. destruct n; try discriminate G. now rewrite G.
Qed.

Lemma rw_site loc d arg frame :
  yieldFrame id frames (YieldExpression loc d (Some arg)) = Some frame ->
  rw true (YieldExpression loc d (Some arg))
  = YieldExpression loc d (Some (wrap (rw true arg) frame)).
Proof. intros F. rewrite rewriteFrom_eq. now rewrite F. Qed.

Lemma rw_plain act n :
  isGen n = false -> yieldFrame id frames n = None -> rw act n = mapChildren (rw act) n.
Proof.
  intros G F. rewrite rewriteFrom_eq. destruct n; try reflexivity.
  - now rewrite G.
  - rewrite F. now destruct act.
Qed.

Lemma rw_false n : isGen n = false -> rw false n = mapChildren (rw false) n.
Proof.
  intros G. rewrite rewriteFrom_eq. destruct n; try reflexivity. now rewrite G.
Qed.

Lemma rw_head act x : head (rw act x) = head x.
Proof.
  destruct (node_kinds x) as [G | [(loc & d & arg & frame & -> & F) | [G F]]].
  - rewrite rw_gen by assumption. apply head_mapChildren.
  - destruct act.
    + now rewrite (rw_site _ _ _ F).
    + rewrite rw_false by reflexivity. apply head_mapChildren.
  - rewrite rw_plain by assumption. apply head_mapChildren.
Qed.

Lemma rw_member act o p :
  rw act (MemberExpression o p) = MemberExpression (rw act o) (rw act p).
Proof. reflexivity. Qed.

(** *** Sites *)

Lemma any_app a b : any (a ++ b) = any a || any b.
Proof. unfold any, anyFrame. apply existsb_app. Qed.

Lemma any_flat_map (f : Node -> list Node) l :
  any (flat_map f l) = existsb (fun c => any (f c)) l.
Proof.
  induction l as [|x r IH]; simpl; auto. now rewrite any_app, IH.
Qed.

Lemma isites_gen n : isGen n = true -> isites n = [].
Proof.
  intros G. unfold isites. rewrite innerSites_eq.
  destruct n; try discriminate G. fold (isGen (CallExpression loc leadingComments n arguments)).
  now rewrite G.
Qed.

Lemma isites_yield loc d a :
  isites (YieldExpression loc d a)
  = YieldExpression loc d a :: flat_map isites (children (YieldExpression loc d a)).
Proof. unfold isites. now rewrite innerSites_eq. Qed.

Lemma any_isites_plain n :
  isGen n = false -> yieldFrame id frames n = None ->
  any (isites n) = any (flat_map isites (children n)).
Proof.
  intros G F. unfold isites. rewrite innerSites_eq. destruct n; try reflexivity.
  - fold (isGen (CallExpression loc leadingComments n arguments)). now rewrite G.
  - unfold any, anyFrame. cbn [existsb]. now rewrite F.
Qed.

Lemma osites_generator n :
  isGeneratorCall effectName genName n = true ->
  osites n = (flat_map isites (children n) ++ flat_map osites (children n))%list.
Proof. intros G. unfold osites. now rewrite outerSites_eq, G. Qed.

Lemma osites_other n :
  isGeneratorCall effectName genName n = false ->
  osites n = flat_map osites (children n).
Proof. intros G. unfold osites. now rewrite outerSites_eq, G. Qed.

Lemma inner_flag n : snd (inner n) = any (isites n).
Proof.
  induction n as [n IH] using node_children_ind.
  destruct (node_kinds n) as [G | [(loc & d & arg & frame & -> & F) | [G F]]].
  - now rewrite inner_gen, isites_gen.
  - rewrite (inner_site _ _ _ F), isites_yield. unfold any, anyFrame.
    cbn [existsb snd]. now rewrite F.
  - rewrite inner_plain, any_isites_plain by assumption.
    rewrite traverseChildren_snd, any_flat_map.
    now apply existsb_Forall_ext.
Qed.


(** *** The outer traversal with enough fuel *)

Lemma outer_generator k n :
  isGeneratorCall effectName genName n = true ->
  outer (S k) n
  = (mapChildren (fun c => fst (outer k (innerNode c))) n,
     existsb (fun c => snd (inner c)) (children n)
     || existsb (fun c => snd (outer k (innerNode c))) (children n)).
Proof.
  intros G. unfold outer. cbn [rewriteOuter]. rewrite G.
  fold inner. fold outer.
  rewrite (traverseChildren_pair inner n).
  rewrite (traverseChildren_pair (outer k)).
  now rewrite mapChildren_mapChildren, children_mapChildren, existsb_map.
Qed.

Lemma outer_other k n :
  isGeneratorCall effectName genName n = false ->
  outer (S k) n
  = (mapChildren (fun c => fst (outer k c)) n,
     existsb (fun c => snd (outer k c)) (children n)).
Proof.
  intros G. unfold outer. cbn [rewriteOuter]. rewrite G. fold outer.
  now rewrite (traverseChildren_pair (outer k)).
Qed.

Lemma outer_member k a b :
  outer k (MemberExpression (Identifier a) (Identifier b))
  = (MemberExpression (Identifier a) (Identifier b), false).
Proof. destruct k as [|[|k]]; reflexivity. Qed.

Lemma outer_frame_arrow k v :
  outer k (ArrowFunctionExpression [Identifier "parent"]
             (ObjectExpression
                [SpreadElement (Identifier v);
                 ObjectProperty (Identifier "parent") (Identifier "parent")]))
  = (ArrowFunctionExpression [Identifier "parent"]
       (ObjectExpression
          [SpreadElement (Identifier v);
           ObjectProperty (Identifier "parent") (Identifier "parent")]), false).
Proof. destruct k as [|[|[|[|k]]]]; reflexivity. Qed.

Lemma wrap_not_generator arg frame :
  isGeneratorCall effectName genName (wrap arg frame) = false.
Proof.
  unfold isGeneratorCall, wrap, wrapWithUpdateService. simpl.
  now rewrite andb_false_r.
Qed.

Lemma outer_wrap k arg frame :
  outer (S k) (wrap arg frame)
  = (wrap (fst (outer k arg)) frame, snd (outer k arg)).
Proof.
  rewrite outer_other by apply wrap_not_generator.
  unfold wrap, wrapWithUpdateService. cbn [mapChildren children map existsb].
  rewrite !outer_member, outer_frame_arrow. cbn [fst snd].
  now rewrite !orb_false_r.
Qed.

Lemma outer_fuel n :
  (forall k, height (rw false n) < k -> outer k n = (rw false n, any (osites n)))
  /\ (forall k, height (rw true n) < k ->
                outer k (innerNode n) = (rw true n, any (osites n))).
Proof.
  induction n as [n IH] using node_children_ind.
  assert (IH1 : Forall (fun c => forall k, height (rw false c) < k ->
                                 outer k c = (rw false c, any (osites c))) (children n)).
  { eapply Forall_impl; [|exact IH]. intros c H. apply H. }
  assert (IH2 : Forall (fun c => forall k, height (rw true c) < k ->
                                 outer k (innerNode c) = (rw true c, any (osites c)))
                       (children n)).
  { eapply Forall_impl; [|exact IH]. intros c H. apply H. }
  clear IH.
  assert (Generator : isGeneratorCall effectName genName n = true ->
            forall act k, height (rw act n) < k ->
                          outer k n = (rw act n, any (osites n))).
  { intros G act k Hk.
    rewrite (rw_gen act n (isGeneratorCall_isGen n G)), G in *.
    destruct k as [|k]; [lia|].
    apply height_child_lt in Hk.
    rewrite (outer_generator k n G), (osites_generator n G), any_app, !any_flat_map.
    f_equal.
    - apply mapChildren_ext.
      rewrite Forall_forall in *. intros c Hin. now rewrite (IH2 c Hin k (Hk c Hin)).
    - f_equal.
      + apply existsb_Forall_ext, Forall_forall. intros c _. apply inner_flag.
      + apply existsb_Forall_ext.
        rewrite Forall_forall in *. intros c Hin. now rewrite (IH2 c Hin k (Hk c Hin)). }
  assert (Other : isGeneratorCall effectName genName n = false ->
            rw false n = mapChildren (rw false) n ->
            forall k, height (rw false n) < k ->
                      outer k n = (rw false n, any (osites n))).
  { intros G E k Hk. rewrite E in *.
    destruct k as [|k]; [lia|].
    apply height_child_lt in Hk.
    rewrite (outer_other k n G), (osites_other n G), any_flat_map.
    f_equal.
    - apply mapChildren_ext.
      rewrite Forall_forall in *. intros c Hin. now rewrite (IH1 c Hin k (Hk c Hin)).
    - apply existsb_Forall_ext.
      rewrite Forall_forall in *. intros c Hin. now rewrite (IH1 c Hin k (Hk c Hin)). }
  assert (First : forall k, height (rw false n) < k ->
                            outer k n = (rw false n, any (osites n))).
  { destruct (isGeneratorCall effectName genName n) eqn:G.
    - now apply Generator.
    - apply Other; auto.
      destruct (isGen n) eqn:G'.
      + now rewrite (rw_gen false n G'), G.
      + now apply rw_false. }
  split; [exact First|].
  intros k Hk.
  destruct (node_kinds n) as [G | [(loc & d & arg & frame & -> & F) | [G F]]].
  - (* a generator-construction call: the inner traversal skipped it *)
    unfold innerNode. rewrite (inner_gen n G). cbn [fst].
    destruct (isGeneratorCall effectName genName n) eqn:G'.
    + now apply Generator.
    + assert (E : rw true n = rw false n).
      { now rewrite !(rw_gen _ n G), G'. }
      rewrite E in *. now apply First.
  - (* a delegation with a frame: the wrapper now stands above the argument *)
    unfold innerNode at 1. rewrite (inner_site _ _ _ F). cbn [fst].
    rewrite (rw_site _ _ _ F) in *.
    assert (Harg : height (rw true arg) + 2 < k).
    { rewrite height_eq in Hk. cbn [children optList map list_max] in Hk.
      unfold wrap, wrapWithUpdateService in Hk.
      rewrite (height_eq (CallExpression _ _ _ _)) in Hk.
      cbn [children map] in Hk.
      unfold list_max in Hk. cbn [fold_right] in Hk. lia. }
    destruct k as [|[|k]]; try lia.
    rewrite outer_other by reflexivity.
    cbn [mapChildren children optList option_map existsb].
    rewrite outer_wrap.
    inversion IH2 as [|? ? Ha _]; subst.
    rewrite (Ha k) by lia. cbn [fst snd].
    rewrite (osites_other (YieldExpression loc d (Some arg))) by reflexivity.
    cbn [children optList flat_map]. now rewrite app_nil_r, orb_false_r.
  - (* any other node: both traversals only descend *)
    rewrite (innerNode_plain n G F).
    rewrite (rw_plain true n G F) in *.
    destruct k as [|k]; [lia|].
    apply height_child_lt in Hk.
    pose proof (isGen_false_generator n G) as G'.
    rewrite outer_other
      by (rewrite (isGeneratorCall_kept innerNode innerNode_head innerNode_member); exact G').
    rewrite (osites_other n G'), any_flat_map.
    rewrite mapChildren_mapChildren, children_mapChildren, existsb_map.
    f_equal.
    + apply mapChildren_ext.
      rewrite Forall_forall in *. intros c Hin. now rewrite (IH2 c Hin k (Hk c Hin)).
    + apply existsb_Forall_ext.
      rewrite Forall_forall in *. intros c Hin. now rewrite (IH2 c Hin k (Hk c Hin)).
Qed.


Lemma outer_program body :
  (forall n, In n body -> height (rw false n) < traverseFuel body) ->
  mapFlag (outer (traverseFuel body)) body
  = (map (rw false) body, any (flat_map osites body)).
Proof.
  intros H. rewrite mapFlag_pair, any_flat_map. f_equal.
  - apply map_Forall_ext, Forall_forall. intros n Hin.
    now rewrite (proj1 (outer_fuel n) _ (H n Hin)).
  - apply existsb_Forall_ext, Forall_forall. intros n Hin.
    now rewrite (proj1 (outer_fuel n) _ (H n Hin)).
Qed.

(** *** The rewritten tree is at most twice as deep *)

Lemma list_max_bound (f g : Node -> nat) l :
  Forall (fun c => g c <= 2 * f c + 3) l ->
  list_max (map g l) <= 2 * list_max (map f l) + 3.
Proof. induction 1; simpl; lia. Qed.

Lemma height_mapChildren_bound f n :
  Forall (fun c => height (f c) <= 2 * height c + 3) (children n) ->
  height (mapChildren f n) <= 2 * height n + 3.
Proof.
  intros H. rewrite (height_eq (mapChildren f n)), (height_eq n).
  rewrite children_mapChildren, map_map.
  pose proof (list_max_bound height (fun c => height (f c)) H). lia.
Qed.

Lemma height_rw n : forall act, height (rw act n) <= 2 * height n + 3.
Proof.
  induction n as [n IH] using node_children_ind. intros act.
  assert (M : forall b, height (mapChildren (rw b) n) <= 2 * height n + 3).
  { intros b. apply height_mapChildren_bound.
    eapply Forall_impl; [|exact IH]. intros c H. apply H. }
  destruct (node_kinds n) as [G | [(loc & d & arg & frame & -> & F) | [G F]]].
  - rewrite rw_gen by assumption. apply M.
  - destruct act.
    + rewrite (rw_site _ _ _ F).
      inversion IH as [|? ? Ha _]; subst. specialize (Ha true).
      pose proof (height_pos arg).
      rewrite (height_eq (YieldExpression loc d (Some arg))).
      rewrite (height_eq (YieldExpression _ _ (Some (wrap _ _)))).
      unfold wrap, wrapWithUpdateService.
      cbn [children optList map].
      rewrite (height_eq (CallExpression _ _ _ _)).
      cbn [children map]. unfold list_max. cbn [fold_right].
      change (height (MemberExpression (Identifier effectName) (Identifier "updateService")))
        with 2.
      change (height (MemberExpression (Identifier referencesName)
                        (Identifier "CurrentStackFrame"))) with 2.
      change (height (ArrowFunctionExpression [Identifier "parent"]
                        (ObjectExpression
                           [SpreadElement (Identifier (varName frame));
                            ObjectProperty (Identifier "parent") (Identifier "parent")])))
        with 4.
      lia.
    + rewrite rw_false by reflexivity. apply M.
  - rewrite rw_plain by assumption. apply M.
Qed.

Lemma traverseFuel_enough body n :
  In n body -> height (rw false n) < traverseFuel body.
Proof.
  intros Hin. unfold traverseFuel.
  pose proof (height_rw n false).
  assert (height n <= list_max (map height body)).
  { apply list_max_ge. now apply in_map. }
  lia.
Qed.

Lemma outer_program_body body :
  mapFlag (outer (traverseFuel body)) body
  = (map (rw false) body, any (flat_map osites body)).
Proof. apply outer_program. intros n. apply traverseFuel_enough. Qed.


(** *** Counting nodes of the rewritten tree *)

Section CountRewritten.
Variable P : Node -> bool.
Variable w : StackFrameInfo -> nat.
Hypothesis P_kept :
  forall f : Node -> Node,
    (forall x, head (f x) = head x) ->
    (forall o p, f (MemberExpression o p) = MemberExpression (f o) (f p)) ->
    forall n, P (mapChildren f n) = P n.
Hypothesis P_yield : forall loc d a, P (YieldExpression loc d a) = false.
Hypothesis P_wrap :
  forall arg frame, countNodes P (wrap arg frame) = countNodes P arg + w frame.

Let sum := siteSum id frames w.

Lemma sum_app a b : sum (a ++ b) = sum a + sum b.
Proof. unfold sum, siteSum. now rewrite map_app, list_sum_app. Qed.

Lemma sum_flat_map (f : Node -> list Node) l :
  sum (flat_map f l) = list_sum (map (fun c => sum (f c)) l).
Proof. induction l as [|x r IH]; simpl; auto. now rewrite sum_app, IH. Qed.

Lemma list_sum_plus (A : Type) (f g : A -> nat) l :
  list_sum (map (fun c => f c + g c) l) = list_sum (map f l) + list_sum (map g l).
Proof. induction l as [|x r IH]; simpl; lia. Qed.

Lemma count_mapChildren f n :
  (forall x, head (f x) = head x) ->
  (forall o p, f (MemberExpression o p) = MemberExpression (f o) (f p)) ->
  countNodes P (mapChildren f n)
  = (if P n then 1 else 0) + list_sum (map (fun c => countNodes P (f c)) (children n)).
Proof.
  intros H1 H2. rewrite countNodes_eq, (P_kept f H1 H2). unfold countList.
  now rewrite children_mapChildren, map_map.
Qed.

Lemma sum_isites_plain n :
  isGen n = false -> yieldFrame id frames n = None ->
  sum (isites n) = sum (flat_map isites (children n)).
Proof.
  intros G F. unfold isites. rewrite innerSites_eq. destruct n; try reflexivity.
  - fold (isGen (CallExpression loc leadingComments n arguments)). now rewrite G.
  - unfold sum, siteSum. cbn [map list_sum]. now rewrite F.
Qed.

Lemma count_rw n :
  countNodes P (rw false n) = countNodes P n + sum (osites n)
  /\ countNodes P (rw true n) = countNodes P n + sum (isites n) + sum (osites n).
Proof.
  induction n as [n IH] using node_children_ind.
  assert (IH1 : Forall (fun c => countNodes P (rw false c)
                                 = countNodes P c + sum (osites c)) (children n)).
  { eapply Forall_impl; [|exact IH]. intros c H. apply H. }
  assert (IH2 : Forall (fun c => countNodes P (rw true c)
                                 = countNodes P c + (sum (isites c) + sum (osites c)))
                       (children n)).
  { eapply Forall_impl; [|exact IH]. intros c [_ H]. rewrite H. lia. }
  clear IH.
  assert (M1 : countNodes P (mapChildren (rw false) n)
               = countNodes P n + sum (flat_map osites (children n))).
  { rewrite count_mapChildren by (intros; apply rw_head || apply rw_member).
    rewrite (map_Forall_ext _ _ IH1), list_sum_plus, sum_flat_map.
    rewrite (countNodes_eq P n). unfold countList. lia. }
  assert (M2 : countNodes P (mapChildren (rw true) n)
               = countNodes P n + sum (flat_map isites (children n))
                 + sum (flat_map osites (children n))).
  { rewrite count_mapChildren by (intros; apply rw_head || apply rw_member).
    rewrite (map_Forall_ext _ _ IH2), !list_sum_plus, !sum_flat_map.
    rewrite (countNodes_eq P n). unfold countList. lia. }
  destruct (node_kinds n) as [G | [(loc & d & arg & frame & -> & F) | [G F]]].
  - rewrite !(rw_gen _ n G), (isites_gen n G).
    destruct (isGeneratorCall effectName genName n) eqn:G'.
    + rewrite (osites_generator n G'), sum_app, M2. cbn. lia.
    + rewrite (osites_other n G'), M1. cbn. lia.
  - rewrite (rw_false (YieldExpression loc d (Some arg))) by reflexivity.
    rewrite (osites_other (YieldExpression loc d (Some arg))) by reflexivity.
    split; [exact M1|].
    rewrite (rw_site _ _ _ F), isites_yield.
    rewrite (countNodes_eq P (YieldExpression _ _ (Some (wrap _ _)))).
    rewrite (countNodes_eq P (YieldExpression loc d (Some arg))).
    rewrite !P_yield. unfold countList. cbn [children optList map list_sum flat_map].
    rewrite P_wrap.
    inversion IH2 as [|? ? Ha _]; subst. rewrite Ha.
    change (YieldExpression loc d (Some arg) :: (isites arg ++ [])%list)
      with ([YieldExpression loc d (Some arg)] ++ (isites arg ++ []))%list.
    rewrite !sum_app.
    assert (E1 : sum [YieldExpression loc d (Some arg)] = w frame).
    { unfold sum, siteSum. cbn [map]. rewrite F. unfold list_sum. cbn [fold_right]. lia. }
    assert (E0 : sum [] = 0) by reflexivity.
    rewrite E1, E0. unfold list_sum. cbn [fold_right]. lia.
  - rewrite !(rw_plain _ n G F), (sum_isites_plain n G F).
    rewrite (osites_other n (isGen_false_generator n G)).
    split; [exact M1 | exact M2].
Qed.
End CountRewritten.

End RewriteFacts.

(** ** Counting wrappers and frame references *)

Lemma isFrameSpread_wrap v arg fv e r :
  countNodes (isFrameSpread v) (wrapWithUpdateService arg fv e r)
  = countNodes (isFrameSpread v) arg + (if fv =? v then 1 else 0).
Proof.
  unfold wrapWithUpdateService.
  rewrite (countNodes_eq _ (CallExpression _ _ _ _)).
  cbn [children isFrameSpread]. unfold countList. cbn [map].
  change (countNodes (isFrameSpread v)
            (MemberExpression (Identifier e) (Identifier "updateService"))) with 0.
  change (countNodes (isFrameSpread v)
            (MemberExpression (Identifier r) (Identifier "CurrentStackFrame"))) with 0.
  change (countNodes (isFrameSpread v)
            (ArrowFunctionExpression [Identifier "parent"]
               (ObjectExpression
                  [SpreadElement (Identifier fv);
                   ObjectProperty (Identifier "parent") (Identifier "parent")])))
    with ((if fv =? v then 1 else 0) + 0 + 0).
  unfold list_sum. cbn [fold_right]. lia.
Qed.

Lemma isUpdateServiceCall_wrap arg fv e r :
  countNodes (isUpdateServiceCall e) (wrapWithUpdateService arg fv e r)
  = countNodes (isUpdateServiceCall e) arg + 1.
Proof.
  unfold wrapWithUpdateService.
  rewrite (countNodes_eq _ (CallExpression _ _ _ _)).
  cbn [children isUpdateServiceCall]. rewrite String.eqb_refl.
  unfold countList. cbn [map].
  change (countNodes (isUpdateServiceCall e)
            (MemberExpression (Identifier e) (Identifier "updateService"))) with 0.
  change (countNodes (isUpdateServiceCall e)
            (MemberExpression (Identifier r) (Identifier "CurrentStackFrame"))) with 0.
  change (countNodes (isUpdateServiceCall e)
            (ArrowFunctionExpression [Identifier "parent"]
               (ObjectExpression
                  [SpreadElement (Identifier fv);
                   ObjectProperty (Identifier "parent") (Identifier "parent")])))
    with 0.
  unfold list_sum. cbn [fold_right andb]. 
  change ("updateService" =? "updateService") with true. cbn. lia.
Qed.

Section ProgramFacts.
Variable id : string.
Variable e : string.
Variable g : option string.
Variable frames : list (string * StackFrameInfo).
Variable r : string.

Lemma countList_rewritten_spread v body :
  countList (isFrameSpread v) (map (rewriteFrom id e g frames r false) body)
  = countList (isFrameSpread v) body
    + frameUses id frames v (flat_map (outerSites e g) body).
Proof.
  unfold countList, frameUses. rewrite map_map.
  rewrite (sum_flat_map id frames), <- list_sum_plus.
  f_equal. apply map_ext. intros n.
  exact (proj1 (count_rw id e g frames r (isFrameSpread v)
                  (fun frame => if varName frame =? v then 1 else 0)
                  (fun f H1 H2 n => @isFrameSpread_kept f H1 v n)
                  (fun _ _ _ => eq_refl)
                  (fun arg frame => isFrameSpread_wrap v arg (varName frame) e r) n)).
Qed.

Lemma countList_rewritten_calls body :
  countList (isUpdateServiceCall e) (map (rewriteFrom id e g frames r false) body)
  = countList (isUpdateServiceCall e) body
    + rewrittenSites id frames (flat_map (outerSites e g) body).
Proof.
  unfold countList, rewrittenSites. rewrite map_map.
  rewrite (sum_flat_map id frames), <- list_sum_plus.
  f_equal. apply map_ext. intros n.
  exact (proj1 (count_rw id e g frames r (isUpdateServiceCall e)
                  (fun _ => 1)
                  (fun f H1 H2 n => @isUpdateServiceCall_kept f H1 H2 e n)
                  (fun _ _ _ => eq_refl)
                  (fun arg frame => isUpdateServiceCall_wrap arg (varName frame) e r) n)).
Qed.
End ProgramFacts.

(** ** The source trace pass on a file *)

Section ImportFacts.
Variable e : string.
Variable g : option string.
Variable P : Node -> bool.
Hypothesis P_import : forall specifiers source, P (ImportDeclaration specifiers source) = false.

Lemma import_sites specifiers source :
  outerSites e g (ImportDeclaration specifiers source) = [].
Proof. reflexivity. Qed.

Lemma import_count specifiers source :
  countNodes P (ImportDeclaration specifiers source) = 0.
Proof. rewrite countNodes_eq, P_import. reflexivity. Qed.

Lemma ensureReferencesIn_same body :
  forall body' nm,
    ensureReferencesIn body = Some (body', nm) ->
    flat_map (outerSites e g) body' = flat_map (outerSites e g) body
    /\ countList P body' = countList P body.
Proof.
  induction body as [|n rest IH]; intros body' nm H; [discriminate|].
  assert (Step : forall rest', 
            flat_map (outerSites e g) rest' = flat_map (outerSites e g) rest
            /\ countList P rest' = countList P rest ->
            flat_map (outerSites e g) (n :: rest') = flat_map (outerSites e g) (n :: rest)
            /\ countList P (n :: rest') = countList P (n :: rest)).
  { intros rest' [A B]. unfold countList in *. cbn [flat_map map]. 
    rewrite A. split; auto. unfold list_sum in *. cbn [fold_right]. now rewrite B. }
  assert (Rec : match ensureReferencesIn rest with
                | Some (rest', nm0) => Some (n :: rest', nm0)
                | None => None
                end = Some (body', nm) ->
                flat_map (outerSites e g) body' = flat_map (outerSites e g) (n :: rest)
                /\ countList P body' = countList P (n :: rest)).
  { destruct (ensureReferencesIn rest) as [[rest' nm0]|]; [|discriminate].
    intros E; inversion E; subst. apply Step. now apply (IH rest' nm). }
  destruct n as [| | | | | | | | | | | | | | | | |specifiers source|];
    try (exact (Rec H)).
  cbn [ensureReferencesIn] in H.
  destruct (source =? "effect").
  - destruct (findReferences specifiers).
    + inversion H; subst. auto.
    + inversion H; subst. unfold countList. cbn [flat_map map].
      rewrite !import_sites, !import_count. auto.
  - exact (Rec H).
Qed.

Lemma ensureReferencesImport_same ast :
  flat_map (outerSites e g) (program_body (fst (ensureReferencesImport ast)))
  = flat_map (outerSites e g) (program_body ast)
  /\ countList P (program_body (fst (ensureReferencesImport ast)))
     = countList P (program_body ast).
Proof.
  unfold ensureReferencesImport.
  destruct (ensureReferencesIn (program_body ast)) as [[body nm]|] eqn:E.
  - cbn [fst program_body]. now apply (ensureReferencesIn_same _ E).
  - cbn [fst program_body]. unfold countList. cbn [flat_map map].
    rewrite import_sites, import_count. auto.
Qed.

Lemma countList_app a b : countList P (a ++ b) = countList P a + countList P b.
Proof. unfold countList. now rewrite map_app, list_sum_app. Qed.

Lemma countList_splice body i items :
  countList P (splice body i items) = countList P body + countList P items.
Proof.
  unfold splice. rewrite !countList_app.
  rewrite <- (firstn_skipn i body) at 3. rewrite countList_app. lia.
Qed.
End ImportFacts.

Lemma frame_declaration_no_spread v info :
  countNodes (isFrameSpread v) (createStackFrameDeclaration info) = 0.
Proof. reflexivity. Qed.

Lemma countList_zero P (f : StackFrameInfo -> Node) l :
  (forall x, countNodes P (f x) = 0) -> countList P (map f l) = 0.
Proof.
  intros H. unfold countList. rewrite map_map.
  induction l as [|x r IH]; auto. cbn [map]. unfold list_sum in *. cbn [fold_right].
  now rewrite H, IH.
Qed.

Lemma sourceTracePass_eq ast id e g x :
  sourceTracePass ast id e g x =
  let frames := framesByLocation (collectFrames ast id e g x) in
  if Nat.ltb 0 (List.length frames) then
    let ast1 := fst (ensureReferencesImport ast) in
    let r := snd (ensureReferencesImport ast) in
    let body := map (rewriteFrom id e g frames r false) (program_body ast1) in
    ({| program_body :=
          splice body (insertIndexFrom body 0)
                 (map createStackFrameDeclaration (mapValues frames)) |},
     anyFrame id frames (flat_map (outerSites e g) (program_body ast1)))
  else (ast, false).
Proof.
  unfold sourceTracePass. cbv zeta.
  destruct (Nat.ltb 0 _); auto.
  destruct (ensureReferencesImport ast) as [ast1 r]. cbn [fst snd].
  now rewrite outer_program_body.
Qed.

(** ** Frames and the sites that use them *)

Lemma collectFrames_frames ast id e g x :
  collectFrames ast id e g x =
  let new := firstVisits [] (delegations id (programSites e g ast)) in
  {| framesByLocation := numberFrames x 0 new; frameCounter := List.length new |}.
Proof.
  rewrite collectFrames_sites. now rewrite collect_fold.
Qed.

Lemma yieldFrame_delegation id frames y :
  yieldFrame id frames y =
  match delegation id y with
  | Some d => mapGet (fst d) frames
  | None => None
  end.
Proof.
  destruct y as [| | | | | |loc delegate argument| | | | | | | | | | | |]; try reflexivity.
  simpl. destruct delegate, argument, loc; reflexivity.
Qed.

Lemma siteSum_delegations id frames w sites :
  siteSum id frames w sites =
  list_sum (map (fun d => match mapGet (fst d) frames with
                          | Some frame => w frame
                          | None => 0
                          end) (delegations id sites)).
Proof.
  unfold siteSum, delegations.
  induction sites as [|y rest IH]; auto.
  cbn [map flat_map]. rewrite map_app, list_sum_app, <- IH.
  rewrite yieldFrame_delegation.
  change (list_sum (?a :: ?l)) with (a + list_sum l). f_equal.
  destruct (delegation id y); cbn; lia.
Qed.

Lemma anyFrame_delegations id frames sites :
  anyFrame id frames sites =
  existsb (fun d => match mapGet (fst d) frames with Some _ => true | None => false end)
          (delegations id sites).
Proof.
  unfold anyFrame, delegations.
  induction sites as [|y rest IH]; auto.
  cbn [existsb flat_map]. rewrite existsb_app, <- IH.
  rewrite yieldFrame_delegation. f_equal.
  destruct (delegation id y); cbn; auto. now rewrite orb_false_r.
Qed.

Lemma mapGet_numberFrames x ds :
  NoDup (map fst ds) ->
  forall c j d,
    nth_error ds j = Some d ->
    mapGet (fst d) (numberFrames x c ds) = Some (snd (frameOf x (c + j) d)).
Proof.
  induction ds as [|d0 rest IH]; intros ND c j d H; [now destruct j|].
  cbn [numberFrames mapGet frameOf fst].
  destruct j as [|j]; cbn [nth_error] in H.
  - inversion H; subst. rewrite String.eqb_refl, Nat.add_0_r. reflexivity.
  - cbn [map] in ND. inversion ND as [|? ? Hnot ND']; subst.
    assert (Hneq : (fst d0 =? fst d) = false).
    { apply String.eqb_neq. intros E. apply Hnot. rewrite E.
      apply in_map. eapply nth_error_In; eauto. }
    rewrite Hneq. rewrite (IH ND' (S c) j d H). do 3 f_equal. lia.
Qed.

Lemma list_sum_indicator (A : Type) (f : A -> nat) l :
  forall c i,
    (forall j d, nth_error l j = Some d -> f d = if c + j =? i then 1 else 0)%nat ->
    list_sum (map f l) = if (c <=? i)%nat && (i <? c + List.length l)%nat then 1 else 0.
Proof.
  induction l as [|d rest IH]; intros c i H.
  - cbn [map List.length]. change (list_sum []) with 0.
    destruct (c <=? i)%nat eqn:E1; auto.
    destruct (i <? c + 0)%nat eqn:E2; auto.
    apply Nat.leb_le in E1. apply Nat.ltb_lt in E2. lia.
  - cbn [map List.length]. change (list_sum (?a :: ?m)) with (a + list_sum m).
    rewrite (H 0 d eq_refl), (IH (S c) i).
    + rewrite Nat.add_0_r.
      destruct (c =? i)%nat eqn:E0; destruct (c <=? i)%nat eqn:E1;
        destruct (S c <=? i)%nat eqn:E2; destruct (i <? S c + List.length rest)%nat eqn:E3;
        destruct (i <? c + S (List.length rest))%nat eqn:E4; cbn; auto;
        repeat match goal with
          | H : (_ =? _)%nat = true |- _ => apply Nat.eqb_eq in H
          | H : (_ =? _)%nat = false |- _ => apply Nat.eqb_neq in H
          | H : (_ <=? _)%nat = true |- _ => apply Nat.leb_le in H
          | H : (_ <=? _)%nat = false |- _ => apply Nat.leb_gt in H
          | H : (_ <? _)%nat = true |- _ => apply Nat.ltb_lt in H
          | H : (_ <? _)%nat = false |- _ => apply Nat.ltb_ge in H
          end; lia.
    + intros j d' Hj. rewrite (H (S j) d' Hj). now replace (c + S j) with (S c + j) by lia.
Qed.

Lemma frameUses_numbered id x sites i :
  NoDup (map fst (delegations id sites)) ->
  frameUses id (numberFrames x 0 (delegations id sites)) ("_sf" ++ string_of_nat i) sites
  = if (i <? List.length (delegations id sites))%nat then 1 else 0.
Proof.
  intros ND. unfold frameUses. rewrite siteSum_delegations.
  rewrite (@list_sum_indicator _ _ (delegations id sites) 0 i).
  - reflexivity.
  - intros j d Hj. rewrite (@mapGet_numberFrames x _ ND 0 j d Hj).
    cbn [frameOf snd varName Nat.add].
    destruct (j =? i)%nat eqn:E.
    + apply Nat.eqb_eq in E. subst. now rewrite String.eqb_refl.
    + apply Nat.eqb_neq in E.
      destruct (String.eqb _ _) eqn:E'; auto.
      apply String.eqb_eq in E'. apply frame_var_inj in E'. contradiction.
Qed.

(** ** Every yield is visited at most once *)

Lemma flat_map_length_sum (A B : Type) (f : A -> list B) l :
  List.length (flat_map f l) = list_sum (map (fun c => List.length (f c)) l).
Proof.
  induction l as [|x rest IH]; auto.
  cbn [flat_map map]. change (list_sum (?a :: ?m)) with (a + list_sum m).
  now rewrite length_app, IH.
Qed.

Lemma list_sum_le (A : Type) (f h : A -> nat) l :
  Forall (fun c => f c <= h c) l -> list_sum (map f l) <= list_sum (map h l).
Proof.
  induction 1 as [|x rest Hx _ IH]; auto.
  cbn [map]. change (list_sum (?a :: ?m)) with (a + list_sum m) in *. lia.
Qed.

Lemma sites_at_most_yields e g n :
  List.length (outerSites e g n) <= countNodes isYieldExpression n
  /\ List.length (innerSites e g n) + List.length (outerSites e g n)
     <= countNodes isYieldExpression n.
Proof.
  induction n as [n IH] using node_children_ind.
  assert (SO : list_sum (map (fun c => List.length (outerSites e g c)) (children n))
               <= countList isYieldExpression (children n)).
  { apply list_sum_le. eapply Forall_impl; [|exact IH]. intros c H. apply H. }
  assert (SIO : list_sum (map (fun c => List.length (innerSites e g c)) (children n))
                + list_sum (map (fun c => List.length (outerSites e g c)) (children n))
                <= countList isYieldExpression (children n)).
  { rewrite <- list_sum_plus. apply list_sum_le.
    eapply Forall_impl; [|exact IH]. intros c H. apply H. }
  clear IH.
  rewrite (countNodes_eq isYieldExpression n), outerSites_eq, innerSites_eq.
  rewrite length_app, !flat_map_length_sum.
  unfold isGeneratorCall.
  destruct n as [| | |loc cms callee args| | |loc d a| | | | | | | | | | | |];
    cbv beta iota;
    try (cbn [isEffectGenCall andb List.length isYieldExpression];
         rewrite ?flat_map_length_sum; lia).
  cbn [isYieldExpression].
  destruct (isEffectGenCall (CallExpression loc cms callee args) (Some e) g);
    cbn [andb List.length]; [|rewrite ?flat_map_length_sum; lia].
  destruct (isGeneratorFunction _); cbn [List.length];
    rewrite ?flat_map_length_sum; lia.
Qed.

Lemma program_sites_at_most_yields e g body :
  List.length (flat_map (outerSites e g) body) <= countList isYieldExpression body.
Proof.
  rewrite flat_map_length_sum. apply list_sum_le, Forall_forall.
  intros n _. apply sites_at_most_yields.
Qed.

(** ** Hoisted frames *)

Lemma no_import_match (specifiers : list ImportSpecifierNode) (source : string) :
  (fun _ : Node => false) (ImportDeclaration specifiers source) = false.
Proof. reflexivity. Qed.

(** ** The pure-call annotator *)

Lemma annotateTraverse_call ancestors loc comments callee args :
  exists callee' args',
    fst (traverseChildren
           (annotateTraverse (CallExpression loc comments callee args :: ancestors))
           (CallExpression loc comments callee args))
    = CallExpression loc comments callee' args'.
Proof. rewrite traverseChildren_fst. simpl. eauto. Qed.

Lemma annotateTraverse_eq ancestors n :
  annotateTraverse ancestors n =
  (if annotateVisitor ancestors n
   then (addPureComment (fst (traverseChildren (annotateTraverse (n :: ancestors)) n)), true)
   else traverseChildren (annotateTraverse (n :: ancestors)) n).
Proof.
  destruct n; cbn [annotateTraverse];
    destruct (traverseChildren _ _); destruct (annotateVisitor _ _); reflexivity.
Qed.

(** ** The hoisted declarations *)

Lemma leading_imports (body : list Node) :
  forall i,
  exists imports rest : list Node,
    body = (imports ++ rest)%list
    /\ forallb isImportDeclaration imports = true
    /\ match rest with
       | first :: _ => isImportDeclaration first = false
       | [] => True
       end
    /\ insertIndexFrom body i = i + List.length imports.
Proof.
  induction body as [|n tl IH]; intros i.
  - exists [], []. cbn. repeat split. lia.
  - destruct (isImportDeclaration n) eqn:K.
    + destruct (IH (S i)) as [imports [rest [E [A [R I]]]]].
      exists (n :: imports), rest. subst tl. cbn [forallb app List.length].
      rewrite K, A. repeat split; [exact R|].
      destruct n; try discriminate K. cbn [insertIndexFrom]. rewrite I. lia.
    + exists [], (n :: tl). cbn [app forallb List.length]. repeat split; [exact K|].
      destruct n; try discriminate K; cbn [insertIndexFrom]; lia.
Qed.

Lemma splice_at_length (imports rest items : list Node) :
  splice (imports ++ rest) (List.length imports) items
  = (imports ++ items ++ rest)%list.
Proof.
  unfold splice.
  rewrite firstn_app, skipn_app, Nat.sub_diag, firstn_all, skipn_all.
  cbn [firstn skipn app]. now rewrite app_nil_r.
Qed.

Lemma nth_frame_declaration (x : bool) (ds : list (string * Node)) :
  forall c i d,
    nth_error ds i = Some d ->
    nth_error (map createStackFrameDeclaration (mapValues (numberFrames x c ds))) i
    = Some (createStackFrameDeclaration (snd (frameOf x (c + i) d))).
Proof.
  unfold mapValues.
  induction ds as [|d0 r IH]; intros c i d H; [destruct i; discriminate H|].
  destruct i as [|i]; cbn [nth_error numberFrames map] in *.
  - injection H as ->. now rewrite Nat.add_0_r.
  - rewrite (IH (S c) i d H). now replace (S c + i) with (c + S i) by lia.
Qed.

Lemma declaresFrame_declaration (v : string) (info : StackFrameInfo) :
  declaresFrame v (createStackFrameDeclaration info) = (varName info =? v).
Proof.
  unfold createStackFrameDeclaration.
  cbn [declaresFrame isFrameDeclarator identName isObjectExpression].
  change ("const" =? "const") with true. cbn [andb]. now rewrite andb_true_r.
Qed.

Lemma filter_length_sum (A : Type) (P : A -> bool) (l : list A) :
  List.length (filter P l) = list_sum (map (fun a => if P a then 1 else 0) l).
Proof.
  induction l as [|a r IH]; [reflexivity|].
  cbn [filter map]. change (list_sum (?a :: ?l)) with (a + list_sum l).
  destruct (P a); cbn [List.length]; lia.
Qed.

Lemma filter_length_splice (P : Node -> bool) (body items : list Node) (i : nat) :
  List.length (filter P (splice body i items))
  = List.length (filter P body) + List.length (filter P items).
Proof.
  unfold splice. rewrite !filter_app, !length_app.
  rewrite <- (firstn_skipn i body) at 3. rewrite filter_app, length_app. lia.
Qed.

Lemma filter_length_map (P : Node -> bool) (f : Node -> Node) (l : list Node) :
  (forall n, P (f n) = P n) ->
  List.length (filter P (map f l)) = List.length (filter P l).
Proof.
  intros H. induction l as [|a r IH]; [reflexivity|].
  cbn [map filter]. rewrite H. destruct (P a); cbn [List.length]; now rewrite IH.
Qed.

Section DeclarationKept.
Variable v : string.
Variable f : Node -> Node.
Hypothesis f_head : forall x, head (f x) = head x.
Hypothesis f_declaration :
  forall kind ds, f (VariableDeclaration kind ds) = VariableDeclaration kind (map f ds).
Hypothesis f_declarator :
  forall i o, f (VariableDeclarator i o) = VariableDeclarator (f i) (option_map f o).

Lemma isObjectExpression_kept (x : Node) :
  isObjectExpression (f x) = isObjectExpression x.
Proof.
  pose proof (f_head x) as H.
  destruct x; destruct (f _); try discriminate H; reflexivity.
Qed.

Lemma isFrameDeclarator_kept (d : Node) :
  isFrameDeclarator v (f d) = isFrameDeclarator v d.
Proof.
  destruct d as [| | | | | | | | | | |i o| | | | | | |];
    try (match goal with
         | |- isFrameDeclarator v (f ?y) = _ =>
             pose proof (f_head y) as H; destruct (f y); try discriminate H; reflexivity
         end).
  rewrite f_declarator. destruct o as [init|]; [|reflexivity].
  cbn [option_map isFrameDeclarator].
  now rewrite (@identName_kept f f_head), isObjectExpression_kept.
Qed.

Lemma declaresFrame_kept (n : Node) :
  declaresFrame v (f n) = declaresFrame v n.
Proof.
  destruct n as [| | | | | | | | | |kind ds| | | | | | | |];
    try (match goal with
         | |- declaresFrame v (f ?y) = _ =>
             pose proof (f_head y) as H; destruct (f y); try discriminate H; reflexivity
         end).
  rewrite f_declaration. destruct ds as [|d [|d2 r]]; try reflexivity.
  cbn [map declaresFrame]. now rewrite isFrameDeclarator_kept.
Qed.
End DeclarationKept.

Lemma declaresFrame_rewriteFrom (v id e : string) (g : option string)
  (frames : list (string * StackFrameInfo)) (r : string) (act : bool) (n : Node) :
  declaresFrame v (rewriteFrom id e g frames r act n) = declaresFrame v n.
Proof.
  apply declaresFrame_kept.
  - intros x. apply rw_head.
  - reflexivity.
  - reflexivity.
Qed.

Lemma ensureReferencesIn_statements (P : Node -> bool) (body body' : list Node)
  (nm : string) :
  (forall specifiers source, P (ImportDeclaration specifiers source) = false) ->
  ensureReferencesIn body = Some (body', nm) ->
  filter P body' = filter P body.
Proof.
  intros HP. revert body'.
  induction body as [|n rest IH]; intros body' H; [discriminate|].
  destruct n; cbn [ensureReferencesIn] in H;
    try (destruct (ensureReferencesIn rest) as [[rest' nm']|] eqn:E; [|discriminate];
         injection H as <- <-; cbn [filter]; now rewrite (IH _ eq_refl)).
  destruct (_ =? "effect").
  - destruct (findReferences _) as [local|]; injection H as <- <-;
      cbn [filter]; now rewrite !HP.
  - destruct (ensureReferencesIn rest) as [[rest' nm']|]; [|discriminate].
    injection H as <- <-. cbn [filter]. now rewrite !HP, (IH _ eq_refl).
Qed.

Lemma ensureReferencesImport_statements (P : Node -> bool) (ast : File) :
  (forall specifiers source, P (ImportDeclaration specifiers source) = false) ->
  filter P (program_body (fst (ensureReferencesImport ast)))
  = filter P (program_body ast).
Proof.
  intros HP. unfold ensureReferencesImport.
  destruct (ensureReferencesIn (program_body ast)) as [[body nm]|] eqn:E.
  - cbn [fst program_body]. exact (@ensureReferencesIn_statements P _ _ _ HP E).
  - cbn [fst program_body filter]. now rewrite HP.
Qed.

Lemma sourceTracePass_declarations (ast : File) (id e : string) (g : option string)
  (x : bool) (v : string) :
  List.length (filter (declaresFrame v)
                 (program_body (fst (sourceTracePass ast id e g x))))
  = List.length (filter (declaresFrame v) (program_body ast))
    + list_sum (map (fun info => if varName info =? v then 1 else 0)
                    (mapValues (framesByLocation (collectFrames ast id e g x)))).
Proof.
  rewrite sourceTracePass_eq. cbv zeta.
  destruct (Nat.ltb 0 _) eqn:L.
  - cbn [fst program_body].
    rewrite filter_length_splice, filter_length_map
      by (intros n; apply declaresFrame_rewriteFrom).
    rewrite (@ensureReferencesImport_statements (declaresFrame v) ast)
      by reflexivity.
    f_equal. rewrite filter_length_sum, map_map. f_equal. apply map_ext.
    intros info. now rewrite declaresFrame_declaration.
  - cbn [fst]. apply Nat.ltb_ge in L.
    destruct (framesByLocation (collectFrames ast id e g x)) as [|kv rest];
      [|cbn in L; lia].
    cbn. lia.
Qed.

Lemma declared_numbered (x : bool) (ds : list (string * Node)) (i : nat) :
  list_sum (map (fun info => if varName info =? "_sf" ++ string_of_nat i then 1 else 0)
                (mapValues (numberFrames x 0 ds)))
  = if (i <? List.length ds)%nat then 1 else 0.
Proof.
  unfold mapValues. rewrite map_map.
  rewrite <- (numberFrames_length x 0 ds).
  rewrite (@list_sum_indicator _ _ (numberFrames x 0 ds) 0 i).
  - reflexivity.
  - intros j kv Hj.
    assert (G : forall c ds' j' kv', nth_error (numberFrames x c ds') j' = Some kv' ->
                varName (snd kv') = "_sf" ++ string_of_nat (c + j')).
    { clear. intros c ds'. revert c. induction ds' as [|d r IH]; intros c j' kv' H;
        [destruct j'; discriminate H|].
      destruct j' as [|j']; cbn [numberFrames nth_error] in H.
      - injection H as <-. cbn. now rewrite Nat.add_0_r.
      - rewrite (IH (S c) j' kv' H). now replace (S c + j') with (c + S j') by lia. }
    rewrite (G 0 ds j kv Hj). cbn [Nat.add].
    destruct (j =? i)%nat eqn:E.
    + apply Nat.eqb_eq in E. subst. now rewrite String.eqb_refl.
    + apply Nat.eqb_neq in E.
      destruct (String.eqb _ _) eqn:E'; auto.
      apply String.eqb_eq in E'. apply frame_var_inj in E'. contradiction.
Qed.

(* ================================================================== *)
(** * The claims *)

(** C1 does not hold of the code: a file with no import at all, whose calls
    are spelled with the default namespace name [Effect], is rewritten.  The
    import scan falls back to the name ["Effect"], so the "no import found"
    return of [transform] is never taken, and the passes run. *)
Theorem transform_without_import_rewrites :
  findOrGetEffectImport Samples.noImport = {| effectName := "Effect"; genName := None |}
  /\ TransformResult.transformed
       (transform (Samples.parseAs Samples.noImport) Samples.generated
                  Samples.noImportText "test.ts" defaultOptions)
     = true
  /\ countList (isUpdateServiceCall "Effect")
       (program_body
          (fst (runPasses Samples.noImport "test.ts" defaultOptions "Effect" None)))
     = 1.
Proof. repeat split; vm_compute; reflexivity. Qed.

(** C2 does not hold of the code: the span pass reads only [include] and
    [exclude] of the span options, never [strategy]; under a depth strategy
    with [maxDepth: 1], the [forEach] call at depth 2 of
    [gen { all([ forEach(...) ]) }] is wrapped in a span like the two calls
    above it. *)
Theorem span_pass_ignores_depth_limit :
  (forall ast effectName fileName options format policy,
     spanPass ast effectName fileName options
     = spanPass ast effectName fileName
         {| enabled := enabled options; include := include options;
            exclude := exclude options; nameFormat := format; strategy := policy |})
  /\ countList (isWithSpanCall "Effect")
    (program_body
       (fst (runPasses Samples.depthProgram "/src/app.ts" Samples.depthOptions
               "Effect" None)))
  = 3
  /\ fst (spanTraverse "Effect" "app.ts"
            (resolveInstrumentable
               {| enabled := Some true; include := None; exclude := None;
                  nameFormat := None;
                  strategy := Some (DepthInstrumentationStrategy (Some 1) None) |})
            (Some (OtherNode "ArrayExpression" [Samples.forEachCall]))
            Samples.forEachCall)
     = wrapWithSpan Samples.forEachCall "app.ts:6" "Effect".
Proof. split; [reflexivity | split; vm_compute; reflexivity]. Qed.

(** C3 does not hold of the code: an accepted call is wrapped as
    [Effect.withSpan(call, name)] with two arguments and no attributes
    object, and the name is ["<variable> (<file>:<line>)"] (or
    ["<file>:<line>"] without a variable) whatever [nameFormat] says. *)
Theorem span_wrapper_has_no_attributes :
  (forall expr spanName effectImportName,
     wrapWithSpan expr spanName effectImportName
     = CallExpression None []
         (MemberExpression (Identifier effectImportName) (Identifier "withSpan"))
         [expr; StringLiteral spanName])
  /\ (forall format,
        program_body
          (fst (runPasses Samples.getUser "/src/UserRepo.ts"
                  (Samples.spansWithFormat format) "Effect" None))
        = [Samples.importEffect;
           Samples.const "getUser"
             (wrapWithSpan Samples.getUserCall "getUser (UserRepo.ts:4)" "Effect")])
  /\ createSpanName None "handler.ts" 4 = "handler.ts:4".
Proof.
  split; [reflexivity | split; [|reflexivity]].
  intros format. destruct format; vm_compute; reflexivity.
Qed.

(** C4 (as the code has it): for every delegation argument, a bare call
    [f(...)] gives ["f"]; a call through any member expression whose property
    is an identifier, [obj.m(...)], gives ["m"], whatever [obj] is, the effect
    namespace included, so the qualified form ["Ns.m"] is never produced;
    every other shape gives ["unknown"]; and with extraction switched off
    every frame recorded for a file is named ["effect"]. *)
Theorem extractFunctionName_precedence :
  (forall node,
     extractFunctionName node =
     match node with
     | CallExpression _ _ (Identifier f) _ => f
     | CallExpression _ _ (MemberExpression _ (Identifier m)) _ => m
     | _ => "unknown"
     end)
  /\ (forall ast id effectName genName,
        Forall (fun frame => name (snd frame) = "effect")
               (framesByLocation (collectFrames ast id effectName genName false))).
Proof.
  split.
  - intros node. unfold extractFunctionName.
    destruct node as [| | |l cs callee args| | | | | | | | | | | | | | |]; try reflexivity.
    destruct callee as [f| |o p| | | | | | | | | | | | | | | |]; try reflexivity.
    destruct p; try reflexivity; destruct o; reflexivity.
  - intros ast id e g. rewrite collectFrames_frames. cbn [framesByLocation].
    generalize (firstVisits [] (delegations id (programSites e g ast))), 0.
    intros ds. induction ds as [|d rest IH]; intros i; cbn [numberFrames]; constructor.
    + reflexivity.
    + apply IH.
Qed.

(** C4 fails as stated: [Effect.succeed(42)] is a qualified call on the
    effect namespace, and the extracted name is ["succeed"], not
    ["Effect.succeed"]. *)
Lemma extractFunctionName_qualified_counterexample :
  extractFunctionName
    (CallExpression (Samples.at_ 5 9) [] (Samples.effectDot "succeed")
       [Samples.num 42])
  = "succeed"
  /\ extractFunctionName
       (CallExpression (Samples.at_ 5 9) [] (Samples.effectDot "succeed")
          [Samples.num 42])
     <> "Effect.succeed".
Proof. split; [reflexivity | discriminate]. Qed.

(** C5: with [sourceTrace: false] and spans not enabled, [transform] returns
    [transformed: false] and the input text, on every input; whatever the
    options, a result with [transformed = false] carries the input text; so
    running the engine on its own output in that configuration changes
    nothing. *)
Theorem transform_untransformed_keeps_code :
  forall (SourceMap : Type) parse generate code id options,
    let r := @transform SourceMap parse generate code id options in
    (opt_sourceTrace options = Some false -> enableSpans options = false ->
     r = unchanged SourceMap code
     /\ transform parse generate (TransformResult.code r) id options
        = unchanged SourceMap code)
    /\ (TransformResult.transformed r = false -> TransformResult.code r = code).
Proof.
  intros SourceMap parse generate code id options r.
  assert (Off : opt_sourceTrace options = Some false -> enableSpans options = false ->
                forall text, transform parse generate text id options
                             = unchanged SourceMap text).
  { intros HT HS text. unfold transform.
    destruct (parse text id) as [ast|]; auto.
    destruct (negb _ && negb _); auto.
    unfold runPasses, enableSourceTrace. rewrite HT, HS. simpl.
    now destruct (opt_spans options). }
  split.
  - intros HT HS. subst r. rewrite (Off HT HS code). split; [reflexivity|].
    apply (Off HT HS).
  - subst r. unfold transform.
    destruct (parse code id) as [ast|]; auto.
    destruct (negb _ && negb _); auto.
    destruct (runPasses _ _ _ _ _) as [ast' b].
    destruct b; simpl; [discriminate | auto].
Qed.

Lemma transform_untransformed_witness :
  opt_sourceTrace Samples.traceOff = Some false
  /\ enableSpans Samples.traceOff = false
  /\ transform (Samples.parseAs Samples.getUser) Samples.generated
               "source text" "test.ts" Samples.traceOff
     = unchanged unit "source text"
  /\ TransformResult.code
       (transform (Samples.parseAs Samples.getUser) Samples.generated
                  "source text" "test.ts" Samples.traceOff)
     = "source text".
Proof.
  destruct (transform_untransformed_keeps_code
              (Samples.parseAs Samples.getUser) Samples.generated
              "source text" "test.ts" Samples.traceOff) as [A B].
  split; [reflexivity|]. split; [reflexivity|]. split.
  - apply A; reflexivity.
  - apply B; reflexivity.
Defined.

(** C6: one frame is recorded per location key, in the order the keys are
    first visited, the [i]-th with the synthetic name [_sf<i>] counted from
    0, and no two frames share a location key.  When the delegation sites of
    the file have pairwise distinct location keys, with [N] the number of
    sites, the frames are those of the [N] sites; exactly [N] declarations
    are hoisted, the [i]-th being
    [const _sf<i> = { name: ..., stack: () => "<key>", parent: undefined }]
    for the [i]-th site; the output is the rewritten body with these
    declarations placed between its leading imports and the rest; every
    [_sf<i>] is declared by exactly one more statement of the output than of
    the input; and the rewriting adds exactly one reference to each hoisted
    frame. *)
Theorem one_frame_per_delegation_site :
  forall ast id effectName genName extractFnName,
    let sites := delegations id (programSites effectName genName ast) in
    let frames := framesByLocation (collectFrames ast id effectName genName extractFnName) in
    let declarations := map createStackFrameDeclaration (mapValues frames) in
    let ast1 := fst (ensureReferencesImport ast) in
    let referencesName := snd (ensureReferencesImport ast) in
    let body :=
      map (rewriteFrom id effectName genName frames referencesName false)
          (program_body ast1) in
    let output :=
      program_body (fst (sourceTracePass ast id effectName genName extractFnName)) in
    frames = numberFrames extractFnName 0 (firstVisits [] sites)
    /\ NoDup (map fst frames)
    /\ sourceTracePass ast id effectName genName extractFnName
       = (if Nat.ltb 0 (List.length sites)
          then ({| program_body := splice body (insertIndexFrom body 0) declarations |},
                true)
          else (ast, false))
    /\ (NoDup (siteKeys id effectName genName ast) ->
        frames = numberFrames extractFnName 0 sites
        /\ List.length declarations = List.length sites
        /\ Forall
             (fun i =>
                countList (isFrameSpread ("_sf" ++ string_of_nat i))
                  (splice body (insertIndexFrom body 0) declarations)
                = countList (isFrameSpread ("_sf" ++ string_of_nat i)) (program_body ast)
                  + 1)
             (seq 0 (List.length sites))
        /\ (forall i d,
              nth_error sites i = Some d ->
              nth_error declarations i
              = Some
                  (VariableDeclaration "const"
                     [VariableDeclarator (Identifier ("_sf" ++ string_of_nat i))
                        (Some
                           (ObjectExpression
                              [ObjectProperty (Identifier "name")
                                 (StringLiteral
                                    (if extractFnName
                                     then extractFunctionName (snd d)
                                     else "effect"));
                               ObjectProperty (Identifier "stack")
                                 (ArrowFunctionExpression []
                                    (StringLiteral (fst d)));
                               ObjectProperty (Identifier "parent")
                                 (Identifier "undefined")]))]))
        /\ (0 < List.length sites ->
            exists imports rest : list Node,
              body = (imports ++ rest)%list
              /\ forallb isImportDeclaration imports = true
              /\ match rest with
                 | first :: _ => isImportDeclaration first = false
                 | [] => True
                 end
              /\ output = (imports ++ declarations ++ rest)%list)
        /\ Forall
             (fun i =>
                List.length (filter (declaresFrame ("_sf" ++ string_of_nat i)) output)
                = List.length
                    (filter (declaresFrame ("_sf" ++ string_of_nat i)) (program_body ast))
                  + 1)
             (seq 0 (List.length sites))).
Proof.
  intros ast id e g x sites frames declarations ast1 r body output.
  assert (EF : frames = numberFrames x 0 (firstVisits [] sites)).
  { subst frames. now rewrite collectFrames_frames. }
  assert (ES : flat_map (outerSites e g) (program_body ast1) = programSites e g ast).
  { exact (proj1 (ensureReferencesImport_same e g (fun _ => false) no_import_match ast)). }
  assert (EP : sourceTracePass ast id e g x
               = (if Nat.ltb 0 (List.length sites)
                  then ({| program_body := splice body (insertIndexFrom body 0) declarations |},
                        true)
                  else (ast, false))).
  { rewrite sourceTracePass_eq. cbv zeta. fold frames ast1 r body declarations.
    rewrite ES, anyFrame_delegations. fold sites. rewrite EF.
    destruct sites as [|d rest]; [reflexivity|].
    cbn [firstVisits setHas existsb numberFrames List.length Nat.ltb Nat.leb
         mapGet frameOf fst].
    now rewrite String.eqb_refl. }
  split; [exact EF|].
  split; [rewrite EF, numberFrames_keys; exact (firstVisits_NoDup sites (NoDup_nil _))|].
  split; [exact EP|].
  intros ND. change (NoDup (map fst sites)) in ND.
  assert (EN : frames = numberFrames x 0 sites).
  { rewrite EF. now rewrite firstVisits_fresh. }
  split; [exact EN|].
  split; [subst declarations; unfold mapValues;
          now rewrite !length_map, EN, numberFrames_length|].
  split; [|split; [|split]].
  - apply Forall_forall. intros i Hi. apply in_seq in Hi.
    assert (Imp : forall specifiers source,
              isFrameSpread ("_sf" ++ string_of_nat i)
                (ImportDeclaration specifiers source) = false) by reflexivity.
    rewrite (countList_splice (isFrameSpread ("_sf" ++ string_of_nat i))).
    subst declarations.
    rewrite (countList_zero (isFrameSpread ("_sf" ++ string_of_nat i))
               createStackFrameDeclaration (mapValues frames)
               (frame_declaration_no_spread ("_sf" ++ string_of_nat i))).
    subst body. rewrite countList_rewritten_spread, ES.
    unfold ast1.
    rewrite (proj2 (ensureReferencesImport_same e g _ Imp ast)).
    rewrite EN. unfold sites. rewrite frameUses_numbered by exact ND.
    fold sites. destruct (Nat.ltb i (List.length sites)) eqn:E; [lia|].
    apply Nat.ltb_ge in E. lia.
  - intros i d Hd. subst declarations. rewrite EN.
    rewrite (nth_frame_declaration x sites 0 i Hd). reflexivity.
  - intros HN.
    destruct (leading_imports body 0) as [imports [rest [E [A [R I]]]]].
    exists imports, rest. split; [exact E|]. split; [exact A|]. split; [exact R|].
    subst output. rewrite EP.
    destruct (Nat.ltb 0 (List.length sites)) eqn:L; [|apply Nat.ltb_ge in L; lia].
    cbn [fst program_body]. rewrite I. cbn [Nat.add]. rewrite E at 1.
    apply splice_at_length.
  - apply Forall_forall. intros i Hi. apply in_seq in Hi.
    subst output. rewrite sourceTracePass_declarations. fold frames.
    rewrite EN, declared_numbered.
    destruct (Nat.ltb i (List.length sites)) eqn:E; [lia|].
    apply Nat.ltb_ge in E. lia.
Qed.

Lemma one_frame_per_site_witness :
  NoDup (siteKeys "test.ts" "Effect" None Samples.nestedGen)
  /\ framesByLocation (collectFrames Samples.nestedGen "test.ts" "Effect" None true)
     = numberFrames true 0
         (delegations "test.ts" (programSites "Effect" None Samples.nestedGen))
  /\ List.length
       (map createStackFrameDeclaration
          (mapValues
             (framesByLocation
                (collectFrames Samples.nestedGen "test.ts" "Effect" None true))))
     = 2.
Proof.
  assert (ND : NoDup (siteKeys "test.ts" "Effect" None Samples.nestedGen)).
  { vm_compute. repeat constructor; simpl; intuition discriminate. }
  split; [exact ND|].
  destruct (one_frame_per_delegation_site Samples.nestedGen "test.ts" "Effect" None true)
    as (_ & _ & _ & H).
  destruct (H ND) as (A & B & _).
  split; [exact A | exact B].
Defined.

(** C7: the inner traversal stops at a nested generator-construction call:
    it records nothing there and rewrites nothing below it; the nested call
    is handled when the outer traversal reaches it.  The two traversals
    together leave the tree of a single descent, visit no more yields than
    the tree has, and add one context-update wrapper per site that has a
    frame.  On the two-level sample with one inner delegation the output has
    exactly 2 wrappers. *)
Theorem nested_generator_calls_are_skipped :
  (forall id effectName genName extractFnName frames referencesName node st,
     isEffectGenCall node (Some effectName) genName = true ->
     collectInner id effectName genName extractFnName node st = st
     /\ innerSites effectName genName node = []
     /\ rewriteInner id effectName genName frames referencesName node = (node, false))
  /\ (forall id effectName genName frames referencesName body,
        mapFlag (rewriteOuter id effectName genName frames referencesName
                   (traverseFuel body)) body
        = (map (rewriteFrom id effectName genName frames referencesName false) body,
           anyFrame id frames (flat_map (outerSites effectName genName) body))
        /\ countList (isUpdateServiceCall effectName)
             (map (rewriteFrom id effectName genName frames referencesName false) body)
           = countList (isUpdateServiceCall effectName) body
             + rewrittenSites id frames (flat_map (outerSites effectName genName) body)
        /\ List.length (flat_map (outerSites effectName genName) body)
           <= countList isYieldExpression body)
  /\ List.length (programSites "Effect" None Samples.nestedGen) = 2
  /\ countList (isUpdateServiceCall "Effect")
       (program_body
          (fst (runPasses Samples.nestedGen "test.ts" defaultOptions "Effect" None)))
     = 2.
Proof.
  split; [|split; [|split; vm_compute; reflexivity]].
  - intros id e g x frames r n st G.
    split; [|split].
    + rewrite collectInner_eq.
      destruct n as [| | |loc cms callee args| | | | | | | | | | | | | | |];
        try discriminate G.
      now rewrite G.
    + now apply isites_gen.
    + now apply inner_gen.
  - intros id e g frames r body.
    split; [apply outer_program_body|].
    split; [apply countList_rewritten_calls | apply program_sites_at_most_yields].
Qed.

Lemma nested_generator_witness :
  isEffectGenCall
    (CallExpression (Samples.at_ 5 16) [] (Samples.effectDot "gen") [Samples.getUserFn])
    (Some "Effect") None
  = true
  /\ collectInner "test.ts" "Effect" None true
       (CallExpression (Samples.at_ 5 16) [] (Samples.effectDot "gen") [Samples.getUserFn])
       emptyCollectState
     = emptyCollectState
  /\ rewriteInner "test.ts" "Effect" None [] "References"
       (CallExpression (Samples.at_ 5 16) [] (Samples.effectDot "gen") [Samples.getUserFn])
     = (CallExpression (Samples.at_ 5 16) [] (Samples.effectDot "gen") [Samples.getUserFn],
        false).
Proof.
  split; [reflexivity|].
  destruct (proj1 nested_generator_calls_are_skipped
              "test.ts" "Effect" None true [] "References"
              (CallExpression (Samples.at_ 5 16) [] (Samples.effectDot "gen")
                 [Samples.getUserFn])
              emptyCollectState eq_refl) as (A & _ & B).
  split; [exact A | exact B].
Defined.

(** C8: when the parser rejects the input text, [transform] and
    [annotateEffects] both return the input text with [transformed: false];
    no error reaches the caller. *)
Theorem parse_failure_returns_input :
  forall (SourceMap : Type) parse generate code id options,
    parse code id = None ->
    @transform SourceMap parse generate code id options = unchanged SourceMap code
    /\ @annotateEffects SourceMap parse generate code id = unchanged SourceMap code.
Proof.
  intros SourceMap parse generate code id options H.
  unfold transform, annotateEffects. now rewrite H.
Qed.

Lemma parse_failure_witness :
  Samples.parseFails "const = ;" "broken.ts" = None
  /\ transform Samples.parseFails Samples.generated "const = ;" "broken.ts" defaultOptions
     = unchanged unit "const = ;"
  /\ annotateEffects Samples.parseFails Samples.generated "const = ;" "broken.ts"
     = unchanged unit "const = ;".
Proof.
  split; [reflexivity|].
  apply (parse_failure_returns_input Samples.parseFails Samples.generated
           "const = ;" "broken.ts" defaultOptions).
  reflexivity.
Defined.

(** C9: the annotator recognises a library call by the name of the callee's
    object alone: the name must be one of the 34 of [EFFECT_MODULES], and no
    import is consulted.  A call [M.f(...)] with [M] in the list, in a
    discardable position, carries a pure annotation after the pass, also
    when [M] is a local binding; a call whose callee is not such an [M.f]
    keeps its comments as they were. *)
Theorem annotator_matches_by_module_name :
  List.length EFFECT_MODULES = 34
  /\ NoDup EFFECT_MODULES
  /\ (forall ancestors loc comments M property args,
        In M EFFECT_MODULES ->
        isInAnnotatableContext ancestors = true ->
        hasPureAnnotation
          (fst (annotateTraverse ancestors
                  (CallExpression loc comments
                     (MemberExpression (Identifier M) property) args)))
        = true)
  /\ (forall ancestors loc comments callee args,
        (forall M property,
           callee = MemberExpression (Identifier M) property -> ~ In M EFFECT_MODULES) ->
        exists callee' args',
          fst (annotateTraverse ancestors (CallExpression loc comments callee args))
          = CallExpression loc comments callee' args')
  /\ annotatePass AnnotateSamples.localOption
     = (AnnotateSamples.localOptionAnnotated, true).
Proof.
  split; [reflexivity|].
  split.
  { unfold EFFECT_MODULES.
    repeat (constructor; [simpl; intuition discriminate|]). constructor. }
  split; [|split; [|vm_compute; reflexivity]].
  - intros ancestors loc comments M property args HM Hctx.
    rewrite annotateTraverse_eq.
    destruct (annotateTraverse_call ancestors loc comments
                (MemberExpression (Identifier M) property) args) as (c' & a' & E).
    destruct (annotateVisitor _ _) eqn:V; cbn [fst]; rewrite E.
    + reflexivity.
    + cbn [hasPureAnnotation]. unfold annotateVisitor in V.
      cbn [hasPureAnnotation isEffectModuleCall] in V.
      apply setHas_In in HM. rewrite HM, Hctx in V.
      now destruct (existsb isPureComment comments).
  - intros ancestors loc comments callee args Hcallee.
    rewrite annotateTraverse_eq.
    assert (V : annotateVisitor ancestors (CallExpression loc comments callee args) = false).
    { unfold annotateVisitor. cbn [hasPureAnnotation].
      destruct (existsb isPureComment comments); auto.
      destruct callee as [| |o p| | | | | | | | | | | | | | | |]; auto.
      destruct o as [M| | | | | | | | | | | | | | | | | |]; auto.
      cbn [isEffectModuleCall].
      destruct (setHas M EFFECT_MODULES) eqn:S; auto.
      apply setHas_In in S. exfalso. exact (Hcallee M p eq_refl S). }
    rewrite V. apply annotateTraverse_call.
Qed.

Lemma annotator_matches_witness :
  In "Option" EFFECT_MODULES
  /\ isInAnnotatableContext [VariableDeclarator (Identifier "value") None] = true
  /\ hasPureAnnotation
       (fst (annotateTraverse
               [VariableDeclarator (Identifier "value") None]
               (CallExpression None []
                  (MemberExpression (Identifier "Option") (Identifier "some")) [])))
     = true
  /\ ~ In "E" EFFECT_MODULES
  /\ exists callee' args',
       fst (annotateTraverse
              [VariableDeclarator (Identifier "other") None]
              (CallExpression None []
                 (MemberExpression (Identifier "E") (Identifier "succeed")) []))
       = CallExpression None [] callee' args'.
Proof.
  assert (In1 : In "Option" EFFECT_MODULES) by (simpl; tauto).
  assert (In2 : ~ In "E" EFFECT_MODULES) by (simpl; intuition discriminate).
  destruct annotator_matches_by_module_name as (_ & _ & A & B & _).
  split; [exact In1|]. split; [reflexivity|]. split; [|split; [exact In2|]].
  - apply A; [exact In1 | reflexivity].
  - apply B. intros M property E. inversion E; subst. exact In2.
Defined.

(** C10: a delegated yield without location information records no frame
    and keeps its argument unwrapped, and an instrumentable call without
    location information is not wrapped in a span; in each case the
    traversal just goes on into the node's children. *)
Theorem nodes_without_location_are_skipped :
  forall id effectName genName extractFnName frames referencesName
         fileName instrumentable parent delegate argument comments callee arguments st,
    collectInner id effectName genName extractFnName
      (YieldExpression None delegate argument) st
    = foldChildren (collectInner id effectName genName extractFnName)
        (YieldExpression None delegate argument) st
    /\ fst (rewriteInner id effectName genName frames referencesName
              (YieldExpression None delegate argument))
       = YieldExpression None delegate
           (option_map
              (fun a => fst (rewriteInner id effectName genName frames referencesName a))
              argument)
    /\ fst (spanTraverse effectName fileName instrumentable parent
              (CallExpression None comments callee arguments))
       = CallExpression None comments
           (fst (spanTraverse effectName fileName instrumentable
                   (Some (CallExpression None comments callee arguments)) callee))
           (map (fun a =>
                   fst (spanTraverse effectName fileName instrumentable
                          (Some (CallExpression None comments callee arguments)) a))
                arguments).
Proof.
  intros id e g x frames r fileName instr parent delegate argument cms callee args st.
  split; [|split].
  - rewrite collectInner_eq. cbn [yieldVisitor].
    now destruct delegate, argument.
  - assert (F : yieldFrame id frames (YieldExpression None delegate argument) = None).
    { simpl. now destruct delegate, argument. }
    rewrite rewriteInner_eq, F.
    now rewrite traverseChildren_fst.
  - cbn [spanTraverse].
    rewrite traverseChildren_pair.
    assert (V : spanVisitor e fileName instr parent
                  (CallExpression None cms callee args) = None).
    { simpl. destruct callee as [| |o p| | | | | | | | | | | | | | | |]; auto.
      destruct o; auto. destruct p; auto.
      destruct (negb _); auto. destruct (negb _); auto. }
    now rewrite V.
Qed.

(* ================================================================== *)
(** * Further properties *)

(** ** The instrumentable set *)

Lemma combinator_name_inj (a b : Combinator.t) :
  Combinator.name a = Combinator.name b -> a = b.
Proof. destruct a, b; cbn; intros H; try reflexivity; discriminate H. Qed.

Lemma in_names (c : Combinator.t) (l : list Combinator.t) :
  In (Combinator.name c) (map Combinator.name l) <-> In c l.
Proof.
  split.
  - intros H. apply in_map_iff in H. destruct H as [d [Hd Hin]].
    apply combinator_name_inj in Hd. subst d. exact Hin.
  - apply in_map.
Qed.

(** X1: a method name is instrumented exactly when it is the name of a
    combinator of [include] (of the ten of [ALL_INSTRUMENTABLE] when
    [include] is absent) that [exclude] does not list: [exclude] wins over
    [include], and no other name is ever in the set. *)
Theorem resolveInstrumentable_membership (options : SpanInstrumentationOptions)
  (methodName : string) :
  setHas methodName (resolveInstrumentable options) = true
  <-> exists c : Combinator.t,
        methodName = Combinator.name c
        /\ In c (match include options with Some l => l | None => ALL_INSTRUMENTABLE end)
        /\ ~ In c (match exclude options with Some l => l | None => [] end).
Proof.
  unfold resolveInstrumentable.
  rewrite setHas_In, filter_In, negb_true_iff. split.
  - intros [Hi He]. apply in_map_iff in Hi. destruct Hi as [c [Hc Hin]].
    exists c. split; [now symmetry|]. split; [exact Hin|].
    intros Hx. apply setHas_not_In in He. apply He. subst methodName.
    apply in_map. exact Hx.
  - intros [c [Hc [Hi He]]]. subst methodName. split.
    + apply in_map. exact Hi.
    + apply setHas_not_In. intros Hin. apply He. apply in_names. exact Hin.
Qed.

Lemma resolveInstrumentable_witness :
  setHas "fork"
    (resolveInstrumentable
       {| enabled := Some true; include := None; exclude := Some [Combinator.gen];
          nameFormat := None; strategy := None |}) = true.
Proof.
  apply (proj2 (resolveInstrumentable_membership _ "fork")).
  exists Combinator.fork. split; [reflexivity|]. split.
  - cbn. tauto.
  - cbn. intros [H|[]]. discriminate H.
Defined.

(** ** File names *)

Lemma splitSlash_nonempty (s cur : string) : splitSlash s cur <> [].
Proof.
  revert cur. induction s as [|c r IH]; intros cur; cbn.
  - discriminate.
  - destruct (Ascii.eqb c "/"); [discriminate | apply IH].
Qed.

Lemma last_cons_nonempty (A : Type) (x d d' : A) (l : list A) :
  l <> [] -> last (x :: l) d = last l d'.
Proof.
  revert x. induction l as [|y l IH]; intros x H; [congruence|].
  destruct l as [|z l]; [reflexivity|].
  change (last (x :: y :: z :: l) d) with (last (y :: z :: l) d).
  change (last (y :: z :: l) d') with (last (z :: l) d').
  rewrite (IH y); [reflexivity | discriminate].
Qed.

Lemma containsChar_app (c : ascii) (a b : string) :
  containsChar c (a ++ b) = containsChar c a || containsChar c b.
Proof.
  induction a as [|x a IH]; cbn; [reflexivity|].
  rewrite IH. apply orb_assoc.
Qed.

Lemma append_empty (s : string) : s ++ "" = s.
Proof. induction s as [|c r IH]; cbn; [reflexivity | now rewrite IH]. Qed.

Lemma append_assoc (a b c : string) : (a ++ b) ++ c = a ++ (b ++ c).
Proof. induction a as [|x a IH]; cbn; [reflexivity | now rewrite IH]. Qed.

Lemma splitSlash_plain (s cur : string) :
  containsChar "/" s = false -> splitSlash s cur = [cur ++ s].
Proof.
  revert cur. induction s as [|c r IH]; intros cur H; cbn in *.
  - now rewrite append_empty.
  - apply orb_false_iff in H. destruct H as [Hc Hr]. rewrite Hc.
    rewrite (IH _ Hr). f_equal. now rewrite append_assoc.
Qed.

Lemma splitSlash_last (dir base cur d : string) :
  last (splitSlash (dir ++ "/" ++ base) cur) d = last (splitSlash base "") d.
Proof.
  revert cur. induction dir as [|c r IH]; intros cur.
  - cbn [append splitSlash]. change (Ascii.eqb "/" "/") with true. cbv iota.
    apply last_cons_nonempty, splitSlash_nonempty.
  - cbn [append splitSlash]. destruct (Ascii.eqb c "/").
    + rewrite (@last_cons_nonempty _ cur d d) by apply splitSlash_nonempty. apply IH.
    + apply IH.
Qed.

Lemma splitSlash_parts (s cur : string) :
  containsChar "/" cur = false ->
  Forall (fun part => containsChar "/" part = false) (splitSlash s cur).
Proof.
  revert cur. induction s as [|c r IH]; intros cur H; cbn [splitSlash].
  - constructor; [exact H | constructor].
  - destruct (Ascii.eqb c "/") eqn:E.
    + constructor; [exact H | apply IH; reflexivity].
    + apply IH. rewrite containsChar_app, H. cbn. now rewrite E.
Qed.

(** X2: the file name of a path has no slash; it is the part after the last
    slash of the path, and the whole path when the path has no slash. *)
Theorem getFileName_is_last_segment (filePath : string) :
  containsChar "/" (getFileName filePath) = false
  /\ (forall dir base : string,
        filePath = dir ++ "/" ++ base -> containsChar "/" base = false ->
        getFileName filePath = base)
  /\ (containsChar "/" filePath = false -> getFileName filePath = filePath).
Proof.
  unfold getFileName. split; [|split].
  - pose proof (splitSlash_parts filePath "" eq_refl) as HF.
    pose proof (@splitSlash_nonempty filePath "") as HN.
    destruct (splitSlash filePath "") as [|x l]; [congruence|].
    rewrite Forall_forall in HF. apply HF.
    destruct (exists_last (l := x :: l)) as [l' [y E]]; [discriminate|].
    rewrite E at 1. rewrite last_last, E. apply in_or_app. right. now left.
  - intros dir base E Hb. subst filePath.
    rewrite splitSlash_last, (@splitSlash_plain base _ Hb). reflexivity.
  - intros H. rewrite (@splitSlash_plain filePath _ H). reflexivity.
Qed.

Lemma getFileName_witness : getFileName "src/services/user.ts" = "user.ts".
Proof.
  apply (proj1 (proj2 (getFileName_is_last_segment "src/services/user.ts"))
           "src/services" "user.ts"); reflexivity.
Defined.

(** ** Location keys *)

Lemma digits_no_colon (d : Decimal.uint) :
  containsChar ":" (NilEmpty.string_of_uint d) = false.
Proof. induction d; cbn; auto. Qed.

Lemma append_cancel_l (a x y : string) : a ++ x = a ++ y -> x = y.
Proof.
  induction a as [|c a IH]; cbn; intros H; [exact H|].
  injection H as H. auto.
Qed.

Lemma split_at_colon (x1 x2 y1 y2 : string) :
  containsChar ":" x1 = false -> containsChar ":" x2 = false ->
  x1 ++ ":" ++ y1 = x2 ++ ":" ++ y2 -> x1 = x2 /\ y1 = y2.
Proof.
  revert x2. induction x1 as [|c x1 IH]; intros x2 H1 H2 E.
  - destruct x2 as [|c2 x2]; cbn in *.
    + injection E as E. auto.
    + injection E as Ec E. subst c2. cbn in H2. discriminate.
  - destruct x2 as [|c2 x2]; cbn in *.
    + injection E as Ec E. subst c. cbn in H1. discriminate.
    + injection E as Ec E. subst c2.
      apply orb_false_iff in H1. destruct H1 as [_ H1].
      apply orb_false_iff in H2. destruct H2 as [_ H2].
      destruct (IH x2 H1 H2 E) as [Ex Ey]. subst. auto.
Qed.

(** X3: within one file, two locations have the same key only when their
    lines and columns agree, so the map of frames never merges delegations
    at different positions. *)
Theorem locationKey_injective (id : string) (loc1 loc2 : SourceLocation) :
  locationKey id loc1 = locationKey id loc2 -> loc1 = loc2.
Proof.
  destruct loc1 as [[l1 c1]], loc2 as [[l2 c2]]. unfold locationKey. cbn [start line column].
  intros E. apply append_cancel_l in E.
  change (":" ++ ?x) with (String ":" x) in E. injection E as E.
  apply split_at_colon in E; try apply digits_no_colon.
  destruct E as [El Ec].
  apply string_of_nat_inj in El. apply string_of_nat_inj in Ec. now subst.
Qed.

Lemma locationKey_witness :
  {| start := {| line := 3; column := 2 |} |} = {| start := {| line := 3; column := 2 |} |}.
Proof.
  apply (@locationKey_injective "a.ts"). reflexivity.
Defined.

(** ** The import scan *)

Lemma lastOr_app (A : Type) (acc : option A) (l1 l2 : list A) :
  lastOr acc (l1 ++ l2) = lastOr (lastOr acc l1) l2.
Proof.
  unfold lastOr. rewrite rev_app_distr.
  destruct (rev l2) as [|x r]; cbn; [|reflexivity].
  destruct (rev l1); reflexivity.
Qed.

Lemma scanSpecifier_aliases (acc : option string * option string)
  (specifier : ImportSpecifierNode) :
  scanSpecifier acc specifier
  = (lastOr (fst acc) (effectAliasOf specifier), lastOr (snd acc) (genAliasOf specifier)).
Proof.
  destruct acc as [e g].
  destruct specifier as [local | local | imported local]; cbn; try reflexivity.
  destruct (importedName imported =? "Effect"); [reflexivity|].
  destruct (importedName imported =? "gen"); reflexivity.
Qed.

Lemma scanSpecifiers_aliases (specifiers : list ImportSpecifierNode)
  (acc : option string * option string) :
  fold_left scanSpecifier specifiers acc
  = (lastOr (fst acc) (flat_map effectAliasOf specifiers),
     lastOr (snd acc) (flat_map genAliasOf specifiers)).
Proof.
  revert acc. induction specifiers as [|s r IH]; intros acc.
  - destruct acc; reflexivity.
  - cbn [fold_left flat_map]. rewrite IH, scanSpecifier_aliases, !lastOr_app.
    reflexivity.
Qed.

Lemma scanImports_aliases (body : list Node) (acc : option string * option string) :
  fold_left scanImport body acc
  = (lastOr (fst acc) (flat_map effectAliasOf (effectSpecifiers body)),
     lastOr (snd acc) (flat_map genAliasOf (effectSpecifiers body))).
Proof.
  revert acc. induction body as [|n r IH]; intros acc.
  - destruct acc; reflexivity.
  - cbn [fold_left]. rewrite IH. unfold effectSpecifiers. cbn [flat_map].
    rewrite !flat_map_app, !lastOr_app.
    destruct n; try reflexivity.
    cbn [scanImport]. destruct (_ =? "effect"); [|reflexivity].
    rewrite scanSpecifiers_aliases. reflexivity.
Qed.

(** X4: the import scan returns the last local name that an import from
    ["effect"] binds to the namespace (by [* as] or by the member [Effect]),
    and ["Effect"] when there is none; the name of [gen] is the last local
    name bound to the member [gen], and absent when there is none.  Imports
    from other modules and other statements play no part. *)
Theorem findOrGetEffectImport_last_alias (ast : File) :
  let specifiers := effectSpecifiers (program_body ast) in
  effectName (findOrGetEffectImport ast)
  = last (flat_map effectAliasOf specifiers) "Effect"
  /\ genName (findOrGetEffectImport ast)
     = lastOr None (flat_map genAliasOf specifiers).
Proof.
  cbv zeta. unfold findOrGetEffectImport. rewrite scanImports_aliases.
  cbn [fst snd effectName genName]. split; [|reflexivity].
  generalize (flat_map effectAliasOf (effectSpecifiers (program_body ast))).
  intros l. unfold lastOr.
  destruct (rev l) as [|x r] eqn:E.
  - apply (f_equal (@rev _)) in E. rewrite rev_involutive in E. now subst.
  - apply (f_equal (@rev _)) in E. rewrite rev_involutive in E. subst l.
    cbn [rev]. now rewrite last_last.
Qed.

(** ** The [References] import *)

Lemma findReferences_added (specifiers : list ImportSpecifierNode) :
  findReferences specifiers = None ->
  findReferences (specifiers ++ [referencesSpecifier]) = Some "References".
Proof.
  induction specifiers as [|s r IH]; intros H; [reflexivity|].
  destruct s as [local | local | imported local]; cbn in *; auto.
  destruct (importedName imported =? "References"); [discriminate | auto].
Qed.

Lemma ensureReferencesIn_bound (body : list Node) (nm : string) :
  referencesBinding body = Some nm -> ensureReferencesIn body = Some (body, nm).
Proof.
  unfold referencesBinding.
  induction body as [|n rest IH]; intros H; [discriminate|].
  destruct n; cbn [firstEffectImport ensureReferencesIn] in *;
    try (rewrite (IH H); reflexivity).
  destruct (_ =? "effect").
  - now rewrite H.
  - rewrite (IH H). reflexivity.
Qed.

Lemma ensureReferencesIn_binds (body body' : list Node) (nm : string) :
  ensureReferencesIn body = Some (body', nm) -> referencesBinding body' = Some nm.
Proof.
  unfold referencesBinding. revert body'.
  induction body as [|n rest IH]; intros body' H; [discriminate|].
  destruct n; cbn [ensureReferencesIn] in H;
    try (destruct (ensureReferencesIn rest) as [[rest' nm']|]; [|discriminate];
         injection H as <- <-; cbn [firstEffectImport]; now apply IH).
  destruct (_ =? "effect") eqn:E.
  - destruct (findReferences _) as [local|] eqn:F.
    + injection H as <- <-. cbn [firstEffectImport]. now rewrite E.
    + injection H as <- <-. cbn [firstEffectImport]. rewrite E.
      now apply findReferences_added.
  - destruct (ensureReferencesIn rest) as [[rest' nm']|]; [|discriminate].
    injection H as <- <-. cbn [firstEffectImport]. rewrite E. now apply IH.
Qed.

Lemma ensureReferencesIn_none (body : list Node) :
  ensureReferencesIn body = None -> firstEffectImport body = None.
Proof.
  induction body as [|n rest IH]; intros H; [reflexivity|].
  destruct n; cbn [ensureReferencesIn firstEffectImport] in *;
    try (destruct (ensureReferencesIn rest) as [[rest' nm']|]; [discriminate|];
         now apply IH).
  destruct (_ =? "effect").
  - destruct (findReferences _); discriminate.
  - destruct (ensureReferencesIn rest) as [[rest' nm']|]; [discriminate|].
    now apply IH.
Qed.

Lemma ensureReferencesImport_binds (ast : File) :
  referencesBinding (program_body (fst (ensureReferencesImport ast)))
  = Some (snd (ensureReferencesImport ast)).
Proof.
  unfold ensureReferencesImport.
  destruct (ensureReferencesIn (program_body ast)) as [[body nm]|] eqn:E.
  - cbn [fst snd program_body]. exact (ensureReferencesIn_binds _ E).
  - reflexivity.
Qed.

Lemma ensureReferencesImport_bound (ast : File) (nm : string) :
  referencesBinding (program_body ast) = Some nm ->
  ensureReferencesImport ast = (ast, nm).
Proof.
  intros H. unfold ensureReferencesImport.
  rewrite (ensureReferencesIn_bound _ H). destruct ast; reflexivity.
Qed.

(** X5: after [ensureReferencesImport], the first import from ["effect"] of
    the file binds [References] under the returned name, and a second call
    changes nothing and returns the same name. *)
Theorem ensureReferencesImport_binds_once (ast : File) :
  let result := ensureReferencesImport ast in
  referencesBinding (program_body (fst result)) = Some (snd result)
  /\ ensureReferencesImport (fst result) = result.
Proof.
  cbv zeta. pose proof (ensureReferencesImport_binds ast) as H. split; [exact H|].
  rewrite (ensureReferencesImport_bound _ H). now destruct (ensureReferencesImport ast).
Qed.

(** X6: when the first import from ["effect"] already binds [References],
    under whatever local name, the file is left as it is and that local name
    is returned. *)
Theorem ensureReferencesImport_keeps_binding (ast : File) (nm : string) :
  referencesBinding (program_body ast) = Some nm ->
  ensureReferencesImport ast = (ast, nm).
Proof. apply ensureReferencesImport_bound. Qed.

Lemma ensureReferencesImport_keeps_witness :
  ensureReferencesImport
    {| program_body :=
         [ImportDeclaration
            [ImportSpecifier (ImportedIdentifier "Effect") "Effect";
             ImportSpecifier (ImportedIdentifier "References") "R"] "effect"] |}
  = ({| program_body :=
         [ImportDeclaration
            [ImportSpecifier (ImportedIdentifier "Effect") "Effect";
             ImportSpecifier (ImportedIdentifier "References") "R"] "effect"] |}, "R").
Proof.
  apply ensureReferencesImport_keeps_binding. reflexivity.
Defined.

Section AddedSpecifier.
Variable A : Type.
Variable f : ImportSpecifierNode -> list A.
Hypothesis f_references : f referencesSpecifier = [].

Lemma aliases_ensured (body body' : list Node) (nm : string) :
  ensureReferencesIn body = Some (body', nm) ->
  flat_map f (effectSpecifiers body') = flat_map f (effectSpecifiers body).
Proof.
  unfold effectSpecifiers. revert body'.
  induction body as [|n rest IH]; intros body' H; [discriminate|].
  destruct n; cbn [ensureReferencesIn] in H;
    try (destruct (ensureReferencesIn rest) as [[rest' nm']|]; [|discriminate];
         injection H as <- <-; cbn [flat_map app]; now apply IH).
  destruct (_ =? "effect") eqn:E.
  - destruct (findReferences _) as [local|].
    + injection H as <- <-. reflexivity.
    + injection H as <- <-. cbn [flat_map]. rewrite E.
      rewrite !flat_map_app. cbn [flat_map]. rewrite f_references.
      now rewrite !app_nil_r.
  - destruct (ensureReferencesIn rest) as [[rest' nm']|]; [|discriminate].
    injection H as <- <-. cbn [flat_map]. rewrite E. cbn [app]. now apply IH.
Qed.

Lemma aliases_ensureReferencesImport (ast : File) :
  flat_map f (effectSpecifiers (program_body (fst (ensureReferencesImport ast))))
  = flat_map f (effectSpecifiers (program_body ast)).
Proof.
  unfold ensureReferencesImport.
  destruct (ensureReferencesIn (program_body ast)) as [[body nm]|] eqn:E.
  - cbn [fst program_body]. exact (aliases_ensured _ E).
  - cbn [fst program_body]. unfold effectSpecifiers. cbn [flat_map].
    change ("effect" =? "effect") with true. cbv iota.
    rewrite flat_map_app. cbn [flat_map]. now rewrite f_references.
Qed.
End AddedSpecifier.

Lemma statements_ensured (body body' : list Node) (nm : string) :
  ensureReferencesIn body = Some (body', nm) ->
  filter (fun n => negb (isImportDeclaration n)) body'
  = filter (fun n => negb (isImportDeclaration n)) body
  /\ List.length body' = List.length body.
Proof.
  revert body'.
  induction body as [|n rest IH]; intros body' H; [discriminate|].
  destruct n; cbn [ensureReferencesIn] in H;
    try (destruct (ensureReferencesIn rest) as [[rest' nm']|] eqn:E; [|discriminate];
         injection H as <- <-; destruct (IH _ eq_refl) as [IH1 IH2];
         cbn [filter isImportDeclaration negb List.length]; now rewrite IH1, IH2).
  destruct (_ =? "effect") eqn:E.
  - destruct (findReferences _) as [local|]; injection H as <- <-; split; reflexivity.
  - destruct (ensureReferencesIn rest) as [[rest' nm']|]; [|discriminate].
    injection H as <- <-. destruct (IH _ eq_refl) as [IH1 IH2].
    cbn [filter isImportDeclaration negb List.length]. now rewrite IH1, IH2.
Qed.

Lemma ensureReferencesIn_absent (body : list Node) :
  firstEffectImport body = None -> ensureReferencesIn body = None.
Proof.
  induction body as [|n rest IH]; intros H; [reflexivity|].
  destruct n; cbn [ensureReferencesIn firstEffectImport] in *;
    try (rewrite (IH H); reflexivity).
  destruct (_ =? "effect"); [discriminate|]. now rewrite (IH H).
Qed.

(** X7: [ensureReferencesImport] does not change what the import scan finds,
    keeps the statements that are no imports, in order, and adds a statement
    only when the file has no import from ["effect"]: then exactly one. *)
Theorem ensureReferencesImport_preserves (ast : File) :
  let ast' := fst (ensureReferencesImport ast) in
  findOrGetEffectImport ast' = findOrGetEffectImport ast
  /\ filter (fun n => negb (isImportDeclaration n)) (program_body ast')
     = filter (fun n => negb (isImportDeclaration n)) (program_body ast)
  /\ List.length (program_body ast')
     = match firstEffectImport (program_body ast) with
       | Some _ => List.length (program_body ast)
       | None => S (List.length (program_body ast))
       end.
Proof.
  cbv zeta. split.
  - unfold findOrGetEffectImport. rewrite !scanImports_aliases.
    rewrite (@aliases_ensureReferencesImport _ effectAliasOf eq_refl),
            (@aliases_ensureReferencesImport _ genAliasOf eq_refl).
    reflexivity.
  - unfold ensureReferencesImport.
    destruct (ensureReferencesIn (program_body ast)) as [[body nm]|] eqn:E.
    + cbn [fst program_body]. destruct (statements_ensured _ E) as [H1 H2].
      split; [exact H1|]. rewrite H2.
      destruct (firstEffectImport (program_body ast)) eqn:F; [reflexivity|].
      rewrite (ensureReferencesIn_absent _ F) in E. discriminate.
    + cbn [fst program_body]. rewrite (ensureReferencesIn_none _ E).
      split; reflexivity.
Qed.

(** ** Where the frame declarations go *)

Lemma insertIndexFrom_shift (body : list Node) (i : nat) :
  insertIndexFrom body i = i + insertIndexFrom body 0.
Proof.
  revert i. induction body as [|n rest IH]; intros i; cbn [insertIndexFrom]; [lia|].
  destruct n; try lia.
  rewrite (IH (S i)), (IH 1). lia.
Qed.

(** X8: the hoisted declarations are spliced in right after the leading run
    of import declarations: the body splits into imports followed by a rest
    that starts with no import, and the declarations go between the two, so
    before every statement that is no import. *)
Theorem hoisted_after_leading_imports (body items : list Node) :
  exists imports rest : list Node,
    body = (imports ++ rest)%list
    /\ splice body (insertIndexFrom body 0) items = (imports ++ items ++ rest)%list
    /\ forallb isImportDeclaration imports = true
    /\ match rest with
       | first :: _ => isImportDeclaration first = false
       | [] => True
       end.
Proof.
  unfold splice. induction body as [|n tl IH].
  - exists [], []. cbn. now rewrite app_nil_r.
  - destruct (isImportDeclaration n) eqn:K.
    + destruct IH as [imports [rest [E [S [A R]]]]].
      exists (n :: imports), rest.
      assert (I : insertIndexFrom (n :: tl) 0 = Datatypes.S (insertIndexFrom tl 0)).
      { destruct n; try discriminate K. cbn [insertIndexFrom].
        now rewrite insertIndexFrom_shift. }
      rewrite I. cbn [firstn skipn app forallb]. rewrite S, K, A.
      repeat split; [now rewrite E at 1 | exact R].
    + exists [], (n :: tl).
      assert (I : insertIndexFrom (n :: tl) 0 = 0) by (destruct n; try reflexivity; discriminate K).
      rewrite I. cbn. now rewrite K.
Qed.

(** ** The file filter of the plugin *)

Lemma firstMatch_existsb (id : string) (patterns : list Pattern) (result : bool) :
  firstMatch id patterns result
  = if existsb (patternMatches id) patterns then Some result else None.
Proof.
  induction patterns as [|p r IH]; cbn; [reflexivity|].
  destruct (patternMatches id p); [reflexivity | exact IH].
Qed.

(** X9: the filter accepts a file exactly when some pattern of [include]
    matches it and no pattern of [exclude] does, with the default lists in
    place of an absent option: an exclusion wins over an inclusion, and an
    [exclude] option replaces the default exclusion instead of adding to
    it. *)
Theorem createFilter_exclude_wins (include exclude : option FilterPattern) (id : string) :
  let includePatterns :=
    match include with Some i => toArray (Some i) | None => defaultInclude end in
  let excludePatterns :=
    match exclude with Some x => toArray (Some x) | None => defaultExclude end in
  createFilter include exclude id = true
  <-> (exists p, In p includePatterns /\ patternMatches id p = true)
      /\ (forall p, In p excludePatterns -> patternMatches id p = false).
Proof.
  cbv zeta. unfold createFilter. rewrite !firstMatch_existsb.
  set (incl := match include with Some i => toArray (Some i) | None => defaultInclude end).
  set (excl := match exclude with Some x => toArray (Some x) | None => defaultExclude end).
  replace (toArray match include with Some i => Some i | None => Some (PatternArray defaultInclude) end)
    with incl by (subst incl; destruct include; reflexivity).
  replace (toArray match exclude with Some x => Some x | None => Some (PatternArray defaultExclude) end)
    with excl by (subst excl; destruct exclude; reflexivity).
  destruct (existsb (patternMatches id) excl) eqn:X.
  - split; [discriminate|]. intros [_ H].
    apply existsb_exists in X. destruct X as [p [Hin Hp]].
    rewrite (H p Hin) in Hp. discriminate.
  - assert (HX : forall p, In p excl -> patternMatches id p = false).
    { intros p Hin. destruct (patternMatches id p) eqn:M; [|reflexivity].
      assert (existsb (patternMatches id) excl = true)
        by (apply existsb_exists; eauto).
      congruence. }
    destruct (existsb (patternMatches id) incl) eqn:I.
    + split; [|reflexivity]. intros _. split; [|exact HX].
      apply existsb_exists in I. exact I.
    + split; [discriminate|]. intros [[p [Hin Hp]] _].
      assert (existsb (patternMatches id) incl = true)
        by (apply existsb_exists; eauto).
      congruence.
Qed.

Lemma createFilter_witness : createFilter None None "src/app.ts" = true.
Proof.
  apply (proj2 (createFilter_exclude_wins None None "src/app.ts")). split.
  - exists (PatternRegExp scriptExtension). split; [now left | reflexivity].
  - intros p [<-|[]]. reflexivity.
Defined.

(** ** The context test of the annotator *)

Lemma context_by_stops (a b : list Node) :
  map contextStop a = map contextStop b ->
  isInAnnotatableContext a = isInAnnotatableContext b.
Proof.
  revert b. induction a as [|x a IH]; intros [|y b] H; try discriminate; [reflexivity|].
  cbn [map] in H. injection H as Hx Hr. specialize (IH _ Hr).
  destruct x, y; cbn in Hx; try discriminate; cbn; auto.
Qed.

(** X10: a call is in an annotatable context exactly when, walking up from
    it, a variable declarator, an export declaration, a return statement or
    an arrow function is met before any block statement. *)
Theorem annotatable_context_nearest_stop (ancestors : list Node) :
  isInAnnotatableContext ancestors = true
  <-> exists (inner : list Node) (stop : Node) (outer : list Node),
        ancestors = (inner ++ stop :: outer)%list
        /\ Forall (fun node => contextStop node = None) inner
        /\ contextStop stop = Some true.
Proof.
  induction ancestors as [|x up IH].
  - split; [discriminate|]. intros [inner [stop [outer [E _]]]].
    destruct inner; discriminate.
  - destruct (contextStop x) as [b|] eqn:K.
    + assert (V : isInAnnotatableContext (x :: up) = b)
        by (destruct x; cbn in K; try discriminate; injection K as <-; reflexivity).
      rewrite V. split.
      * intros ->. exists [], x, up. repeat split; [constructor | exact K].
      * intros [inner [stop [outer [E [F S]]]]].
        destruct inner as [|y inner]; cbn in E; injection E as -> E.
        -- congruence.
        -- inversion F; congruence.
    + assert (V : isInAnnotatableContext (x :: up) = isInAnnotatableContext up)
        by (destruct x; cbn in K; try discriminate; reflexivity).
      rewrite V, IH. split.
      * intros [inner [stop [outer [E [F S]]]]].
        exists (x :: inner), stop, outer. subst up. repeat split; auto.
      * intros [inner [stop [outer [E [F S]]]]].
        destruct inner as [|y inner]; cbn in E; injection E as -> E.
        -- congruence.
        -- exists inner, stop, outer. inversion F; auto.
Qed.

Lemma annotatable_context_witness :
  isInAnnotatableContext
    [MemberExpression (Identifier "x") (Identifier "y");
     VariableDeclarator (Identifier "z") None;
     BlockStatement []] = true.
Proof.
  apply (proj2 (annotatable_context_nearest_stop _)).
  exists [MemberExpression (Identifier "x") (Identifier "y")],
         (VariableDeclarator (Identifier "z") None), [BlockStatement []].
  split; [reflexivity|]. split; [|reflexivity].
  constructor; [reflexivity | constructor].
Defined.

(** ** The annotation pass *)

Lemma mapChildren_id (n : Node) : mapChildren (fun x => x) n = n.
Proof.
  destruct n; cbn; rewrite ?map_id; try reflexivity;
    match goal with |- context [option_map _ ?o] => destruct o; reflexivity end.
Qed.

Lemma annotate_fst (ancestors : list Node) (n : Node) :
  fst (annotateTraverse ancestors n)
  = (if annotateVisitor ancestors n then addPureComment else fun x => x)
      (mapChildren (fun c => fst (annotateTraverse (n :: ancestors) c)) n).
Proof.
  rewrite annotateTraverse_eq, traverseChildren_pair.
  destruct (annotateVisitor ancestors n); reflexivity.
Qed.

Lemma annotate_snd (ancestors : list Node) (n : Node) :
  snd (annotateTraverse ancestors n)
  = annotateVisitor ancestors n
    || existsb (fun c => snd (annotateTraverse (n :: ancestors) c)) (children n).
Proof.
  rewrite annotateTraverse_eq, traverseChildren_pair.
  destruct (annotateVisitor ancestors n); reflexivity.
Qed.

Lemma stripPureComments_addPureComment (n : Node) :
  stripPureComments (addPureComment n) = stripPureComments n.
Proof. destruct n; reflexivity. Qed.

Lemma stripPureComments_mapChildren (f : Node -> Node) (n : Node) :
  Forall (fun c => stripPureComments (f c) = stripPureComments c) (children n) ->
  stripPureComments (mapChildren f n) = stripPureComments n.
Proof.
  intros H.
  assert (E : mapChildren stripPureComments (mapChildren f n) = mapChildren stripPureComments n)
    by (rewrite mapChildren_mapChildren; apply mapChildren_ext; exact H).
  destruct n; cbn [mapChildren stripPureComments] in *; try exact E.
  injection E as -> ->. reflexivity.
Qed.

Lemma annotateTraverse_strip (n : Node) :
  forall ancestors,
    stripPureComments (fst (annotateTraverse ancestors n)) = stripPureComments n.
Proof.
  induction n as [n IH] using node_children_ind. intros ancestors.
  rewrite annotate_fst.
  assert (S : stripPureComments
                (mapChildren (fun c => fst (annotateTraverse (n :: ancestors) c)) n)
              = stripPureComments n).
  { apply stripPureComments_mapChildren. eapply Forall_impl; [|exact IH].
    intros c Hc. apply Hc. }
  destruct (annotateVisitor ancestors n); [|exact S].
  now rewrite stripPureComments_addPureComment.
Qed.

(** X11: the annotation pass changes nothing but leading comments
    [/*#__PURE__*/] of calls: without these comments, the tree after the
    pass is the tree before it. *)
Theorem annotatePass_only_adds_comments (ast : File) :
  map stripPureComments (program_body (fst (annotatePass ast)))
  = map stripPureComments (program_body ast).
Proof.
  unfold annotatePass. rewrite mapFlag_pair. cbn [fst program_body].
  rewrite map_map. apply map_ext. intros n. apply annotateTraverse_strip.
Qed.

Lemma annotate_contextStop (ancestors : list Node) (n : Node) :
  contextStop (fst (annotateTraverse ancestors n)) = contextStop n.
Proof.
  rewrite annotate_fst.
  destruct n; try reflexivity.
  destruct (annotateVisitor _ _); reflexivity.
Qed.

Lemma annotate_identName (ancestors : list Node) (n : Node) :
  identName (fst (annotateTraverse ancestors n)) = identName n.
Proof.
  rewrite annotate_fst.
  destruct n; try reflexivity.
  destruct (annotateVisitor _ _); reflexivity.
Qed.

Lemma isEffectModuleCall_callee (loc : option SourceLocation) (cs : list Comment)
  (callee : Node) (args : list Node) :
  isEffectModuleCall (CallExpression loc cs callee args)
  = match callee with
    | MemberExpression o _ =>
        match identName o with
        | Some object => setHas object EFFECT_MODULES
        | None => false
        end
    | _ => false
    end.
Proof.
  destruct callee as [| |o p| | | | | | | | | | | | | | | |]; try reflexivity.
  destruct o; reflexivity.
Qed.

Lemma annotate_callee (ancestors : list Node) (callee : Node) :
  match fst (annotateTraverse ancestors callee) with
  | MemberExpression o _ => identName o
  | _ => None
  end
  = match callee with
    | MemberExpression o _ => identName o
    | _ => None
    end.
Proof.
  rewrite annotate_fst.
  destruct callee as [| |o p| | | | | | | | | | | | | | | |]; try reflexivity.
  - cbn [annotateVisitor mapChildren]. apply annotate_identName.
  - destruct (annotateVisitor _ _); reflexivity.
Qed.

Lemma annotateVisitor_kept (ancestors ancestors' under : list Node) (n : Node) :
  map contextStop ancestors = map contextStop ancestors' ->
  annotateVisitor ancestors'
    (mapChildren (fun c => fst (annotateTraverse under c)) n)
  = annotateVisitor ancestors n.
Proof.
  intros H.
  destruct n as [| | |loc cs callee args| | | | | | | | | | | | | | |]; try reflexivity.
  cbn [mapChildren]. unfold annotateVisitor.
  rewrite !isEffectModuleCall_callee.
  change (hasPureAnnotation (CallExpression loc cs ?c ?a)) with (existsb isPureComment cs).
  pose proof (annotate_callee under callee) as C.
  destruct (fst (annotateTraverse under callee)), callee;
    try rewrite C; try rewrite <- C; rewrite ?(context_by_stops _ _ H); try reflexivity.
Qed.

Lemma children_addPureComment (n : Node) : children (addPureComment n) = children n.
Proof. destruct n; reflexivity. Qed.

Lemma annotateVisitor_annotated (ancestors : list Node) (n : Node) :
  annotateVisitor ancestors (addPureComment n) = false.
Proof. destruct n; reflexivity. Qed.

Lemma existsb_never (A : Type) (l : list A) : existsb (fun _ => false) l = false.
Proof. induction l; auto. Qed.

Lemma annotateTraverse_again (n : Node) :
  forall ancestors ancestors',
    map contextStop ancestors = map contextStop ancestors' ->
    annotateTraverse ancestors' (fst (annotateTraverse ancestors n))
    = (fst (annotateTraverse ancestors n), false).
Proof.
  induction n as [n IH] using node_children_ind. intros ancestors ancestors' H.
  set (n1 := fst (annotateTraverse ancestors n)).
  assert (K : contextStop n1 = contextStop n) by apply annotate_contextStop.
  assert (C : children n1
              = map (fun c => fst (annotateTraverse (n :: ancestors) c)) (children n)).
  { subst n1. rewrite annotate_fst.
    destruct (annotateVisitor ancestors n);
      rewrite ?children_addPureComment; apply children_mapChildren. }
  assert (V : annotateVisitor ancestors' n1 = false).
  { subst n1. rewrite annotate_fst.
    destruct (annotateVisitor ancestors n) eqn:E.
    - apply annotateVisitor_annotated.
    - rewrite (@annotateVisitor_kept ancestors ancestors' _ _ H). exact E. }
  assert (F : Forall (fun c => annotateTraverse (n1 :: ancestors') c = (c, false))
                     (children n1)).
  { rewrite C. apply Forall_map. eapply Forall_impl; [|exact IH].
    intros c Hc. apply Hc. cbn [map]. now rewrite K, H. }
  rewrite annotateTraverse_eq, V, traverseChildren_pair. f_equal.
  - rewrite <- (mapChildren_id n1) at 2. apply mapChildren_ext.
    eapply Forall_impl; [|exact F]. intros c Hc. now rewrite Hc.
  - rewrite (existsb_Forall_ext _ (fun _ => false)).
    + apply existsb_never.
    + eapply Forall_impl; [|exact F]. intros c Hc. now rewrite Hc.
Qed.

(** X12: the annotation pass is idempotent: run on its own output it changes
    nothing and reports no change, so no call is annotated twice. *)
Theorem annotatePass_idempotent (ast : File) :
  annotatePass (fst (annotatePass ast)) = (fst (annotatePass ast), false).
Proof.
  unfold annotatePass at 1. rewrite mapFlag_pair.
  assert (F : Forall (fun c => annotateTraverse [] c = (c, false))
                     (program_body (fst (annotatePass ast)))).
  { unfold annotatePass. rewrite mapFlag_pair. cbn [fst program_body].
    apply Forall_map. apply Forall_forall. intros n _.
    now apply annotateTraverse_again. }
  destruct (fst (annotatePass ast)) as [body]. cbn [program_body] in *.
  f_equal.
  - f_equal. rewrite <- (map_id body) at 2. apply (map_Forall_ext _ (fun x => x)).
    eapply Forall_impl; [|exact F]. intros c Hc. now rewrite Hc.
  - rewrite (existsb_Forall_ext _ (fun _ => false)).
    + apply existsb_never.
    + eapply Forall_impl; [|exact F]. intros c Hc. now rewrite Hc.
Qed.

Lemma annotateTraverse_unflagged (n : Node) :
  forall ancestors,
    snd (annotateTraverse ancestors n) = false ->
    fst (annotateTraverse ancestors n) = n.
Proof.
  induction n as [n IH] using node_children_ind. intros ancestors.
  rewrite annotate_snd, annotate_fst. intros H.
  apply orb_false_iff in H. destruct H as [V E]. rewrite V.
  rewrite <- (mapChildren_id n) at 2. apply mapChildren_ext.
  revert IH E. induction (children n) as [|c r IHr]; intros IH E; constructor.
  - cbn [existsb] in E. apply orb_false_iff in E. inversion IH; subst.
    apply H1. apply E.
  - cbn [existsb] in E. apply orb_false_iff in E. inversion IH; subst.
    apply IHr; [assumption | apply E].
Qed.

(** X13: when the annotation pass reports no change, the tree is the one it
    was given, which is why [annotateEffects] may return the input text. *)
Theorem annotatePass_unflagged (ast : File) :
  snd (annotatePass ast) = false -> fst (annotatePass ast) = ast.
Proof.
  unfold annotatePass. rewrite mapFlag_pair. cbn [fst snd]. intros H.
  destruct ast as [body]. cbn [program_body] in *. f_equal.
  induction body as [|n r IH]; [reflexivity|].
  cbn [existsb map] in *. apply orb_false_iff in H. destruct H as [Hn Hr].
  rewrite (annotateTraverse_unflagged _ _ Hn), (IH Hr). reflexivity.
Qed.

Lemma annotatePass_unflagged_witness :
  fst (annotatePass
         {| program_body :=
              [ExpressionStatement
                 (CallExpression None []
                    (MemberExpression (Identifier "Effect") (Identifier "log")) [])] |})
  = {| program_body :=
         [ExpressionStatement
            (CallExpression None []
               (MemberExpression (Identifier "Effect") (Identifier "log")) [])] |}.
Proof.
  apply annotatePass_unflagged. reflexivity.
Defined.

(** ** The span pass *)

Lemma replaced_call (e spanName : string) (x n : Node) :
  inheritsComments (wrapWithSpan (removeComments x) spanName e) n
  = CallExpression (@None SourceLocation) (leadingCommentsOf n)
      (MemberExpression (Identifier e) (Identifier "withSpan"))
      [removeComments x; StringLiteral spanName].
Proof. reflexivity. Qed.

Lemma children_removeComments (x : Node) : children (removeComments x) = children x.
Proof. destruct x; reflexivity. Qed.

Section SpanFacts.
Variable e : string.
Variable fileName : string.
Variable instrumentable : list string.

Let S := spanTraverse e fileName instrumentable.

Lemma spanTraverse_eq (parent : option Node) (n : Node) :
  S parent n =
  match spanVisitor e fileName instrumentable parent n with
  | Some spanName =>
      (inheritsComments
         (wrapWithSpan (removeComments (mapChildren (fun c => fst (S (Some n) c)) n))
                       spanName e) n,
       true)
  | None =>
      (mapChildren (fun c => fst (S (Some n) c)) n,
       existsb (fun c => snd (S (Some n) c)) (children n))
  end.
Proof.
  unfold S. destruct n; cbn [spanTraverse]; rewrite traverseChildren_pair; reflexivity.
Qed.

Lemma spanVisitor_target (parent : option Node) (n : Node) :
  isSpanTarget e instrumentable n
  = match spanVisitor e fileName instrumentable parent n with
    | Some _ => true
    | None => false
    end.
Proof.
  unfold isSpanTarget.
  destruct n as [| | |loc cs callee args| | | | | | | | | | | | | | |]; try reflexivity.
  cbn [spanVisitor].
  destruct callee as [| |o p| | | | | | | | | | | | | | | |]; try reflexivity.
  destruct o; try reflexivity. destruct p; try reflexivity.
  destruct (negb _); [reflexivity|]. destruct (negb _); [reflexivity|].
  destruct loc; reflexivity.
Qed.

Lemma spanTraverse_unflagged (n : Node) :
  forall parent, snd (S parent n) = false -> fst (S parent n) = n.
Proof.
  induction n as [n IH] using node_children_ind. intros parent.
  rewrite spanTraverse_eq.
  destruct (spanVisitor e fileName instrumentable parent n); [discriminate|].
  cbn [fst snd]. intros E.
  rewrite <- (mapChildren_id n) at 2. apply mapChildren_ext.
  revert IH E. induction (children n) as [|c r IHr]; intros IH E; constructor.
  - cbn [existsb] in E. apply orb_false_iff in E. inversion IH; subst.
    apply H1. apply E.
  - cbn [existsb] in E. apply orb_false_iff in E. inversion IH; subst.
    apply IHr; [assumption | apply E].
Qed.
End SpanFacts.

Lemma spanPass_unflagged (ast : File) (e fileName : string)
  (spanOptions : SpanInstrumentationOptions) :
  snd (spanPass ast e fileName spanOptions) = false ->
  fst (spanPass ast e fileName spanOptions) = ast.
Proof.
  unfold spanPass. rewrite mapFlag_pair. cbn [fst snd]. intros H.
  destruct ast as [body]. cbn [program_body] in *. f_equal.
  induction body as [|n r IH]; [reflexivity|].
  cbn [existsb map] in *. apply orb_false_iff in H. destruct H as [Hn Hr].
  rewrite (spanTraverse_unflagged _ _ _ _ _ Hn), (IH Hr). reflexivity.
Qed.

Lemma isWithSpanCall_callee (e : string) (l : option SourceLocation) (cs : list Comment)
  (c : Node) (a : list Node) :
  isWithSpanCall e (CallExpression l cs c a) =
  match qualifiedName c with
  | Some (o, p) => (o =? e) && (p =? "withSpan")
  | None => false
  end.
Proof.
  destruct c as [nm| |o p| | | | | | | | | | | | | | | |]; try reflexivity.
  destruct o; try reflexivity. destruct p; reflexivity.
Qed.

Lemma isWithSpanCall_removeComments (e : string) (x : Node) :
  countNodes (isWithSpanCall e) (removeComments x) = countNodes (isWithSpanCall e) x.
Proof.
  rewrite (countNodes_eq _ (removeComments x)), (countNodes_eq _ x),
          children_removeComments.
  f_equal. destruct x; reflexivity.
Qed.

Lemma isWithSpanCall_wrap (e spanName : string) (x n : Node) :
  countNodes (isWithSpanCall e)
    (inheritsComments (wrapWithSpan (removeComments x) spanName e) n)
  = 1 + countNodes (isWithSpanCall e) x.
Proof.
  rewrite replaced_call.
  rewrite (countNodes_eq _ (CallExpression _ _ _ _)).
  cbn [children isWithSpanCall]. rewrite String.eqb_refl.
  unfold countList. cbn [map].
  change (countNodes (isWithSpanCall e)
            (MemberExpression (Identifier e) (Identifier "withSpan"))) with 0.
  change (countNodes (isWithSpanCall e) (StringLiteral spanName)) with 0.
  rewrite isWithSpanCall_removeComments.
  unfold list_sum. cbn [fold_right andb].
  change ("withSpan" =? "withSpan") with true. cbn. lia.
Qed.

Section SpanCount.
Variable e : string.
Variable fileName : string.
Variable instrumentable : list string.

Let S := spanTraverse e fileName instrumentable.
Let visitor := spanVisitor e fileName instrumentable.

Lemma spanVisitor_call (parent : option Node) (n : Node) (spanName : string) :
  visitor parent n = Some spanName -> identName n = None /\ qualifiedName n = None.
Proof. destruct n; try discriminate. auto. Qed.

Lemma span_identName (parent : option Node) (n : Node) :
  identName (fst (S parent n)) = identName n.
Proof.
  unfold S. rewrite spanTraverse_eq.
  destruct (spanVisitor e fileName instrumentable parent n) as [spanName|] eqn:V.
  - apply spanVisitor_call in V. symmetry. apply V.
  - cbn [fst]. now rewrite identName_head, head_mapChildren, <- identName_head.
Qed.

Lemma span_qualifiedName (parent : option Node) (n : Node) :
  qualifiedName (fst (S parent n)) = qualifiedName n.
Proof.
  unfold S. rewrite spanTraverse_eq.
  destruct (spanVisitor e fileName instrumentable parent n) as [spanName|] eqn:V.
  - apply spanVisitor_call in V. symmetry. apply V.
  - cbn [fst]. destruct n; try reflexivity.
    cbn [mapChildren qualifiedName].
    now rewrite !(span_identName (Some (MemberExpression _ _))).
Qed.

Lemma span_isGeneratorFunction (parent : option Node) (a : list Node) :
  isGeneratorFunction (hd_error (map (fun c => fst (S parent c)) a))
  = isGeneratorFunction (hd_error a).
Proof.
  destruct a as [|x r]; [reflexivity|]. cbn [map hd_error].
  unfold S. rewrite spanTraverse_eq.
  destruct (spanVisitor e fileName instrumentable parent x) as [spanName|] eqn:V.
  - destruct x; try discriminate V. reflexivity.
  - destruct x; reflexivity.
Qed.

Lemma span_isWithSpanCall (n : Node) (under : option Node) :
  isWithSpanCall e (mapChildren (fun c => fst (S under c)) n) = isWithSpanCall e n.
Proof.
  destruct n; try reflexivity.
  cbn [mapChildren]. now rewrite !isWithSpanCall_callee, span_qualifiedName.
Qed.

Lemma span_isEffectGenCall (n : Node) (under : option Node) (g : option string) :
  isEffectGenCall (mapChildren (fun c => fst (S under c)) n) (Some e) g
  = isEffectGenCall n (Some e) g.
Proof.
  destruct n; try reflexivity.
  cbn [mapChildren].
  now rewrite !isEffectGenCall_callee, span_qualifiedName, span_identName.
Qed.

Lemma span_isGeneratorCall (n : Node) (under : option Node) (g : option string) :
  isGeneratorCall e g (mapChildren (fun c => fst (S under c)) n)
  = isGeneratorCall e g n.
Proof.
  unfold isGeneratorCall. rewrite span_isEffectGenCall. f_equal.
  destruct n; try reflexivity.
  cbn [mapChildren generatorArg]. apply span_isGeneratorFunction.
Qed.

Lemma spanTraverse_count (n : Node) :
  forall parent,
    countNodes (isWithSpanCall e) (fst (S parent n))
    = countNodes (isWithSpanCall e) n + countNodes (isSpanTarget e instrumentable) n
    /\ snd (S parent n) = Nat.ltb 0 (countNodes (isSpanTarget e instrumentable) n).
Proof.
  induction n as [n IH] using node_children_ind. intros parent.
  assert (C : countNodes (isWithSpanCall e) (mapChildren (fun c => fst (S (Some n) c)) n)
              = countNodes (isWithSpanCall e) n
                + list_sum (map (countNodes (isSpanTarget e instrumentable)) (children n))).
  { rewrite (countNodes_eq _ (mapChildren _ _)), span_isWithSpanCall,
            children_mapChildren.
    rewrite (countNodes_eq (isWithSpanCall e) n).
    unfold countList. rewrite map_map.
    assert (L : list_sum (map (fun c => countNodes (isWithSpanCall e) (fst (S (Some n) c)))
                              (children n))
                = list_sum (map (countNodes (isWithSpanCall e)) (children n))
                  + list_sum (map (countNodes (isSpanTarget e instrumentable)) (children n))).
    { clear - IH. induction IH as [|c r Hc _ IHr]; [reflexivity|].
      cbn [map]. change (list_sum (?a :: ?l)) with (a + list_sum l).
      rewrite (proj1 (Hc (Some n))), IHr. lia. }
    rewrite L. lia. }
  assert (F : existsb (fun c => snd (S (Some n) c)) (children n)
              = Nat.ltb 0 (list_sum (map (countNodes (isSpanTarget e instrumentable))
                                         (children n)))).
  { clear - IH. induction IH as [|c r Hc _ IHr]; [reflexivity|].
    cbn [map existsb]. change (list_sum (?a :: ?l)) with (a + list_sum l).
    rewrite (proj2 (Hc (Some n))), IHr.
    destruct (countNodes (isSpanTarget e instrumentable) c); reflexivity. }
  rewrite (countNodes_eq (isSpanTarget e instrumentable) n). unfold countList.
  rewrite (spanVisitor_target e fileName instrumentable parent n).
  unfold S in *. rewrite spanTraverse_eq.
  destruct (spanVisitor e fileName instrumentable parent n) as [spanName|].
  - cbn [fst snd]. rewrite isWithSpanCall_wrap, C. split; [lia | reflexivity].
  - cbn [fst snd]. rewrite C, F. split; [lia | reflexivity].
Qed.
End SpanCount.

Section SpanSites.
Variable id : string.
Variable e : string.
Variable g : option string.
Variable fileName : string.
Variable instrumentable : list string.

Let S := spanTraverse e fileName instrumentable.
Let isites := innerSites e g.
Let osites := outerSites e g.
Let keys (sites : list Node) : list string := map fst (delegations id sites).

Lemma keys_app (a b : list Node) : keys (a ++ b) = (keys a ++ keys b)%list.
Proof. unfold keys, delegations. now rewrite flat_map_app, map_app. Qed.

Lemma keys_flat_map (f h : Node -> list Node) (F : Node -> Node) (l : list Node) :
  Forall (fun c => keys (f (F c)) = keys (h c)) l ->
  keys (flat_map f (map F l)) = keys (flat_map h l).
Proof.
  induction 1 as [|c r Hc _ IH]; [reflexivity|].
  cbn [map flat_map]. now rewrite !keys_app, Hc, IH.
Qed.

Lemma keys_mapChildren (F : Node -> Node) (n : Node) :
  keys [mapChildren F n] = keys [n].
Proof.
  destruct n as [| | | | | |loc d a| | | | | | | | | | | |]; try reflexivity.
  destruct loc, d, a; reflexivity.
Qed.

Lemma innerSites_parts (n : Node) :
  isites n
  = if isEffectGenCall n (Some e) g then []
    else ((if isYieldExpression n then [n] else [])
          ++ flat_map isites (children n))%list.
Proof.
  unfold isites. rewrite innerSites_eq.
  destruct n; reflexivity.
Qed.

Lemma isYieldExpression_mapChildren (F : Node -> Node) (n : Node) :
  isYieldExpression (mapChildren F n) = isYieldExpression n.
Proof. destruct n; reflexivity. Qed.

Lemma removeComments_sites (x : Node) :
  isites (removeComments x) = isites x /\ osites (removeComments x) = osites x.
Proof.
  unfold isites, osites. split.
  - rewrite (innerSites_eq e g (removeComments x)), (innerSites_eq e g x),
            children_removeComments.
    destruct x; reflexivity.
  - rewrite (outerSites_eq e g (removeComments x)), (outerSites_eq e g x),
            children_removeComments.
    f_equal. destruct x; reflexivity.
Qed.

Lemma wrapWithSpan_sites (x n : Node) (spanName : string) :
  isites (inheritsComments (wrapWithSpan (removeComments x) spanName e) n) = isites x
  /\ osites (inheritsComments (wrapWithSpan (removeComments x) spanName e) n) = osites x.
Proof.
  rewrite replaced_call. destruct (removeComments_sites x) as [RI RO].
  rewrite <- RI, <- RO. unfold isites, osites. split.
  - rewrite innerSites_eq, isEffectGenCall_callee. cbn [qualifiedName identName].
    rewrite String.eqb_refl. change ("withSpan" =? "gen") with false.
    cbn [andb children flat_map]. rewrite app_nil_r. reflexivity.
  - rewrite outerSites_eq. unfold isGeneratorCall.
    rewrite isEffectGenCall_callee. cbn [qualifiedName identName].
    rewrite String.eqb_refl. change ("withSpan" =? "gen") with false.
    cbn [andb children flat_map app]. rewrite app_nil_r. reflexivity.
Qed.

Lemma spanTraverse_sites (n : Node) :
  forall parent,
    keys (isites (fst (S parent n))) = keys (isites n)
    /\ keys (osites (fst (S parent n))) = keys (osites n).
Proof.
  induction n as [n IH] using node_children_ind. intros parent.
  set (F := fun c => fst (S (Some n) c)).
  assert (HI : keys (flat_map isites (children (mapChildren F n)))
               = keys (flat_map isites (children n))).
  { rewrite children_mapChildren. apply keys_flat_map.
    eapply Forall_impl; [|exact IH]. intros c Hc. apply Hc. }
  assert (HO : keys (flat_map osites (children (mapChildren F n)))
               = keys (flat_map osites (children n))).
  { rewrite children_mapChildren. apply keys_flat_map.
    eapply Forall_impl; [|exact IH]. intros c Hc. apply Hc. }
  assert (A : keys (isites (mapChildren F n)) = keys (isites n)
              /\ keys (osites (mapChildren F n)) = keys (osites n)).
  { split.
    - rewrite !innerSites_parts. unfold F, S.
      rewrite span_isEffectGenCall, isYieldExpression_mapChildren.
      destruct (isEffectGenCall n (Some e) g); [reflexivity|].
      rewrite !keys_app. fold S. fold F. rewrite HI. f_equal.
      destruct (isYieldExpression n); [apply keys_mapChildren | reflexivity].
    - unfold osites. rewrite !outerSites_eq. unfold F, S.
      rewrite span_isGeneratorCall. fold S. fold F.
      rewrite !keys_app. fold osites. rewrite HO. f_equal.
      destruct (isGeneratorCall e g n); [exact HI | reflexivity]. }
  unfold S. rewrite spanTraverse_eq. fold S. fold F.
  destruct (spanVisitor e fileName instrumentable parent n) as [spanName|].
  - cbn [fst]. destruct (wrapWithSpan_sites (mapChildren F n) n spanName) as [WI WO].
    rewrite WI, WO. exact A.
  - exact A.
Qed.
End SpanSites.

(** X14: the span pass adds exactly one call of [withSpan] per target, a
    call [<effectName>.<m>(...)] with [m] instrumentable that has a
    location, nested targets included, and reports a change exactly when
    the file has a target. *)
Theorem spanPass_wraps_each_target (ast : File) (e fileName : string)
  (spanOptions : SpanInstrumentationOptions) :
  let targets :=
    countList (isSpanTarget e (resolveInstrumentable spanOptions)) (program_body ast) in
  countList (isWithSpanCall e) (program_body (fst (spanPass ast e fileName spanOptions)))
  = countList (isWithSpanCall e) (program_body ast) + targets
  /\ snd (spanPass ast e fileName spanOptions) = Nat.ltb 0 targets.
Proof.
  cbv zeta. unfold spanPass. rewrite mapFlag_pair. cbn [fst snd program_body].
  unfold countList. rewrite map_map.
  induction (program_body ast) as [|n r [IH1 IH2]]; [split; reflexivity|].
  cbn [map existsb]. change (list_sum (?a :: ?l)) with (a + list_sum l).
  destruct (spanTraverse_count e fileName (resolveInstrumentable spanOptions) n None)
    as [C F].
  rewrite C, F, IH1, IH2. split; [lia|].
  destruct (countNodes (isSpanTarget e (resolveInstrumentable spanOptions)) n);
    reflexivity.
Qed.

Lemma firstVisits_keys (ds ds' : list (string * Node)) :
  map fst ds = map fst ds' ->
  forall seen, map fst (firstVisits seen ds) = map fst (firstVisits seen ds').
Proof.
  revert ds'. induction ds as [|d r IH]; intros [|d' r'] H seen; try discriminate;
    [reflexivity|].
  cbn [map] in H. injection H as Hd Hr. cbn [firstVisits]. rewrite <- Hd.
  destruct (setHas (fst d) seen); [now apply IH|].
  cbn [map]. rewrite <- Hd. f_equal. now apply IH.
Qed.

Lemma numberFrames_shape (x : bool) (ds ds' : list (string * Node)) :
  map fst ds = map fst ds' ->
  forall i,
    map (fun kv => (fst kv, location (snd kv), varName (snd kv))) (numberFrames x i ds)
    = map (fun kv => (fst kv, location (snd kv), varName (snd kv))) (numberFrames x i ds').
Proof.
  revert ds'. induction ds as [|d r IH]; intros [|d' r'] H i; try discriminate;
    [reflexivity|].
  cbn [map] in H. injection H as Hd Hr.
  cbn [numberFrames map frameOf fst snd location varName]. rewrite Hd. f_equal.
  now apply IH.
Qed.

(** X15: the span pass does not disturb the source trace pass that runs
    after it: the delegation sites keep their location keys and their order,
    so the same locations get frames, under the same variable names. *)
Theorem spanPass_keeps_frame_variables (ast : File) (id e fileName : string)
  (g : option string) (x : bool) (spanOptions : SpanInstrumentationOptions) :
  let ast' := fst (spanPass ast e fileName spanOptions) in
  siteKeys id e g ast' = siteKeys id e g ast
  /\ map (fun kv => (fst kv, location (snd kv), varName (snd kv)))
         (framesByLocation (collectFrames ast' id e g x))
     = map (fun kv => (fst kv, location (snd kv), varName (snd kv)))
           (framesByLocation (collectFrames ast id e g x)).
Proof.
  cbv zeta.
  assert (K : siteKeys id e g (fst (spanPass ast e fileName spanOptions))
              = siteKeys id e g ast).
  { unfold siteKeys, programSites, spanPass. rewrite mapFlag_pair.
    cbn [fst program_body].
    induction (program_body ast) as [|n r IH]; [reflexivity|].
    cbn [map flat_map]. unfold delegations in *. rewrite !flat_map_app, !map_app, IH.
    f_equal.
    exact (proj2 (spanTraverse_sites id e g fileName (resolveInstrumentable spanOptions)
                    n None)). }
  split; [exact K|].
  rewrite !collectFrames_frames. cbv zeta. cbn [framesByLocation].
  apply numberFrames_shape. apply firstVisits_keys. exact K.
Qed.

(** ** A pass that reports no change made none *)

Lemma sourceTracePass_unflagged (ast : File) (id e : string) (g : option string)
  (x : bool) :
  snd (sourceTracePass ast id e g x) = false ->
  fst (sourceTracePass ast id e g x) = ast.
Proof.
  rewrite sourceTracePass_eq. cbv zeta.
  destruct (Nat.ltb 0 _) eqn:L; [|reflexivity].
  cbn [fst snd]. intros H. exfalso.
  rewrite (proj1 (ensureReferencesImport_same e g (fun _ => false) no_import_match ast))
    in H.
  rewrite anyFrame_delegations in H.
  rewrite collectFrames_frames in H, L. cbv zeta in H, L. cbn [framesByLocation] in H, L.
  fold (programSites e g ast) in H.
  destruct (delegations id (programSites e g ast)) as [|d rest]; [discriminate L|].
  cbn [firstVisits setHas existsb numberFrames mapGet frameOf fst] in H.
  rewrite String.eqb_refl in H. discriminate H.
Qed.

(** X16: when the two passes of [transform] report no change, the tree is
    the parsed one, which is why [transform] may return the input text. *)
Theorem runPasses_unflagged (ast : File) (id : string) (options : SourceTraceOptions)
  (e : string) (g : option string) :
  snd (runPasses ast id options e g) = false ->
  fst (runPasses ast id options e g) = ast.
Proof.
  unfold runPasses. cbv zeta.
  set (p1 := match opt_spans options with
             | Some spanOptions =>
                 if enableSpans options && truthy e
                 then spanPass ast e (getFileName id) spanOptions
                 else (ast, false)
             | None => (ast, false)
             end).
  assert (H1 : snd p1 = false -> fst p1 = ast).
  { subst p1. destruct (opt_spans options) as [spanOptions|]; [|reflexivity].
    destruct (enableSpans options && truthy e); [|reflexivity].
    apply spanPass_unflagged. }
  destruct p1 as [ast1 b1]. cbn [fst snd] in H1.
  set (p2 := if enableSourceTrace options
             then sourceTracePass ast1 id e g (extractFnName options)
             else (ast1, false)).
  assert (H2 : snd p2 = false -> fst p2 = ast1).
  { subst p2. destruct (enableSourceTrace options); [|reflexivity].
    apply sourceTracePass_unflagged. }
  destruct p2 as [ast2 b2]. cbn [fst snd] in *.
  intros H. apply orb_false_iff in H. destruct H as [-> ->].
  rewrite (H2 eq_refl). now apply H1.
Qed.

Lemma runPasses_unflagged_witness :
  fst (runPasses
         {| program_body :=
              [ExpressionStatement
                 (CallExpression None []
                    (MemberExpression (Identifier "console") (Identifier "log")) [])] |}
         "test.ts" defaultOptions "Effect" None)
  = {| program_body :=
         [ExpressionStatement
            (CallExpression None []
               (MemberExpression (Identifier "console") (Identifier "log")) [])] |}.
Proof.
  apply runPasses_unflagged. reflexivity.
Defined.

(** ** Frames declared and frames referenced *)

Lemma sourceTracePass_spreads (ast : File) (id e : string) (g : option string)
  (x : bool) (v : string) :
  countList (isFrameSpread v)
    (program_body (fst (sourceTracePass ast id e g x)))
  = countList (isFrameSpread v) (program_body ast)
    + frameUses id (framesByLocation (collectFrames ast id e g x)) v
        (programSites e g ast).
Proof.
  assert (Imp : forall specifiers source,
            isFrameSpread v (ImportDeclaration specifiers source) = false)
    by reflexivity.
  rewrite sourceTracePass_eq. cbv zeta.
  destruct (Nat.ltb 0 _) eqn:L.
  - cbn [fst program_body].
    rewrite (countList_splice (isFrameSpread v)).
    rewrite (countList_zero (isFrameSpread v) createStackFrameDeclaration
               (mapValues (framesByLocation (collectFrames ast id e g x)))
               (frame_declaration_no_spread v)).
    rewrite countList_rewritten_spread.
    rewrite (proj1 (ensureReferencesImport_same e g _ Imp ast)).
    rewrite (proj2 (ensureReferencesImport_same e g _ Imp ast)).
    unfold programSites. lia.
  - cbn [fst]. apply Nat.ltb_ge in L.
    destruct (framesByLocation (collectFrames ast id e g x)) as [|kv rest];
      [|cbn in L; lia].
    unfold frameUses. rewrite siteSum_delegations.
    cbn [mapGet]. 
    induction (delegations id (programSites e g ast)) as [|d r IH]; [cbn; lia|].
    cbn [map]. change (list_sum (?a :: ?l)) with (a + list_sum l). lia.
Qed.

Lemma mapGet_In (V : Type) (k : string) (m : list (string * V)) (v : V) :
  mapGet k m = Some v -> In v (mapValues m).
Proof.
  unfold mapValues. induction m as [|[k' v'] r IH]; [discriminate|].
  cbn [mapGet map snd]. destruct (k' =? k).
  - intros H. injection H as ->. now left.
  - intros H. right. now apply IH.
Qed.

Lemma firstVisits_incl (ds : list (string * Node)) :
  forall seen d, In d (firstVisits seen ds) -> In d ds.
Proof.
  induction ds as [|d0 r IH]; intros seen d H; [exact H|].
  cbn [firstVisits] in H. destruct (setHas (fst d0) seen).
  - right. exact (IH _ _ H).
  - destruct H as [H|H]; [now left | right; exact (IH _ _ H)].
Qed.

Lemma numberFrames_In (x : bool) (ds : list (string * Node)) :
  forall c frame,
    In frame (mapValues (numberFrames x c ds)) ->
    exists j d, nth_error ds j = Some d /\ frame = snd (frameOf x (c + j) d).
Proof.
  unfold mapValues.
  induction ds as [|d0 r IH]; intros c frame H; [destruct H|].
  cbn [numberFrames map] in H. destruct H as [H|H].
  - exists 0, d0. split; [reflexivity|]. now rewrite Nat.add_0_r.
  - destruct (IH _ _ H) as [j [d [Hj Hf]]]. exists (S j), d. split; [exact Hj|].
    now replace (c + S j) with (S c + j) by lia.
Qed.

Lemma list_sum_positive (A : Type) (f : A -> nat) (l : list A) :
  0 < list_sum (map f l) <-> exists a, In a l /\ 0 < f a.
Proof.
  induction l as [|a r IH].
  - cbn. split; [lia | intros [a [[] _]]].
  - cbn [map]. change (list_sum (?a :: ?l)) with (a + list_sum l). split.
    + intros H. destruct (f a) eqn:E.
      * destruct (proj1 IH) as [b [Hb Pb]]; [lia|]. exists b. split; [now right | exact Pb].
      * exists a. split; [now left | lia].
    + intros [b [[<-|Hb] Pb]]; [lia|].
      assert (0 < list_sum (map f r)) by (apply IH; eauto). lia.
Qed.

Lemma references_added_iff_recorded (ast : File) (id e : string) (g : option string)
  (x : bool) (v : string) :
  let frames := framesByLocation (collectFrames ast id e g x) in
  countList (isFrameSpread v) (program_body ast)
  < countList (isFrameSpread v) (program_body (fst (sourceTracePass ast id e g x)))
  <-> In v (map varName (mapValues frames)).
Proof.
  cbv zeta. rewrite sourceTracePass_spreads.
  unfold frameUses. rewrite siteSum_delegations.
  rewrite collectFrames_frames. cbv zeta. cbn [framesByLocation].
  set (ds := delegations id (programSites e g ast)).
  set (frames := numberFrames x 0 (firstVisits [] ds)).
  assert (ND : NoDup (map fst (firstVisits [] ds)))
    by exact (firstVisits_NoDup ds (NoDup_nil _)).
  split.
  - intros H.
    assert (P : 0 < list_sum
                      (map (fun d => match mapGet (fst d) frames with
                                     | Some frame => if varName frame =? v then 1 else 0
                                     | None => 0
                                     end) ds)) by lia.
    apply list_sum_positive in P. destruct P as [d [Hd Pd]].
    destruct (mapGet (fst d) frames) as [frame|] eqn:G; [|lia].
    destruct (varName frame =? v) eqn:E; [|lia].
    apply String.eqb_eq in E. subst v. apply in_map. exact (mapGet_In _ _ G).
  - intros H. apply in_map_iff in H. destruct H as [frame [Hv Hf]].
    destruct (numberFrames_In _ _ _ _ Hf) as [j [d [Hj E]]].
    assert (P : 0 < list_sum
                      (map (fun d => match mapGet (fst d) frames with
                                     | Some frame => if varName frame =? v then 1 else 0
                                     | None => 0
                                     end) ds)).
    { apply list_sum_positive. exists d. split.
      - apply (firstVisits_incl ds [] d). eapply nth_error_In. exact Hj.
      - unfold frames. rewrite (@mapGet_numberFrames x _ ND 0 j d Hj).
        rewrite <- E, Hv, String.eqb_refl. lia. }
    lia.
Qed.

Lemma declarations_added_iff_recorded (ast : File) (id e : string) (g : option string)
  (x : bool) (v : string) :
  List.length (filter (declaresFrame v) (program_body ast))
  < List.length (filter (declaresFrame v)
                   (program_body (fst (sourceTracePass ast id e g x))))
  <-> In v (map varName
              (mapValues (framesByLocation (collectFrames ast id e g x)))).
Proof.
  rewrite sourceTracePass_declarations.
  set (infos := mapValues (framesByLocation (collectFrames ast id e g x))).
  split.
  - intros H.
    assert (P : 0 < list_sum (map (fun info => if varName info =? v then 1 else 0) infos))
      by lia.
    apply list_sum_positive in P. destruct P as [info [Hin Pi]].
    destruct (varName info =? v) eqn:E; [|lia].
    apply String.eqb_eq in E. subst v. now apply in_map.
  - intros H. apply in_map_iff in H. destruct H as [info [Hv Hin]].
    assert (P : 0 < list_sum (map (fun info => if varName info =? v then 1 else 0) infos)).
    { apply list_sum_positive. exists info. split; [exact Hin|].
      rewrite Hv, String.eqb_refl. lia. }
    lia.
Qed.

(** X17: the source trace pass adds a reference [...v] to the tree exactly
    when it adds a statement [const v = { ... }] to the program, and both
    exactly when [v] is the variable of a frame it recorded: every hoisted
    declaration is referenced, and no reference is added to a variable
    whose declaration is not hoisted. *)
Theorem frame_referenced_iff_declared (ast : File) (id e : string) (g : option string)
  (x : bool) (v : string) :
  let frames := framesByLocation (collectFrames ast id e g x) in
  let output := program_body (fst (sourceTracePass ast id e g x)) in
  (countList (isFrameSpread v) (program_body ast) < countList (isFrameSpread v) output
   <-> List.length (filter (declaresFrame v) (program_body ast))
       < List.length (filter (declaresFrame v) output))
  /\ (List.length (filter (declaresFrame v) (program_body ast))
      < List.length (filter (declaresFrame v) output)
      <-> In v (map varName (mapValues frames))).
Proof.
  cbv zeta. split.
  - rewrite declarations_added_iff_recorded. apply references_added_iff_recorded.
  - apply declarations_added_iff_recorded.
Qed.

Lemma frame_referenced_witness :
  List.length (filter (declaresFrame "_sf0") (program_body Samples.nestedGen))
  < List.length
      (filter (declaresFrame "_sf0")
         (program_body
            (fst (sourceTracePass Samples.nestedGen "test.ts" "Effect" None true)))).
Proof.
  apply (proj1 (proj1 (frame_referenced_iff_declared Samples.nestedGen "test.ts" "Effect"
                         None true "_sf0"))).
  vm_compute. lia.
Defined.

Lemma numberFrames_vars (x : bool) (ds : list (string * Node)) :
  forall c,
    map varName (mapValues (numberFrames x c ds))
    = map (fun i => "_sf" ++ string_of_nat i) (seq c (List.length ds)).
Proof.
  unfold mapValues.
  induction ds as [|d r IH]; intros c; [reflexivity|].
  cbn [numberFrames map List.length seq frameOf snd varName]. f_equal. apply IH.
Qed.

Lemma numberFrames_locations (x : bool) (ds : list (string * Node)) :
  forall c, Forall (fun kv => location (snd kv) = fst kv) (numberFrames x c ds).
Proof.
  induction ds as [|d r IH]; intros c; constructor; [reflexivity | apply IH].
Qed.

Lemma NoDup_map_injective (A B : Type) (f : A -> B) (l : list A) :
  (forall a b, f a = f b -> a = b) -> NoDup l -> NoDup (map f l).
Proof.
  intros Hf. induction 1 as [|a r Ha _ IH]; constructor; [|exact IH].
  intros H. apply in_map_iff in H. destruct H as [b [E Hb]].
  apply Hf in E. subst b. contradiction.
Qed.

(** X18: the frames the first traversal records are named [_sf0], [_sf1],
    ... in the order they are recorded, so the hoisted declarations have
    pairwise distinct names, and each frame carries its own map key as its
    location. *)
Theorem frame_variables_distinct (ast : File) (id e : string) (g : option string)
  (x : bool) :
  let frames := framesByLocation (collectFrames ast id e g x) in
  map varName (mapValues frames)
  = map (fun i => "_sf" ++ string_of_nat i) (seq 0 (List.length frames))
  /\ NoDup (map varName (mapValues frames))
  /\ Forall (fun kv => location (snd kv) = fst kv) frames.
Proof.
  cbv zeta. rewrite collectFrames_frames. cbv zeta. cbn [framesByLocation].
  rewrite numberFrames_vars, numberFrames_length.
  split; [reflexivity|]. split.
  - apply NoDup_map_injective; [exact frame_var_inj | apply seq_NoDup].
  - apply numberFrames_locations.
Qed.

(** ** What the span pass keeps *)

Lemma stripSpans_eq (e : string) (n : Node) :
  stripSpans e n
  = if isSpanWrapper e n then
      match n with
      | CallExpression _ comments _ (expr :: _) =>
          withLeadingComments comments (stripSpans e expr)
      | _ => n
      end
    else mapChildren (stripSpans e) n.
Proof. destruct n; reflexivity. Qed.

Lemma stripSpans_replaced (e spanName : string) (loc : SourceLocation)
  (cs : list Comment) (c : Node) (a : list Node) (n : Node) :
  leadingCommentsOf n = cs ->
  stripSpans e
    (inheritsComments
       (wrapWithSpan (removeComments (CallExpression (Some loc) cs c a)) spanName e) n)
  = stripSpans e (CallExpression (Some loc) cs c a).
Proof.
  intros C. rewrite replaced_call, C, stripSpans_eq.
  cbn [isSpanWrapper isWithSpanCall isStringLiteral removeComments].
  rewrite String.eqb_refl. change ("withSpan" =? "withSpan") with true.
  cbn [andb].
  rewrite (stripSpans_eq e (CallExpression (Some loc) [] c a)),
          (stripSpans_eq e (CallExpression (Some loc) cs c a)).
  reflexivity.
Qed.

Section SpanKeeps.
Variable e : string.
Variable fileName : string.
Variable instrumentable : list string.

Let S := spanTraverse e fileName instrumentable.

Lemma spanVisitor_located (parent : option Node) (n : Node) (spanName : string) :
  spanVisitor e fileName instrumentable parent n = Some spanName ->
  exists loc cs c a, n = CallExpression (Some loc) cs c a.
Proof.
  destruct n as [| | |loc cs callee args| | | | | | | | | | | | | | |]; try discriminate.
  intros V. destruct loc as [loc|]; [eauto|]. exfalso. cbn in V.
  destruct callee as [| |o p| | | | | | | | | | | | | | | |]; try discriminate V.
  destruct o; try discriminate V. destruct p; try discriminate V.
  destruct (negb _); [discriminate V|]. destruct (negb _); discriminate V.
Qed.

Lemma span_isStringLiteral (parent : option Node) (n : Node) :
  isStringLiteral (fst (S parent n)) = isStringLiteral n.
Proof.
  unfold S. rewrite spanTraverse_eq.
  destruct (spanVisitor e fileName instrumentable parent n) as [spanName|] eqn:V.
  - destruct n; try discriminate V. reflexivity.
  - destruct n; reflexivity.
Qed.

Lemma span_isSpanWrapper (n : Node) (under : option Node) :
  isSpanWrapper e (mapChildren (fun c => fst (S under c)) n) = isSpanWrapper e n.
Proof.
  destruct n as [| | |loc cs callee args| | | | | | | | | | | | | | |]; try reflexivity.
  cbn [mapChildren]. unfold isSpanWrapper.
  destruct loc; [reflexivity|].
  destruct args as [|a1 [|a2 [|a3 r]]]; try reflexivity.
  cbn [map]. rewrite !isWithSpanCall_callee. unfold S.
  now rewrite span_qualifiedName, span_isStringLiteral.
Qed.

Lemma spanTraverse_strip (n : Node) :
  forall parent, stripSpans e (fst (S parent n)) = stripSpans e n.
Proof.
  induction n as [n IH] using node_children_ind. intros parent.
  set (F := fun c => fst (S (Some n) c)).
  assert (A : stripSpans e (mapChildren F n) = stripSpans e n).
  { rewrite (stripSpans_eq e (mapChildren F n)), (stripSpans_eq e n).
    unfold F. rewrite span_isSpanWrapper. fold F.
    destruct (isSpanWrapper e n) eqn:W.
    - destruct n as [| | |loc cs callee args| | | | | | | | | | | | | | |];
        try discriminate W.
      cbn [mapChildren]. destruct args as [|a1 r]; [destruct loc; discriminate W|].
      cbn [map]. cbn [children] in IH. inversion IH as [|c l Hc Hl]; subst.
      inversion Hl as [|c l Ha _]; subst. f_equal. apply Ha.
    - rewrite mapChildren_mapChildren. apply mapChildren_ext.
      eapply Forall_impl; [|exact IH]. intros c Hc. apply Hc. }
  unfold S. rewrite spanTraverse_eq. fold S. fold F.
  destruct (spanVisitor e fileName instrumentable parent n) as [spanName|] eqn:V.
  - cbn [fst]. destruct (spanVisitor_located _ _ V) as [loc [cs [c [a E]]]].
    rewrite <- A. clearbody F. clear A IH V. subst n. cbn [mapChildren].
    apply stripSpans_replaced. reflexivity.
  - exact A.
Qed.
End SpanKeeps.

Lemma stripSpans_none (e : string) (n : Node) :
  countNodes (isSpanWrapper e) n = 0 -> stripSpans e n = n.
Proof.
  induction n as [n IH] using node_children_ind.
  rewrite countNodes_eq, stripSpans_eq. intros H.
  destruct (isSpanWrapper e n); [lia|]. cbn in H.
  rewrite <- (mapChildren_id n) at 2. apply mapChildren_ext.
  unfold countList in H.
  revert IH H. induction (children n) as [|c r IHr]; intros IH H; constructor.
  - inversion IH; subst. cbn [map] in H.
    change (list_sum (?a :: ?l)) with (a + list_sum l) in H. apply H2. lia.
  - inversion IH; subst. cbn [map] in H.
    change (list_sum (?a :: ?l)) with (a + list_sum l) in H. apply IHr; [assumption|lia].
Qed.

(** X19: the span pass only wraps: replacing, in its output, every added
    call [<effectName>.withSpan(call, name)] by [call], with the leading
    comments that the replacement moved to the added call put back on
    [call], gives back the tree it was given, when that tree holds no call
    of this shape without a location, as no parsed tree does. *)
Theorem spanPass_only_wraps (ast : File) (e fileName : string)
  (spanOptions : SpanInstrumentationOptions) :
  countList (isSpanWrapper e) (program_body ast) = 0 ->
  map (stripSpans e) (program_body (fst (spanPass ast e fileName spanOptions)))
  = program_body ast.
Proof.
  unfold spanPass. rewrite mapFlag_pair. cbn [fst program_body].
  rewrite map_map. unfold countList.
  induction (program_body ast) as [|n r IH]; intros H; [reflexivity|].
  cbn [map] in *. change (list_sum (?a :: ?l)) with (a + list_sum l) in H.
  rewrite spanTraverse_strip, stripSpans_none by lia. f_equal. apply IH. lia.
Qed.

Lemma spanPass_only_wraps_witness :
  map (stripSpans "Effect")
      (program_body
         (fst (spanPass Samples.commentedCall "Effect" "test.ts"
                 {| enabled := Some true; include := None; exclude := None;
                    nameFormat := None; strategy := None |})))
  = program_body Samples.commentedCall.
Proof.
  apply spanPass_only_wraps. reflexivity.
Defined.

(** ** What the source trace pass keeps *)

Lemma stripFrames_eq (e : string) (n : Node) :
  stripFrames e n
  = if isFrameWrapper e n then
      match n with
      | CallExpression _ _ _ (argument :: _) => stripFrames e argument
      | _ => n
      end
    else mapChildren (stripFrames e) n.
Proof. destruct n; reflexivity. Qed.

Lemma stripFrames_wrap (e r v : string) (x : Node) :
  stripFrames e (wrapWithUpdateService x v e r) = stripFrames e x.
Proof.
  unfold wrapWithUpdateService. rewrite stripFrames_eq.
  cbn [isFrameWrapper isUpdateServiceCall]. rewrite String.eqb_refl. reflexivity.
Qed.

Lemma stripFrames_declaration (e : string) (info : StackFrameInfo) :
  stripFrames e (createStackFrameDeclaration info) = createStackFrameDeclaration info.
Proof. reflexivity. Qed.

Lemma stripFrames_none (e : string) (n : Node) :
  countNodes (isFrameWrapper e) n = 0 -> stripFrames e n = n.
Proof.
  induction n as [n IH] using node_children_ind.
  rewrite countNodes_eq, stripFrames_eq. intros H.
  destruct (isFrameWrapper e n); [lia|]. cbn in H.
  rewrite <- (mapChildren_id n) at 2. apply mapChildren_ext.
  unfold countList in H.
  revert IH H. induction (children n) as [|c r IHr]; intros IH H; constructor.
  - inversion IH; subst. cbn [map] in H.
    change (list_sum (?a :: ?l)) with (a + list_sum l) in H. apply H2. lia.
  - inversion IH; subst. cbn [map] in H.
    change (list_sum (?a :: ?l)) with (a + list_sum l) in H. apply IHr; [assumption|lia].
Qed.

Section StripKept.
Variable e : string.
Variable f : Node -> Node.
Hypothesis f_head : forall x, head (f x) = head x.
Hypothesis f_member : forall o p, f (MemberExpression o p) = MemberExpression (f o) (f p).

Lemma isFrameWrapper_kept (n : Node) :
  isFrameWrapper e (mapChildren f n) = isFrameWrapper e n.
Proof.
  destruct n as [| | |loc cs callee args| | | | | | | | | | | | | | |]; try reflexivity.
  unfold isFrameWrapper.
  rewrite (@isUpdateServiceCall_kept f f_head f_member e (CallExpression loc cs callee args)).
  cbn [mapChildren].
  destruct loc; [reflexivity|]. destruct cs; [|reflexivity].
  destruct args as [|a1 [|a2 [|a3 [|a4 r]]]]; reflexivity.
Qed.

Lemma stripFrames_mapChildren (n : Node) :
  Forall (fun c => stripFrames e (f c) = stripFrames e c) (children n) ->
  stripFrames e (mapChildren f n) = stripFrames e n.
Proof.
  intros IH.
  rewrite (stripFrames_eq e (mapChildren f n)), (stripFrames_eq e n), isFrameWrapper_kept.
  destruct (isFrameWrapper e n) eqn:W.
  - destruct n as [| | |loc cs callee args| | | | | | | | | | | | | | |];
      try discriminate W.
    cbn [mapChildren]. destruct args as [|a1 r]; [destruct loc, cs; discriminate W|].
    cbn [map]. cbn [children] in IH. inversion IH as [|c l Hc Hl]; subst.
    inversion Hl as [|c l Ha _]; subst. exact Ha.
  - rewrite mapChildren_mapChildren. apply mapChildren_ext. exact IH.
Qed.
End StripKept.

Section StripRewritten.
Variable id : string.
Variable e : string.
Variable g : option string.
Variable frames : list (string * StackFrameInfo).
Variable r : string.

Let rw := rewriteFrom id e g frames r.

Lemma stripFrames_rewriteFrom (n : Node) :
  forall act, stripFrames e (rw act n) = stripFrames e n.
Proof.
  induction n as [n IH] using node_children_ind. intros act.
  assert (M : forall b, stripFrames e (mapChildren (rw b) n) = stripFrames e n).
  { intros b. apply stripFrames_mapChildren.
    - intros x. apply rw_head.
    - intros o p. apply rw_member.
    - eapply Forall_impl; [|exact IH]. intros c Hc. apply Hc. }
  unfold rw at 1. rewrite rewriteFrom_eq. fold rw.
  destruct n as [| | |loc cs callee args| | |loc d argument| | | | | | | | | | | |];
    try apply M.
  - destruct (isEffectGenCall _ _ _); apply M.
  - destruct (if act then yieldFrame id frames (YieldExpression loc d argument) else None)
      as [frame|]; [|apply M].
    destruct argument as [arg|]; [|apply M].
    rewrite (stripFrames_eq e (YieldExpression loc d (Some (wrapWithUpdateService _ _ _ _)))),
            (stripFrames_eq e (YieldExpression loc d (Some arg))).
    cbn [isFrameWrapper mapChildren option_map]. rewrite stripFrames_wrap.
    cbn [children optList] in IH. inversion IH as [|c l Hc _]; subst.
    now rewrite Hc.
Qed.
End StripRewritten.

Lemma isImportDeclaration_head (n : Node) :
  isImportDeclaration n = isImportDeclaration (head n).
Proof. destruct n; reflexivity. Qed.

Lemma insertIndexFrom_import (body : list Node) (i : nat) :
  insertIndexFrom body i
  = match body with
    | n :: rest => if isImportDeclaration n then insertIndexFrom rest (S i) else i
    | [] => i
    end.
Proof. destruct body as [|n rest]; [reflexivity|]. destruct n; reflexivity. Qed.

Lemma insertIndexFrom_map (f : Node -> Node) (body : list Node) :
  (forall n, isImportDeclaration (f n) = isImportDeclaration n) ->
  forall i, insertIndexFrom (map f body) i = insertIndexFrom body i.
Proof.
  intros H. induction body as [|n rest IH]; intros i; [reflexivity|].
  cbn [map]. rewrite (insertIndexFrom_import (f n :: _)), (insertIndexFrom_import (n :: _)).
  rewrite H, IH. reflexivity.
Qed.

Lemma map_splice (f : Node -> Node) (body items : list Node) (i : nat) :
  map f (splice body i items) = splice (map f body) i (map f items).
Proof. unfold splice. now rewrite !map_app, firstn_map, skipn_map. Qed.

Lemma stripFrames_body (e : string) (body : list Node) :
  countList (isFrameWrapper e) body = 0 -> map (stripFrames e) body = body.
Proof.
  unfold countList. induction body as [|n rest IH]; intros H; [reflexivity|].
  cbn [map] in *. change (list_sum (?a :: ?l)) with (a + list_sum l) in H.
  rewrite stripFrames_none, IH by lia. reflexivity.
Qed.

(** X20: the source trace pass only wraps and hoists: replacing, in its
    output, every added call
    [<effectName>.updateService(argument, ...)] by [argument] gives the tree
    it was given, with the [References] import ensured and the frame
    declarations spliced in after the leading imports; this when that tree
    holds no call of this shape without a location, as no parsed tree
    does. *)
Theorem sourceTracePass_only_wraps (ast : File) (id e : string) (g : option string)
  (x : bool) :
  countList (isFrameWrapper e) (program_body ast) = 0 ->
  let frames := framesByLocation (collectFrames ast id e g x) in
  let body1 :=
    if Nat.ltb 0 (List.length frames)
    then program_body (fst (ensureReferencesImport ast))
    else program_body ast in
  map (stripFrames e) (program_body (fst (sourceTracePass ast id e g x)))
  = splice body1 (insertIndexFrom body1 0)
           (map createStackFrameDeclaration (mapValues frames)).
Proof.
  intros H. cbv zeta.
  assert (Imp : forall specifiers source,
            isFrameWrapper e (ImportDeclaration specifiers source) = false)
    by reflexivity.
  rewrite sourceTracePass_eq. cbv zeta.
  destruct (Nat.ltb 0 _) eqn:L.
  - cbn [fst program_body].
    set (frames := framesByLocation (collectFrames ast id e g x)).
    set (ast1 := fst (ensureReferencesImport ast)).
    set (r := snd (ensureReferencesImport ast)).
    assert (H1 : countList (isFrameWrapper e) (program_body ast1) = 0).
    { unfold ast1. now rewrite (proj2 (ensureReferencesImport_same e g _ Imp ast)). }
    rewrite map_splice, map_map.
    rewrite (map_ext _ _ (fun n => stripFrames_rewriteFrom id e g frames r n false)).
    rewrite (@stripFrames_body e _ H1).
    rewrite insertIndexFrom_map.
    + f_equal. rewrite map_map. apply map_ext. intros info.
      apply stripFrames_declaration.
    + intros n. now rewrite isImportDeclaration_head, rw_head, <- isImportDeclaration_head.
  - cbn [fst]. apply Nat.ltb_ge in L.
    destruct (framesByLocation (collectFrames ast id e g x)) as [|kv rest];
      [|cbn in L; lia].
    cbn [mapValues map]. unfold splice. cbn [app].
    rewrite firstn_skipn. now apply stripFrames_body.
Qed.

Lemma sourceTracePass_only_wraps_witness :
  map (stripFrames "Effect")
      (program_body (fst (sourceTracePass Samples.nestedGen "test.ts" "Effect" None true)))
  = splice (program_body (fst (ensureReferencesImport Samples.nestedGen)))
           (insertIndexFrom (program_body (fst (ensureReferencesImport Samples.nestedGen))) 0)
           (map createStackFrameDeclaration
              (mapValues
                 (framesByLocation
                    (collectFrames Samples.nestedGen "test.ts" "Effect" None true)))).
Proof.
  apply (sourceTracePass_only_wraps Samples.nestedGen "test.ts" "Effect" None true).
  reflexivity.
Defined.
